(** * Verification of the loop-extrusion simulation core

  Shallow embedding of the landscape generator, the jump kernel, the
  kinetic engine and the statistics layer of [nucleo.py] and
  [marcand.py], followed by the properties proved about them. *)

From Stdlib Require Import String.
From Stdlib Require Import List ZArith QArith Qround Qabs Bool Lia Lqa Arith.
Import ListNotations.

Local Open Scope Z_scope.

(* ===================================================================== *)
(** * NumPy array primitives used by the sources *)
(* ===================================================================== *)

Module Np.

  (** [np.diff]: differences of adjacent entries. *)
Fixpoint diff (l : list Z) : list Z :=
  match l with
  | [] => []
  | x :: t =>
    match t with
    | [] => []
    | y :: _ => (y - x) :: diff t
    end
  end.

  (** [np.where(l == v)[0]], the indices counted from [off]. *)
Fixpoint where_from (off : nat) (v : Z) (l : list Z) : list nat :=
  match l with
  | [] => []
  | x :: t =>
    if x =? v then off :: where_from (S off) v t
    else where_from (S off) v t
  end.

Definition where_eq (l : list Z) (v : Z) : list nat := where_from 0 v l.

Section Arrays.
Context {A : Type}.

  (** [arr[s:e] = v] for non-negative bounds: the entries with index in
    [s, e) that exist are overwritten, the others are kept. *)
Fixpoint fill (s e : nat) (v : A) (l : list A) {struct l} : list A :=
  match l with
  | [] => []
  | x :: t =>
      match e with
      | O => x :: t
      | S e' =>
          match s with
          | O => v :: fill O e' v t
          | S s' => x :: fill s' e' v t
          end
      end
  end.

  (** [np.tile(row, (nt, 1))] for [nt >= 0]. *)
Definition tile_rows (row : list A) (nt : nat) : list (list A) :=
  repeat row nt.

  (** [np.tile(pattern, n)] on a one-dimensional pattern. *)
Fixpoint tile (pattern : list A) (n : nat) : list A :=
  match n with
  | O => []
  | S k => pattern ++ tile pattern k
  end.

End Arrays.

End Np.

(* ===================================================================== *)
(** * Floating-point values

    A [float64] is modelled as a rational or one of the three special
    values.  Finite arithmetic is exact: rounding is outside the model.
    The range of a double is kept where the sources depend on it, in the
    time updates of the engines and in [proba_gamma] ([overflow],
    [underflow] below); elsewhere the operations are those of the
    rationals.  The special values follow IEEE 754, which is what NumPy
    computes (a division by zero gives an infinity or a NaN and a warning;
    it does not raise). *)
(* ===================================================================== *)

Module NpFloat.

Inductive fl : Type :=
| Fin (q : Q)
| PInf
| NInf
| NaN.

Definition Qltb (x y : Q) : bool := negb (Qle_bool y x).

Definition of_Z (z : Z) : fl := Fin (inject_Z z).

(** The sentinel [1e308] of the engine. *)
Definition sentinel : fl := Fin (inject_Z (10 ^ 308)).

(** The largest double.  A finite float holds its value exactly here; of
    float64 the model keeps the range where the engines guard it: a result
    of an operation whose magnitude is beyond the largest double is an
    infinity ([overflow]).  The rounding inside the range is not
    modelled. *)
Definition max_double : Q := inject_Z ((2 ^ 53 - 1) * 2 ^ 971).

Definition overflow (a : fl) : fl :=
  match a with
  | Fin q =>
      if Qltb max_double q then PInf
      else if Qltb q (- max_double) then NInf
      else Fin q
  | _ => a
  end.

(** Half of the smallest positive double, [2 ** -1075]: a result of this
    magnitude or less is the double zero ([underflow]). *)
Definition tiny : Q := 1 # (2 ^ 1075).

Definition underflow (q : Q) : Q :=
  if Qle_bool (Qabs q) tiny then 0 else q.

Definition fneg (a : fl) : fl :=
  match a with
  | Fin q => Fin (- q)
  | PInf => NInf
  | NInf => PInf
  | NaN => NaN
  end.

Definition fadd (a b : fl) : fl :=
  match a, b with
  | NaN, _ | _, NaN => NaN
  | PInf, NInf | NInf, PInf => NaN
  | PInf, _ | _, PInf => PInf
  | NInf, _ | _, NInf => NInf
  | Fin x, Fin y => Fin (x + y)
  end.

Definition fsub (a b : fl) : fl := fadd a (fneg b).

(** Sign of an infinity times a finite, non-zero factor. *)
Definition signed_inf (positive : bool) : fl := if positive then PInf else NInf.

Definition fmul (a b : fl) : fl :=
  match a, b with
  | NaN, _ | _, NaN => NaN
  | Fin x, Fin y => Fin (x * y)
  | PInf, PInf | NInf, NInf => PInf
  | PInf, NInf | NInf, PInf => NInf
  | PInf, Fin y | Fin y, PInf =>
      if Qeq_bool y 0 then NaN else signed_inf (Qltb 0 y)
  | NInf, Fin y | Fin y, NInf =>
      if Qeq_bool y 0 then NaN else signed_inf (Qltb y 0)
  end.

(** [a / b]: a finite value over zero is an infinity of the sign of the
    numerator, zero over zero is NaN. *)
Definition fdiv (a b : fl) : fl :=
  match a, b with
  | NaN, _ | _, NaN => NaN
  | Fin x, Fin y =>
      if Qeq_bool y 0 then
        if Qeq_bool x 0 then NaN else signed_inf (Qltb 0 x)
      else Fin (x / y)
  | Fin _, PInf | Fin _, NInf => Fin 0
  | PInf, Fin y => signed_inf (Qle_bool 0 y)
  | NInf, Fin y => signed_inf (Qltb y 0)
  | PInf, PInf | PInf, NInf | NInf, PInf | NInf, NInf => NaN
  end.

(** [a < b]; every comparison with NaN is false. *)
Definition flt (a b : fl) : bool :=
  match a, b with
  | NaN, _ | _, NaN => false
  | Fin x, Fin y => Qltb x y
  | NInf, NInf => false
  | NInf, _ => true
  | _, NInf => false
  | PInf, _ => false
  | Fin _, PInf => true
  end.

(** [a <= b]. *)
Definition fle (a b : fl) : bool :=
  match a, b with
  | NaN, _ | _, NaN => false
  | Fin x, Fin y => Qle_bool x y
  | NInf, _ => true
  | _, PInf => true
  | _, _ => false
  end.

(** [a == b]. *)
Definition feq (a b : fl) : bool :=
  match a, b with
  | Fin x, Fin y => Qeq_bool x y
  | PInf, PInf | NInf, NInf => true
  | _, _ => false
  end.

(** [a != b]. *)
Definition fne (a b : fl) : bool := negb (feq a b).

(** [np.isinf] and [np.isnan]. *)
Definition isinf (a : fl) : bool :=
  match a with PInf | NInf => true | _ => false end.

Definition isnan (a : fl) : bool :=
  match a with NaN => true | _ => false end.

(** [np.floor]. *)
Definition floor (a : fl) : fl :=
  match a with
  | Fin q => Fin (inject_Z (Qfloor q))
  | _ => a
  end.

(** [np.sum] and [np.nansum] of a one-dimensional array. *)
Definition sum (l : list fl) : fl := fold_left fadd l (Fin 0).

Definition nansum (l : list fl) : fl :=
  sum (filter (fun a => negb (isnan a)) l).

End NpFloat.

(* ===================================================================== *)
(** * Python values: exceptions, indexing and slicing *)
(* ===================================================================== *)

Module Py.

Inductive exn : Type :=
| IndexError
| ValueError
| OverflowError
| ZeroDivisionError
| UnboundLocalError.

(** Outcome of a call.  [Timeout] is not a Python outcome: it marks a run
    of the model that used up the iteration budget it was given. *)
Inductive result (A : Type) : Type :=
| Ok (a : A)
| Raise (e : exn)
| Timeout.

Arguments Ok {A} a.
Arguments Raise {A} e.
Arguments Timeout {A}.

Definition rbind {A B} (r : result A) (k : A -> result B) : result B :=
  match r with
  | Ok a => k a
  | Raise e => Raise e
  | Timeout => Timeout
  end.

(** [int(x)] of a float: truncation toward zero; an infinity or a NaN
    cannot be converted. *)
Definition Qtrunc (q : Q) : Z := Z.quot (Qnum q) (Zpos (Qden q)).

Definition int_of_float (a : NpFloat.fl) : result Z :=
  match a with
  | NpFloat.Fin q => Ok (Qtrunc q)
  | NpFloat.PInf | NpFloat.NInf => Raise OverflowError
  | NpFloat.NaN => Raise ValueError
  end.

(** [int(a / b)] on Python integers. *)
Definition int_div (a b : Z) : result Z :=
  if b =? 0 then Raise ZeroDivisionError else Ok (Z.quot a b).

(** [a // b] on Python integers. *)
Definition floor_div (a b : Z) : result Z :=
  if b =? 0 then Raise ZeroDivisionError else Ok (a / b).

(** A size argument of [np.full], [np.tile], [np.empty]. *)
Definition size_arg (n : Z) : result nat :=
  if n <? 0 then Raise ValueError else Ok (Z.to_nat n).

(** [n * [x]]: a non-positive count gives the empty list. *)
Definition list_repeat {A} (n : Z) (x : A) : list A := repeat x (Z.to_nat n).

(** The values of a list of outcomes, or the first failure. *)
Fixpoint all_ok {A} (l : list (result A)) : result (list A) :=
  match l with
  | [] => Ok []
  | r :: rest =>
      rbind r (fun a => rbind (all_ok rest) (fun more => Ok (a :: more)))
  end.

Section Sequences.
Context {A : Type}.

(** Position of index [i] in a sequence of length [n]: negative indices
    count from the end. *)
Definition norm_index (n : nat) (i : Z) : option nat :=
  if (0 <=? i) && (i <? Z.of_nat n) then Some (Z.to_nat i)
  else if (i <? 0) && (- Z.of_nat n <=? i) then Some (Z.to_nat (Z.of_nat n + i))
  else None.

(** [l[i]]. *)
Definition getitem (l : list A) (i : Z) : result A :=
  match norm_index (length l) i with
  | Some k =>
      match nth_error l k with
      | Some x => Ok x
      | None => Raise IndexError
      end
  | None => Raise IndexError
  end.

(** [l[i] = v]. *)
Fixpoint set_nth (k : nat) (v : A) (l : list A) {struct l} : list A :=
  match l, k with
  | [], _ => []
  | _ :: t, O => v :: t
  | x :: t, S k' => x :: set_nth k' v t
  end.

Definition setitem (l : list A) (i : Z) (v : A) : result (list A) :=
  match norm_index (length l) i with
  | Some k => Ok (set_nth k v l)
  | None => Raise IndexError
  end.

(** Bound of a slice of a sequence of length [n]. *)
Definition clamp (n : nat) (i : Z) : nat :=
  if i <? 0 then Z.to_nat (Z.max 0 (Z.of_nat n + i))
  else Nat.min (Z.to_nat i) n.

(** [l[start:stop]]. *)
Definition getslice (l : list A) (start stop : Z) : list A :=
  let s := clamp (length l) start in
  let e := clamp (length l) stop in
  firstn (e - s) (skipn s l).

(** [l[start:stop] = v] on an array, with a scalar [v]. *)
Definition setslice (l : list A) (start stop : Z) (v : A) : list A :=
  Np.fill (clamp (length l) start) (clamp (length l) stop) v l.

End Sequences.

End Py.

Declare Scope result_scope.
Delimit Scope result_scope with result.

Notation "x <- c ;; k" := (Py.rbind c (fun x => k))
  (at level 61, c at next level, right associativity) : result_scope.

(* ===================================================================== *)
(** * The global random generator

    The sources draw from NumPy's global generator.  Its algorithm is not
    part of the repository, so the generator is a parameter: a state, the
    state reached by [np.random.seed(k)], and the draws.  [np.random.seed()]
    without argument takes a fresh seed from the operating system; the
    values it would receive are the [entropy] of the world. *)
(* ===================================================================== *)

Module Rand.

Record RandomState : Type := {
  state : Type;
  seed : Z -> state;
  (** next double in [0, 1) *)
  random_sample : state -> Q * state;
  (** next integer in [low, high), for [low < high] *)
  randint : Z -> Z -> state -> Z * state
}.

Section World.
Variable RS : RandomState.

Record world : Type := {
  rng : state RS;
  entropy : nat -> Z;
  reads : nat
}.

(** Computations that draw random numbers and may raise. *)
Definition M (A : Type) : Type := world -> Py.result A * world.

Definition ret {A} (a : A) : M A := fun w => (Py.Ok a, w).

Definition bind {A B} (c : M A) (k : A -> M B) : M B :=
  fun w =>
    match c w with
    | (Py.Ok a, w') => k a w'
    | (Py.Raise e, w') => (Py.Raise e, w')
    | (Py.Timeout, w') => (Py.Timeout, w')
    end.

Definition lift {A} (r : Py.result A) : M A := fun w => (r, w).

Definition raise {A} (e : Py.exn) : M A := lift (Py.Raise e).

Definition timeout {A} : M A := lift Py.Timeout.

(** [np.random.seed(k)]. *)
Definition np_random_seed (k : Z) : M unit :=
  fun w => (Py.Ok tt,
            {| rng := seed RS k; entropy := entropy w; reads := reads w |}).

(** [np.random.seed()]. *)
Definition np_random_seed_fresh : M unit :=
  fun w => (Py.Ok tt,
            {| rng := seed RS (entropy w (reads w));
               entropy := entropy w;
               reads := S (reads w) |}).

(** [np.random.rand()]. *)
Definition np_random_rand : M NpFloat.fl :=
  fun w =>
    let (u, g) := random_sample RS (rng w) in
    (Py.Ok (NpFloat.Fin u),
     {| rng := g; entropy := entropy w; reads := reads w |}).

(** [np.random.randint(low, high)]. *)
Definition np_random_randint (low high : Z) : M Z :=
  fun w =>
    if high <=? low then (Py.Raise Py.ValueError, w)
    else
      let (z, g) := randint RS low high (rng w) in
      (Py.Ok z, {| rng := g; entropy := entropy w; reads := reads w |}).

(** [np.random.randint(low, high, size)] for [size >= 0]. *)
Fixpoint randint_many (low high : Z) (size : nat) : M (list Z) :=
  match size with
  | O => ret []
  | S k =>
      bind (np_random_randint low high) (fun z =>
      bind (randint_many low high k) (fun zs => ret (z :: zs)))
  end.

Definition np_random_randint_size (low high size : Z) : M (list Z) :=
  if high <=? low then raise Py.ValueError
  else bind (lift (Py.size_arg size)) (randint_many low high).

(** [np.random.choice(a, p=p)]: the probabilities are checked (finite,
    non-negative, summing to one up to [sqrt(eps)]), then one double is
    drawn and looked up in the normalised cumulative sums. *)
Definition choice_tolerance : Q := 1 # (2 ^ 26).

Fixpoint finite_values (p : list NpFloat.fl) : option (list Q) :=
  match p with
  | [] => Some []
  | NpFloat.Fin q :: t =>
      match finite_values t with
      | Some qs => Some (q :: qs)
      | None => None
      end
  | _ :: _ => None
  end.

Fixpoint cumsum (acc : Q) (l : list Q) : list Q :=
  match l with
  | [] => []
  | y :: t => (acc + y)%Q :: cumsum (acc + y)%Q t
  end.

Definition searchsorted_right (cdf : list Q) (u : Q) : nat :=
  length (filter (fun c => Qle_bool c u) cdf).

Definition np_random_choice (a : list Z) (p : list NpFloat.fl) : M Z :=
  match a with
  | [] => raise Py.ValueError
  | _ :: _ =>
      if negb (Nat.eqb (length p) (length a)) then raise Py.ValueError
      else
        match finite_values p with
        | None => raise Py.ValueError
        | Some qs =>
            let p_sum := fold_left Qplus qs 0%Q in
            if existsb (fun q => NpFloat.Qltb q 0) qs then raise Py.ValueError
            else if NpFloat.Qltb choice_tolerance (Qabs (p_sum - 1)) then
              raise Py.ValueError
            else
              bind np_random_rand (fun u =>
                match u with
                | NpFloat.Fin u =>
                    let cdf := cumsum 0 qs in
                    let total := last cdf 0%Q in
                    let cdf := map (fun c => (c / total)%Q) cdf in
                    lift (Py.getitem a (Z.of_nat (searchsorted_right cdf u)))
                | _ => raise Py.ValueError
                end)
        end
  end.

End World.

Arguments rng {RS} w.
Arguments entropy {RS} w.
Arguments reads {RS} w.
Arguments ret {RS A} a.
Arguments bind {RS A B} c k.
Arguments lift {RS A} r.
Arguments raise {RS A} e.
Arguments timeout {RS A}.

End Rand.

Declare Scope rand_scope.
Delimit Scope rand_scope with rand.

Notation "x <~ c ;; k" := (Rand.bind c (fun x => k))
  (at level 61, c at next level, right associativity) : rand_scope.
Notation "c ;;; k" := (Rand.bind c (fun _ => k))
  (at level 61, right associativity) : rand_scope.

(* ===================================================================== *)
(** * Landscape generator: minimum-run-length correction *)
(* ===================================================================== *)

Module Landscape.

Section BindingLength.
Context {A : Type}.
  (** [eqb x y] is the element comparison [x == y] of the array. *)
Variable eqb : A -> A -> bool.

  (** [binding_length(alpha_list, alphao, alphaf, bpmin)], the same text
    in [nucleo.py] and [marcand.py]. *)
Definition binding_length (alpha_list : list A) (alphao alphaf : A)
           (bpmin : Z) : list A :=
  let alpha_array := alpha_list in
  let mask := map (fun x => eqb x alphaf) alpha_array in
  let diffs := Np.diff (0 :: map Z.b2z mask ++ [0]) in
  let starts := Np.where_eq diffs 1 in
  let ends := Np.where_eq diffs (-1) in
  fold_left
    (fun arr (se : nat * nat) =>
       let length := Z.of_nat (snd se) - Z.of_nat (fst se) in
       if length <? bpmin then Np.fill (fst se) (snd se) alphao arr
       else arr)
    (combine starts ends) alpha_array.

  (** ** A run-by-run reading of the same pass

    [span l] is the length of the run of [alphaf] that starts [l];
    [fix_runs in_run kill l] walks the array once, deciding at the first
    site of each run whether the run is replaced. *)
Section Pass.
Variables (alphao alphaf : A) (bpmin : Z).

Definition is_f (x : A) : bool := eqb x alphaf.

Fixpoint span (l : list A) : nat :=
    match l with
    | x :: t => if is_f x then S (span t) else O
    | [] => O
    end.

Fixpoint fix_runs (in_run kill : bool) (l : list A) : list A :=
    match l with
    | [] => []
    | x :: t =>
        if is_f x then
          let kill' :=
            if in_run then kill else Z.of_nat (span (x :: t)) <? bpmin in
          (if kill' then alphao else x) :: fix_runs true kill' t
        else x :: fix_runs false false t
    end.

  (** The runs found by the sign-change scan, as a state machine over
      the mask: [cur] is the start of the run being read. *)
Fixpoint runs_aux (cur : option nat) (off : nat) (m : list bool)
    : list (nat * nat) :=
    match m with
    | [] => match cur with Some s => [(s, off)] | None => [] end
    | b :: t =>
        match cur, b with
        | None, true => runs_aux (Some off) (S off) t
        | None, false => runs_aux None (S off) t
        | Some s, true => runs_aux (Some s) (S off) t
        | Some s, false => (s, off) :: runs_aux None (S off) t
        end
    end.

  (** Lengths of the maximal runs of [alphaf], left to right; [c] is the
      length read so far of the current run. *)
Fixpoint run_lengths_aux (c : nat) (l : list A) : list nat :=
    match l with
    | [] => match c with O => [] | S _ => [c] end
    | x :: t =>
        if is_f x then run_lengths_aux (S c) t
        else match c with
             | O => run_lengths_aux O t
             | S _ => c :: run_lengths_aux O t
             end
    end.

Definition run_lengths (l : list A) : list nat := run_lengths_aux O l.

  (** [l = pre ++ run ++ post] where [run] is a maximal run of
      [alphaf]: not extendable to the left nor to the right. *)
Definition maximal_run (l pre run post : list A) : Prop :=
    l = pre ++ run ++ post /\
    run <> [] /\
    Forall (fun x => is_f x = true) run /\
    (forall pre' y, pre = pre' ++ [y] -> is_f y = false) /\
    (forall y post', post = y :: post' -> is_f y = false).

(** The difference array of the padded mask, [prev] standing for the entry
    to the left of [m]. *)
Definition diffs_of (prev : bool) (m : list bool) : list Z :=
  Np.diff (Z.b2z prev :: map Z.b2z m ++ [0]).

(** The replacement loop over the pairs [(start, end)]. *)
Definition apply_runs (rs : list (nat * nat)) (arr : list A) : list A :=
  fold_left
    (fun arr (se : nat * nat) =>
       let length := Z.of_nat (snd se) - Z.of_nat (fst se) in
       if length <? bpmin then Np.fill (fst se) (snd se) alphao arr
       else arr) rs arr.

End Pass.
End BindingLength.

(** ** The generators of [nucleo.py]

    The integers of the signatures are Python integers.  A landscape value
    ([alphao], [alphaf]) is a Python number, an int or a float: NumPy takes
    the dtype of an array from the numbers it is built from, and an array of
    integers truncates a float that is stored into it.  An array is written
    as the list of the values of its entries. *)

Inductive number : Type :=
| PyInt (z : Z)
| PyFloat (q : Q).

Definition value (x : number) : Q :=
  match x with
  | PyInt z => inject_Z z
  | PyFloat q => q
  end.

Inductive dtype : Type := Int64 | Float64.

(** The dtype of [np.full(n, x)]. *)
Definition dtype_of (x : number) : dtype :=
  match x with
  | PyInt _ => Int64
  | PyFloat _ => Float64
  end.

(** The dtype of [np.concatenate] of two arrays. *)
Definition promote (a b : dtype) : dtype :=
  match a, b with
  | Int64, Int64 => Int64
  | _, _ => Float64
  end.

(** The value that [array[a:b] = x] stores in an array of dtype [d]: a
    float stored into an array of integers is truncated toward zero. *)
Definition stored (d : dtype) (x : number) : Q :=
  match d, x with
  | Int64, PyFloat q => inject_Z (Py.Qtrunc q)
  | _, _ => value x
  end.

Local Open Scope result_scope.

(** [np.sort] of the drawn positions. *)
Fixpoint insert_sorted (z : Z) (l : list Z) : list Z :=
  match l with
  | [] => [z]
  | y :: t => if z <=? y then z :: y :: t else y :: insert_sorted z t
  end.

Definition np_sort (l : list Z) : list Z := fold_right insert_sorted [] l.

(** [sorted + np.arange(len(sorted)) * s]. *)
Fixpoint add_arange (i : Z) (s : Z) (l : list Z) : list Z :=
  match l with
  | [] => []
  | z :: t => (z + i * s) :: add_arange (i + 1) s t
  end.

Definition alpha_periodic (s l : Z) (alphao alphaf : Q) (Lmin Lmax bps : Z)
  : Py.result (list Q) :=
  q <- Py.int_div (Lmax - Lmin) bps ;;
  N <- Py.floor_div q (l + s) ;;
  let residue := Lmax - N * (l + s) in
  nl <- Py.size_arg l ;;
  ns <- Py.size_arg s ;;
  let pattern := repeat alphaf nl ++ repeat alphao ns in
  nN <- Py.size_arg N ;;
  nres <- Py.size_arg residue ;;
  Py.Ok (Np.tile pattern nN ++ repeat alphaf nres).

Definition alpha_constant (s l : Z) (alphao alphaf : Q) (Lmin Lmax bps : Z)
  : Py.result (list Q) :=
  if l + s =? 0 then Py.Raise Py.ZeroDivisionError
  else
    let value := ((alphao * inject_Z s + alphaf * inject_Z l) / inject_Z (l + s))%Q in
    q <- Py.int_div (Lmax - Lmin) bps ;;
    size <- Py.size_arg q ;;
    Py.Ok (repeat value size).

Section Generators.
Variable RS : Rand.RandomState.

Local Open Scope rand_scope.

(** [alpha_random]: the array is [np.full(size, alphaf)], of the dtype of
    [alphaf], and the obstacles are stored into it. *)
Definition alpha_random (s l : Z) (alphao alphaf : number) (L_min Lmax bps : Z)
  : Rand.M RS (list Q) :=
  Rand.np_random_seed_fresh RS ;;;
  size <~ Rand.lift (Py.rbind (Py.int_div (Lmax - L_min) bps) Py.size_arg) ;;
  let alpha_array := repeat (value alphaf) size in
  let alphao := stored (dtype_of alphaf) alphao in
  T <~ Rand.lift (Py.int_div Lmax (l + s)) ;;
  let max_pos := Lmax - T * s in
  alpha_random <~ Rand.np_random_randint_size RS 0 (max_pos + 1) T ;;
  let alpha_random_sorted := np_sort alpha_random in
  let alpha_random_modified := add_arange 0 s alpha_random_sorted in
  Rand.ret
    (fold_left (fun arr pos => Py.setslice arr pos (pos + s) alphao)
               alpha_random_modified alpha_array).

(** The rows of the ['ntrandom'] mode: one draw of [alpha_random] each. *)
Fixpoint random_rows (nt : nat) (s l : Z) (alphao alphaf : number)
         (Lmin Lmax bps : Z) : Rand.M RS (list (list Q)) :=
  match nt with
  | O => Rand.ret []
  | S k =>
      row <~ alpha_random s l alphao alphaf Lmin Lmax bps ;;
      rows <~ random_rows k s l alphao alphaf Lmin Lmax bps ;;
      Rand.ret (row :: rows)
  end.

(** [np.mean(alpha_matrix, axis=0)].  On a matrix without rows NumPy
    returns the scalar NaN, written [[NaN]] here. *)
Definition add_rows (a b : list Q) : list Q :=
  map (fun xy => (fst xy + snd xy)%Q) (combine a b).

Definition column_means (m : list (list Q)) : list NpFloat.fl :=
  match m with
  | [] => [NpFloat.NaN]
  | row :: rest =>
      map (fun x => NpFloat.Fin (x / inject_Z (Z.of_nat (length m)))%Q)
          (fold_left add_rows rest row)
  end.

(** [alpha_matrix_calculation]; beside the rows, the dtype of the matrix
    that the rows are taken from: that of the pattern in the mode
    ['periodic'], that of the array of [alpha_random] in the mode
    ['one_random'], float in the mode ['constantmean'] (a quotient) and in
    the mode ['ntrandom'] ([np.empty]).  [binding_length] stores [alphao]
    into a copy of a row. *)
Definition alpha_matrix_calculation (alpha_choice : string) (s l bpmin : Z)
           (alphao alphaf : number) (Lmin Lmax bps nt : Z)
  : Rand.M RS (list (list Q) * list NpFloat.fl) :=
  alpha_matrix <~
    (if String.eqb alpha_choice "periodic" then
       alpha_array <~ Rand.lift (alpha_periodic s l (value alphao)
                                                (value alphaf) Lmin Lmax bps) ;;
       n <~ Rand.lift (Py.size_arg nt) ;;
       Rand.ret (Np.tile_rows alpha_array n,
                 promote (dtype_of alphaf) (dtype_of alphao))
     else if String.eqb alpha_choice "one_random" then
       alpha_array <~ alpha_random s l alphao alphaf Lmin Lmax bps ;;
       n <~ Rand.lift (Py.size_arg nt) ;;
       Rand.ret (Np.tile_rows alpha_array n, dtype_of alphaf)
     else if String.eqb alpha_choice "constantmean" then
       alpha_array <~ Rand.lift (alpha_constant s l (value alphao)
                                                (value alphaf) Lmin Lmax bps) ;;
       n <~ Rand.lift (Py.size_arg nt) ;;
       Rand.ret (Np.tile_rows alpha_array n, Float64)
     else if String.eqb alpha_choice "ntrandom" then
       q <~ Rand.lift (Py.int_div (Lmax - Lmin) bps) ;;
       n <~ Rand.lift (Py.size_arg nt) ;;
       _ <~ Rand.lift (Py.size_arg q) ;;
       rows <~ random_rows n s l alphao alphaf Lmin Lmax bps ;;
       Rand.ret (rows, Float64)
     else Rand.raise Py.ValueError) ;;
  let alpha_matrix :=
    map (fun alpha =>
           binding_length Qeq_bool alpha (stored (snd alpha_matrix) alphao)
                          (value alphaf) bpmin)
        (fst alpha_matrix) in
  let mean_alpha := column_means alpha_matrix in
  Rand.ret (alpha_matrix, mean_alpha).

End Generators.

(** ** The generator of [marcand.py] *)

(** [l * n] on a Python list. *)
Definition list_times {A} (l : list A) (n : Z) : list A :=
  concat (repeat l (Z.to_nat n)).

Definition np_mean (l : list Q) : Q :=
  (fold_left Qplus l 0 / inject_Z (Z.of_nat (length l)))%Q.

Definition calculate_landscape (alpha_choice : string) (alphaf : Q) (d D : Z)
           (alphao : Q) (gap rap1_l lacO_l N bpmin nt : Z)
  : Py.result (list (list Q)) :=
  let unit :=
    Py.list_repeat d alphaf
    ++ list_times (Py.list_repeat rap1_l alphao ++ [alphaf]
                   ++ Py.list_repeat rap1_l alphao ++ Py.list_repeat gap alphaf)
                  (N - 1)
    ++ (Py.list_repeat rap1_l alphao ++ [alphaf] ++ Py.list_repeat rap1_l alphao)
    ++ Py.list_repeat D alphaf in
  let unit_mean := np_mean unit in
  landscape <-
    (if String.eqb alpha_choice "array" then
       n <- Py.size_arg nt ;; Py.Ok (Np.tile_rows unit n)
     else if String.eqb alpha_choice "LacI" then
       let base_pattern :=
         Py.list_repeat d alphaf
         ++ list_times (Py.list_repeat rap1_l alphao ++ [alphaf]
                        ++ Py.list_repeat rap1_l alphao
                        ++ Py.list_repeat 3 alphaf
                        ++ Py.list_repeat lacO_l alphao
                        ++ Py.list_repeat 8 alphaf)
                       (N - 1)
         ++ (Py.list_repeat rap1_l alphao ++ [alphaf]
             ++ Py.list_repeat rap1_l alphao)
         ++ Py.list_repeat D alphaf in
       n <- Py.size_arg nt ;; Py.Ok (Np.tile_rows base_pattern n)
     else if String.eqb alpha_choice "constant" then
       n <- Py.size_arg nt ;; Py.Ok (Np.tile_rows (repeat unit_mean (length unit)) n)
     else if String.eqb alpha_choice "constant_max" then
       n <- Py.size_arg nt ;; Py.Ok (Np.tile_rows (repeat alphaf (length unit)) n)
     else Py.Raise Py.ValueError) ;;
  if String.eqb alpha_choice "array" || String.eqb alpha_choice "LacI" then
    row0 <- Py.getitem landscape 0 ;;
    (* the call of the source: binding_length(landscape[0], alphaf, alphao, bpmin) *)
    let corrected_line := binding_length Qeq_bool row0 alphaf alphao bpmin in
    n <- Py.size_arg nt ;;
    Py.Ok (Np.tile_rows corrected_line n)
  else Py.Ok landscape.

End Landscape.


(* ===================================================================== *)
(** * Kinetic engine: initial placement *)
(* ===================================================================== *)

Module Folding.
Import NpFloat.

Section Folding.
Variable RS : Rand.RandomState.

Local Open Scope rand_scope.

(** [while landscape[base - k] != target: k += 1], started at [k]; the
    result is the final [k].  The index walks to the left, wraps to the end
    of the array when it becomes negative, and leaves the array after at
    most [base + len(landscape) + 1] steps, where the read raises. *)
Fixpoint scan_back (fuel : nat) (landscape : list fl) (base k : Z)
         (target : fl) : Rand.M RS Z :=
  match fuel with
  | O => Rand.timeout
  | S fuel' =>
      v <~ Rand.lift (Py.getitem landscape (base - k)) ;;
      if fne v target then scan_back fuel' landscape base (k + 1) target
      else Rand.ret k
  end.

(** Iterations that the two loops of [folding] can need. *)
Definition scan_budget (landscape : list fl) : nat :=
  S (2 * length landscape).

(** [folding(landscape, first_origin)], the same text in both sources. *)
Definition folding (landscape : list fl) (first_origin : Z) : Rand.M RS Z :=
  if first_origin =? 0 then Rand.ret 0
  else
    v1 <~ Rand.lift (Py.getitem landscape first_origin) ;;
    let true_origin :=
      if fne v1 (of_Z 1) && fne v1 (of_Z 0) then Some first_origin else None in
    let true_origin :=
      if feq v1 (of_Z 1) then Some first_origin else true_origin in
    true_origin <~
      (if feq v1 (of_Z 0) then
         back_on_obstacle <~
           scan_back (scan_budget landscape) landscape first_origin 1 (of_Z 1) ;;
         let pos := first_origin - back_on_obstacle in
         back_on_linker <~
           scan_back (scan_budget landscape) landscape pos 1 (of_Z 0) ;;
         r <~ Rand.np_random_randint RS
                (first_origin - (back_on_obstacle + back_on_linker))
                (first_origin - back_on_obstacle) ;;
         Rand.ret (Some (r + 1))
       else Rand.ret true_origin) ;;
    match true_origin with
    | Some x => Rand.ret x
    | None => Rand.raise Py.UnboundLocalError
    end.

End Folding.
End Folding.

(* ===================================================================== *)
(** * Kinetic engine: the single-step variant of [nucleo.py] *)
(* ===================================================================== *)

Module Engine.
Import NpFloat.

(** [a * b] on one-dimensional arrays: equal lengths, or one operand of
    length one that is broadcast. *)
Definition np_mul (a b : list fl) : Py.result (list fl) :=
  if Nat.eqb (length a) (length b) then
    Py.Ok (map (fun xy => fmul (fst xy) (snd xy)) (combine a b))
  else
    match a, b with
    | [s], _ => Py.Ok (map (fmul s) b)
    | _, [s] => Py.Ok (map (fun y => fmul y s) a)
    | _, _ => Py.Raise Py.ValueError
    end.

(** The reaction selected in a step. *)
Inductive reaction : Type :=
| Unhook
| EndOfChain
| Jump (di : Z).

(** The variables of the loop over the times of one trajectory. *)
Record traj : Type := {
  t : fl;
  x : Z;
  prev_x : Z;
  i0 : Z;
  row : list fl;
  t_list : list fl;
  x_list : list Z
}.

Section Engine.
Variable RS : Rand.RandomState.
(** Natural logarithm of a positive double ([np.log]). *)
Variable ln : Q -> Q.

Local Open Scope rand_scope.

Definition np_log (a : fl) : fl :=
  match a with
  | Fin q =>
      if Qeq_bool q 0 then NInf
      else if Qltb q 0 then NaN
      else Fin (ln q)
  | PInf => PInf
  | NInf => NaN
  | NaN => NaN
  end.

(** [beta_matrix[_][x] + np.nansum(p[1:(Lmax-x)] * alpha[(x+1):Lmax])]. *)
Definition total_rate (beta_row alpha_row p : list fl) (Lmax x : Z)
  : Py.result fl :=
  (b <- Py.getitem beta_row x ;;
   prod <- np_mul (Py.getslice p 1 (Lmax - x))
                  (Py.getslice alpha_row (x + 1) Lmax) ;;
   Py.Ok (fadd b (nansum prod)))%result.

(** [t = t - np.log(u)/r_tot] followed by
    [if np.isinf(t) == True: t = 1e308].  The quotient and the difference
    are doubles: each may overflow to an infinity. *)
Definition clamp_time (t : fl) : fl := if isinf t then sentinel else t.

Definition next_time (t u r_tot : fl) : fl :=
  clamp_time (overflow (fsub t (overflow (fdiv (np_log u) r_tot)))).

(** The walk over the cumulative propensities:
    [while ((rp/r_tot)<r0) and (di<Lmax-1-x): di += 1; rp += p[di]*alpha[x+di]].
    Each turn increases [di], so [Lmax - 1 - x - di] turns are enough. *)
Fixpoint jump_walk (fuel : nat) (alpha_row p : list fl) (r_tot r0 : fl)
         (Lmax x di : Z) (rp : fl) : Py.result (Z * fl) :=
  if flt (fdiv rp r_tot) r0 && (di <? Lmax - 1 - x) then
    match fuel with
    | O => Py.Timeout
    | S fuel' =>
        let di' := di + 1 in
        (pd <- Py.getitem p di' ;;
         ad <- Py.getitem alpha_row (x + di') ;;
         jump_walk fuel' alpha_row p r_tot r0 Lmax x di'
                   (fadd rp (fmul pd ad)))%result
    end
  else Py.Ok (di, rp).

Definition choose_jump (beta_x : fl) (alpha_row p : list fl) (r_tot r0 : fl)
           (Lmax x : Z) : Py.result (Z * fl) :=
  (let di := 1 in
   pd <- Py.getitem p di ;;
   ad <- Py.getitem alpha_row (x + di) ;;
   let rp := fadd beta_x (fmul pd ad) in
   jump_walk (Z.to_nat (Lmax - 1 - x - di)) alpha_row p r_tot r0 Lmax x di rp)%result.

(** The running cumulative propensity after [d] candidate jumps:
    [beta + p[1]*alpha[x+1] + ... + p[d]*alpha[x+d]], summed in the order
    of the walk. *)
Fixpoint cumulative (beta_x : fl) (alpha_row p : list fl) (x : Z) (d : nat)
  : Py.result fl :=
  match d with
  | O => Py.Ok beta_x
  | S k =>
      (c <- cumulative beta_x alpha_row p x k ;;
       pd <- Py.getitem p (Z.of_nat (S k)) ;;
       ad <- Py.getitem alpha_row (x + Z.of_nat (S k)) ;;
       Py.Ok (fadd c (fmul pd ad)))%result
  end.

(** The three tests of a step, in the order of the source: unhooking,
    end of the chain, choice of the jump. *)
Definition choose_reaction (beta_x : fl) (alpha_row p : list fl)
           (r_tot r0 : fl) (Lmax origin x : Z) : Py.result reaction :=
  if flt r0 (fdiv beta_x r_tot) then Py.Ok Unhook
  else if Lmax - origin <=? x then Py.Ok EndOfChain
  else (dr <- choose_jump beta_x alpha_row p r_tot r0 Lmax x ;;
        Py.Ok (Jump (fst dr)))%result.

(** [i = int(np.floor(t/dt))] and
    [results[_][i0:int(min(np.floor(tmax/dt),i)+1)] = value]. *)
Definition fill_row (row : list fl) (i0 : Z) (t : fl) (tmax dt : Q)
           (value : fl) : Py.result (list fl * Z) :=
  (i <- Py.int_of_float (floor (fdiv t (Fin dt))) ;;
   let stop := Z.min (Qfloor (tmax / dt)) i + 1 in
   Py.Ok (Py.setslice row i0 stop value, i))%result.

(** One turn of [while (t<tmax)]; the boolean tells whether the loop goes
    on ([false] after a [break]). *)
Definition one_step_iteration (tmax dt : Q) (alpha_row beta_row p : list fl)
           (Lmax origin ox : Z) (st : traj) : Rand.M RS (traj * bool) :=
  r_tot <~ Rand.lift (total_rate beta_row alpha_row p Lmax (x st)) ;;
  u <~ Rand.np_random_rand RS ;;
  let t' := next_time (t st) u r_tot in
  r0 <~ Rand.np_random_rand RS ;;
  beta_x <~ Rand.lift (Py.getitem beta_row (x st)) ;;
  r <~ Rand.lift (choose_reaction beta_x alpha_row p r_tot r0 Lmax origin (x st)) ;;
  match r with
  | Unhook =>
      ri <~ Rand.lift (fill_row (row st) (i0 st) t' tmax dt (of_Z (prev_x st))) ;;
      Rand.ret ({| t := t'; x := x st; prev_x := prev_x st; i0 := i0 st;
                   row := fst ri; t_list := t_list st; x_list := x_list st |},
                false)
  | EndOfChain =>
      ri <~ Rand.lift (fill_row (row st) (i0 st) t' tmax dt NaN) ;;
      Rand.ret ({| t := t'; x := x st; prev_x := prev_x st; i0 := i0 st;
                   row := fst ri; t_list := t_list st; x_list := x_list st |},
                false)
  | Jump di =>
      let x' := x st + di in
      ri <~ Rand.lift (fill_row (row st) (i0 st) t' tmax dt
                                (of_Z (prev_x st - ox))) ;;
      Rand.ret ({| t := t'; x := x'; prev_x := x'; i0 := snd ri + 1;
                   row := fst ri;
                   t_list := t_list st ++ [t'];
                   x_list := x_list st ++ [x' - ox] |},
                true)
  end.

(** [while (t<tmax)], with a budget of turns. *)
Fixpoint one_step_loop (fuel : nat) (tmax dt : Q)
         (alpha_row beta_row p : list fl) (Lmax origin ox : Z) (st : traj)
  : Rand.M RS traj :=
  if flt (t st) (Fin tmax) then
    match fuel with
    | O => Rand.timeout
    | S fuel' =>
        sb <~ one_step_iteration tmax dt alpha_row beta_row p Lmax origin ox st ;;
        if snd sb then
          one_step_loop fuel' tmax dt alpha_row beta_row p Lmax origin ox (fst sb)
        else Rand.ret (fst sb)
    end
  else Rand.ret st.

(** The body of [for _ in range(0,nt)]: the row of [results] and the two
    lists of one trajectory. *)
Definition one_step_trajectory (fuel : nat) (tmax dt : Q)
           (alpha_matrix : list (list fl)) (beta_row p : list fl)
           (Lmax origin : Z) (width : nat) (idx : nat)
  : Rand.M RS (list fl * list fl * list Z) :=
  alpha_row <~ Rand.lift (Py.getitem alpha_matrix (Z.of_nat idx)) ;;
  x0 <~ Folding.folding RS alpha_row origin ;;
  let ox := x0 in
  row0 <~ Rand.lift (Py.setitem (repeat NaN width) 0 (of_Z 0)) ;;
  let st0 := {| t := of_Z 0; x := x0; prev_x := x0; i0 := 0; row := row0;
                t_list := [of_Z 0]; x_list := [x0 - ox] |} in
  st <~ one_step_loop fuel tmax dt alpha_row beta_row p Lmax origin ox st0 ;;
  Rand.ret (row st, t_list st, x_list st).

(** The loop over the trajectories, in order. *)
Fixpoint for_each {A} (body : nat -> Rand.M RS A) (idxs : list nat)
  : Rand.M RS (list A) :=
  match idxs with
  | [] => Rand.ret []
  | i :: rest =>
      a <~ body i ;;
      more <~ for_each body rest ;;
      Rand.ret (a :: more)
  end.

(** [gillespie_algorithm_one_step(nt, tmax, dt, alpha_matrix, beta, Lmax,
    lenght, origin, p)]: [(results, t_matrix, x_matrix)].  [fuel] bounds
    the turns of the loop over the times of each trajectory. *)
Definition gillespie_algorithm_one_step (fuel : nat) (nt : Z) (tmax dt : Q)
           (alpha_matrix : list (list fl)) (beta : fl) (Lmax lenght origin : Z)
           (p : list fl)
  : Rand.M RS (list (list fl) * list (list fl) * list (list Z)) :=
  n_lenght <~ Rand.lift (Py.size_arg lenght) ;;
  n <~ Rand.lift (Py.size_arg nt) ;;
  let beta_row := repeat beta n_lenght in
  width <~ Rand.lift
    (if Qeq_bool dt 0 then Py.Raise Py.ZeroDivisionError
     else Py.size_arg (Py.Qtrunc (tmax / dt))) ;;
  trajs <~ for_each
    (one_step_trajectory fuel tmax dt alpha_matrix beta_row p Lmax origin width)
    (seq 0 n) ;;
  Rand.ret (map (fun r => fst (fst r)) trajs,
            map (fun r => snd (fst r)) trajs,
            map snd trajs).

(** ** The two-step variant of [nucleo.py] *)

(** The binding attempt:
    [t_bind = - np.log(u)/rtot_bind],
    [if np.isinf(t_bind) == True: t = 1e308], [t += t_bind].
    The quotient and the sum are doubles: each may overflow. *)
Definition bind_time (t u : fl) (rtot_bind : Q) : fl :=
  let t_bind := overflow (fdiv (fneg (np_log u)) (Fin rtot_bind)) in
  let t := if isinf t_bind then sentinel else t in
  overflow (fadd t t_bind).

(** The rest:
    [t_rest = - np.log(u)/rtot_rest],
    [if np.isinf(t_rest) == True: t_rest = 1e308], [t += t_rest].
    The quotient and the sum are doubles: each may overflow, and the sum
    is not tested. *)
Definition rest_time (t u : fl) (rtot_rest : Q) : fl :=
  let t_rest := overflow (fdiv (fneg (np_log u)) (Fin rtot_rest)) in
  let t_rest := if isinf t_rest then sentinel else t_rest in
  overflow (fadd t t_rest).

(** [np.max(L)]. *)
Definition np_max (L : list Z) : Py.result Z :=
  match L with
  | [] => Py.Raise Py.ValueError
  | z :: rest => Py.Ok (fold_left Z.max rest z)
  end.

(** From the jump to "Acquisition 1".  [None] stands for the [break] of
    the edge condition; otherwise the state after the binding attempt is
    returned with [r_bind] and [r0_bind]. *)
Definition two_steps_bind (tmax dt : Q) (alpha_row p : list fl)
           (rtot_bind : Q) (L : list Z) (origin ox : Z) (st : traj)
  : Rand.M RS (traj * option (fl * fl)) :=
  x_jump <~ Rand.np_random_choice RS L p ;;
  let x1 := x st + x_jump in
  max_L <~ Rand.lift (np_max L) ;;
  if max_L - origin <=? x1 then
    ri <~ Rand.lift (fill_row (row st) (i0 st) (t st) tmax dt NaN) ;;
    Rand.ret ({| t := t st; x := x1; prev_x := prev_x st; i0 := i0 st;
                 row := fst ri; t_list := t_list st; x_list := x_list st |},
              None)
  else
    r_bind <~ Rand.lift (Py.getitem alpha_row x1) ;;
    u <~ Rand.np_random_rand RS ;;
    r0_bind <~ Rand.np_random_rand RS ;;
    let t1 := bind_time (t st) u rtot_bind in
    Rand.ret ({| t := t1; x := x1; prev_x := prev_x st; i0 := i0 st;
                 row := row st;
                 t_list := t_list st ++ [t1];
                 x_list := x_list st ++ [x1 - ox] |},
              Some (r_bind, r0_bind)).

(** From the binding test to the end of the turn. *)
Definition two_steps_rest (tmax dt : Q) (lmbda rtot_rest : Q) (ox : Z)
           (st : traj) (r_bind r0_bind : fl) : Rand.M RS traj :=
  tx <~
    (if flt r0_bind (fmul r_bind (Fin (1 - lmbda))) then
       u <~ Rand.np_random_rand RS ;;
       Rand.ret (rest_time (t st) u rtot_rest, x st)
     else Rand.ret (t st, prev_x st)) ;;
  let t2 := fst tx in
  let x2 := snd tx in
  let t_list2 := t_list st ++ [t2] in
  let x_list2 := x_list st ++ [x2 - ox] in
  ri <~ Rand.lift (fill_row (row st) (i0 st) t2 tmax dt
                            (of_Z (prev_x st - ox))) ;;
  Rand.ret {| t := t2; x := x2; prev_x := x2; i0 := snd ri + 1;
              row := fst ri; t_list := t_list2; x_list := x_list2 |}.

Definition two_steps_iteration (tmax dt : Q) (alpha_row p : list fl)
           (lmbda rtot_bind rtot_rest : Q) (L : list Z) (origin ox : Z)
           (st : traj) : Rand.M RS (traj * bool) :=
  sb <~ two_steps_bind tmax dt alpha_row p rtot_bind L origin ox st ;;
  match snd sb with
  | None => Rand.ret (fst sb, false)
  | Some rr =>
      st' <~ two_steps_rest tmax dt lmbda rtot_rest ox (fst sb) (fst rr) (snd rr) ;;
      Rand.ret (st', true)
  end.

Fixpoint two_steps_loop (fuel : nat) (tmax dt : Q) (alpha_row p : list fl)
         (lmbda rtot_bind rtot_rest : Q) (L : list Z) (origin ox : Z)
         (st : traj) : Rand.M RS traj :=
  if flt (t st) (Fin tmax) then
    match fuel with
    | O => Rand.timeout
    | S fuel' =>
        sb <~ two_steps_iteration tmax dt alpha_row p lmbda rtot_bind
                                  rtot_rest L origin ox st ;;
        if snd sb then
          two_steps_loop fuel' tmax dt alpha_row p lmbda rtot_bind rtot_rest
                         L origin ox (fst sb)
        else Rand.ret (fst sb)
    end
  else Rand.ret st.

Definition two_steps_trajectory (fuel : nat) (tmax dt : Q)
           (alpha_matrix : list (list fl)) (p : list fl)
           (lmbda rtot_bind rtot_rest : Q) (L : list Z) (origin : Z)
           (width : nat) (idx : nat)
  : Rand.M RS (list fl * list fl * list Z) :=
  alpha_row <~ Rand.lift (Py.getitem alpha_matrix (Z.of_nat idx)) ;;
  x0 <~ Folding.folding RS alpha_row origin ;;
  let ox := x0 in
  row0 <~ Rand.lift (Py.setitem (repeat NaN width) 0 (of_Z 0)) ;;
  let st0 := {| t := of_Z 0; x := x0; prev_x := x0; i0 := 0; row := row0;
                t_list := [of_Z 0]; x_list := [x0 - ox] |} in
  st <~ two_steps_loop fuel tmax dt alpha_row p lmbda rtot_bind rtot_rest
                       L origin ox st0 ;;
  Rand.ret (row st, t_list st, x_list st).

(** [gillespie_algorithm_two_steps(alpha_matrix, p, beta, lmbda, rtot_bind,
    rtot_rest, nt, tmax, dt, L, origin)]; [beta] is not used by the
    source. *)
Definition gillespie_algorithm_two_steps (fuel : nat)
           (alpha_matrix : list (list fl)) (p : list fl) (beta : fl)
           (lmbda rtot_bind rtot_rest : Q) (nt : Z) (tmax dt : Q)
           (L : list Z) (origin : Z)
  : Rand.M RS (list (list fl) * list (list fl) * list (list Z)) :=
  width <~ Rand.lift
    (if Qeq_bool dt 0 then Py.Raise Py.ZeroDivisionError
     else Py.size_arg (Py.Qtrunc (tmax / dt))) ;;
  n <~ Rand.lift (Py.size_arg nt) ;;
  trajs <~ for_each
    (two_steps_trajectory fuel tmax dt alpha_matrix p lmbda rtot_bind
                          rtot_rest L origin width)
    (seq 0 n) ;;
  Rand.ret (map (fun r => fst (fst r)) trajs,
            map (fun r => snd (fst r)) trajs,
            map snd trajs).

(** ** The engine of [marcand.py]: times indexed by position *)

(** The two tests of a step of [gillespie_algorithm_in_position]. *)
Definition choose_reaction_in_position (beta_x : fl) (alpha_row p : list fl)
           (r_tot r0 : fl) (l_max x : Z) : Py.result reaction :=
  if flt r0 (fdiv beta_x r_tot) then Py.Ok Unhook
  else (dr <- choose_jump beta_x alpha_row p r_tot r0 l_max x ;;
        Py.Ok (Jump (fst dr)))%result.

(** [t += -np.log(u) / r_tot] followed by the clamp; the quotient and the
    sum may overflow. *)
Definition next_time_in_position (t u r_tot : fl) : fl :=
  clamp_time (overflow (fadd t (overflow (fdiv (fneg (np_log u)) r_tot)))).

(** [results[n_idx][i0:int(min(np.floor(x_max), i) + 1)] = t] with
    [i = int(np.floor(x))]. *)
Definition fill_positions (row : list fl) (i0 x x_max : Z) (t : fl)
  : list fl * Z :=
  (Py.setslice row i0 (Z.min x_max x + 1) t, x).

Definition in_position_iteration (alpha_row beta_row p : list fl)
           (l_max x_max origin : Z) (st : traj) : Rand.M RS (traj * bool) :=
  r_tot <~ Rand.lift (total_rate beta_row alpha_row p l_max (x st)) ;;
  u <~ Rand.np_random_rand RS ;;
  let t' := next_time_in_position (t st) u r_tot in
  r0 <~ Rand.np_random_rand RS ;;
  beta_x <~ Rand.lift (Py.getitem beta_row (x st)) ;;
  r <~ Rand.lift (choose_reaction_in_position beta_x alpha_row p r_tot r0
                                              l_max (x st)) ;;
  match r with
  | Jump di =>
      let x' := x st + di in
      let ri := fill_positions (row st) (i0 st) x' x_max t' in
      Rand.ret ({| t := t'; x := x'; prev_x := prev_x st; i0 := snd ri + 1;
                   row := fst ri;
                   t_list := t_list st ++ [t'];
                   x_list := x_list st ++ [x' - origin] |},
                true)
  | _ =>
      let ri := fill_positions (row st) (i0 st) (x st) x_max t' in
      Rand.ret ({| t := t'; x := x st; prev_x := prev_x st; i0 := i0 st;
                   row := fst ri; t_list := t_list st; x_list := x_list st |},
                false)
  end.

(** [while x < x_max], with a budget of turns. *)
Fixpoint in_position_loop (fuel : nat) (alpha_row beta_row p : list fl)
         (l_max x_max origin : Z) (st : traj) : Rand.M RS traj :=
  if x st <? x_max then
    match fuel with
    | O => Rand.timeout
    | S fuel' =>
        sb <~ in_position_iteration alpha_row beta_row p l_max x_max origin st ;;
        if snd sb then
          in_position_loop fuel' alpha_row beta_row p l_max x_max origin (fst sb)
        else Rand.ret (fst sb)
    end
  else Rand.ret st.

Definition in_position_trajectory (fuel : nat)
           (alpha_matrix : list (list fl)) (beta_row p : list fl)
           (l_max x_max origin : Z) (width : nat) (idx : nat)
  : Rand.M RS (list fl * list fl * list Z) :=
  row0 <~ Rand.lift (Py.setitem (repeat NaN width) 0 (of_Z 0)) ;;
  alpha_row <~ Rand.lift (Py.getitem alpha_matrix (Z.of_nat idx)) ;;
  x0 <~ Folding.folding RS alpha_row origin ;;
  let st0 := {| t := of_Z 0; x := x0; prev_x := x0; i0 := 0; row := row0;
                t_list := [of_Z 0]; x_list := [x0 - origin] |} in
  st <~ in_position_loop fuel alpha_row beta_row p l_max x_max origin st0 ;;
  Rand.ret (row st, t_list st, x_list st).

(** Python's [max] of a non-empty sequence of floats. *)
Definition py_max (l : list fl) : Py.result fl :=
  match l with
  | [] => Py.Raise Py.ValueError
  | a :: rest => Py.Ok (fold_left (fun m b => if flt m b then b else m) rest a)
  end.

(** [gillespie_algorithm_in_position(lenght, l_max, x_max, origin,
    alpha_matrix, p, beta, nt)]: [(results, t_matrix, x_matrix, t_max)]. *)
Definition gillespie_algorithm_in_position (fuel : nat)
           (lenght l_max x_max origin : Z) (alpha_matrix : list (list fl))
           (p : list fl) (beta : fl) (nt : Z)
  : Rand.M RS (list (list fl) * list (list fl) * list (list Z) * fl) :=
  n_lenght <~ Rand.lift (Py.size_arg lenght) ;;
  n <~ Rand.lift (Py.size_arg nt) ;;
  let beta_row := repeat beta n_lenght in
  width <~ Rand.lift (Py.size_arg (x_max + 1)) ;;
  trajs <~ for_each
    (in_position_trajectory fuel alpha_matrix beta_row p l_max x_max origin width)
    (seq 0 n) ;;
  let t_matrix := map (fun r => snd (fst r)) trajs in
  maxima <~ Rand.lift (Py.all_ok (map py_max t_matrix)) ;;
  t_max <~ Rand.lift (py_max maxima) ;;
  Rand.ret (map (fun r => fst (fst r)) trajs, t_matrix, map snd trajs,
            floor t_max).

End Engine.
End Engine.

(* ===================================================================== *)
(** * Jump kernel *)
(* ===================================================================== *)

Module Kernel.
Import NpFloat.

Section Gamma.
(** Density of the Gamma distribution at a point [x > 0], for a positive
    shape and scale.  It is computed by [scipy.stats.gamma.pdf], outside the
    repository. *)
Variable gamma_density : Q -> Q -> Q -> Q.
(** What [scipy.stats.gamma.pdf] returns at a point when the shape or the
    scale is an infinity (a quotient that overflowed). *)
Variable gamma_at_infinite : Q -> fl -> fl -> fl.

(** [gamma.pdf(x, a=shape, scale=scale)] for a finite shape and scale.  At
    [x = 0] the density is 0 for a shape above one, [1/scale] for the shape
    one (the exponential law) and infinite for a shape below one; it is 0
    left of the support and NaN for parameters that are not positive. *)
Definition gamma_pdf (x shape scale : Q) : fl :=
  if Qle_bool shape 0 || Qle_bool scale 0 then NaN
  else if Qltb x 0 then Fin 0
  else if Qeq_bool x 0 then
    if Qltb 1 shape then Fin 0
    else if Qeq_bool shape 1 then Fin (1 / scale)
    else PInf
  else Fin (gamma_density x shape scale).

(** [gamma.pdf(x, a=a, scale=scale)] for the floats [a] and [scale] that
    [proba_gamma] computes. *)
Definition scipy_gamma_pdf (x : Q) (a scale : fl) : fl :=
  match a, scale with
  | Fin shape, Fin sc => gamma_pdf x shape sc
  | _, _ => gamma_at_infinite x a scale
  end.

(** [x ** 2] on a Python float: OverflowError when the square is beyond
    the largest double, zero when it underflows. *)
Definition float_pow2 (x : Q) : Py.result Q :=
  if Qltb max_double (x ^ 2) then Py.Raise Py.OverflowError
  else Py.Ok (underflow (x ^ 2)).

(** [a / b] on Python floats: ZeroDivisionError when [b] is zero; the
    quotient may overflow to an infinity or underflow to zero. *)
Definition float_div (a b : Q) : Py.result fl :=
  if Qeq_bool b 0 then Py.Raise Py.ZeroDivisionError
  else Py.Ok (overflow (Fin (underflow (a / b)))).

(** [proba_gamma(mu, theta, L)], the same text in both sources; [mu] and
    [theta] are Python floats (finite ones). *)
Definition proba_gamma (mu theta : Q) (L : list Q) : Py.result (list fl) :=
  (mu2 <- float_pow2 mu ;;
   theta2 <- float_pow2 theta ;;
   alpha_gamma <- float_div mu2 theta2 ;;
   theta2 <- float_pow2 theta ;;
   beta_gamma <- float_div theta2 mu ;;
   let p_gamma := map (fun x => scipy_gamma_pdf x alpha_gamma beta_gamma) L in
   let p_gamma := map (fun v => fdiv v (sum p_gamma)) p_gamma in
   Py.Ok p_gamma)%result.

(** The densities over the support and the total mass [np.sum(p_gamma)]
    that they are divided by, when the shape [mu**2 / theta**2] and the
    scale [theta**2 / mu] are computed without overflow or underflow. *)
Definition densities (mu theta : Q) (L : list Q) : list fl :=
  map (fun x => gamma_pdf x (mu ^ 2 / theta ^ 2) (theta ^ 2 / mu)) L.

Definition total_mass (mu theta : Q) (L : list Q) : fl :=
  sum (densities mu theta L).

(** A positive number that a double holds without overflow or underflow. *)
Definition representable (q : Q) : Prop := (tiny < q /\ q <= max_double)%Q.

End Gamma.
End Kernel.

(* ===================================================================== *)
(** * Statistics layer *)
(* ===================================================================== *)

Module Stats.
Import NpFloat.

Local Open Scope result_scope.

(** ** Histograms *)

(** [np.arange(start, stop, step)] on floats: [ceil((stop-start)/step)]
    entries [start + i*step]. *)
Definition arange (start stop step : Q) : Py.result (list Q) :=
  if Qeq_bool step 0 then Py.Raise Py.ZeroDivisionError
  else
    let n := Z.to_nat (Qceiling ((stop - start) / step)) in
    Py.Ok (map (fun i => (start + inject_Z (Z.of_nat i) * step)%Q) (seq 0 n)).

Definition count {A} (f : A -> bool) (data : list A) : Z :=
  Z.of_nat (length (filter f data)).

(** The cumulative counts that [np.histogram] differences.  The samples
    are sorted, NaN last, and searched for the edges: for every edge but
    the last the number of samples below it, for the last edge the number
    of samples below or equal to it.  A sample [-inf] is below every edge;
    [+inf] and NaN are below none. *)
Fixpoint cumulative_counts (data : list fl) (edges : list Q) : list Z :=
  match edges with
  | [] => []
  | e :: rest =>
      match rest with
      | [] => [count (fun d => fle d (Fin e)) data]
      | _ :: _ =>
          count (fun d => flt d (Fin e)) data :: cumulative_counts data rest
      end
  end.

Fixpoint monotonic (edges : list Q) : bool :=
  match edges with
  | [] => true
  | e :: rest =>
      match rest with
      | [] => true
      | e' :: _ => Qle_bool e e' && monotonic rest
      end
  end.

(** [np.histogram(data, bins=edges)] with an array of edges. *)
Definition histogram (data : list fl) (edges : list Q)
  : Py.result (list Z * list Q) :=
  if monotonic edges then Py.Ok (Np.diff (cumulative_counts data edges), edges)
  else Py.Raise Py.ValueError.

(** [(bins_edges[:-1] + bins_edges[1:]) / 2]. *)
Definition bin_centers (edges : list Q) : list Q :=
  map (fun ab => ((fst ab + snd ab) / 2)%Q) (combine (removelast edges) (tl edges)).

Definition np_sum_Z (l : list Z) : Z := fold_left Z.add l 0.

(** A sample falls inside the grid when the grid has a bin (two edges at
    least) and the sample is a finite number between the first and the last
    edge, both included. *)
Definition in_grid (edges : list Q) (d : fl) : bool :=
  match edges, d with
  | e0 :: _ :: _, Fin q => Qle_bool e0 q && Qle_bool q (last edges e0)
  | _, _ => false
  end.

(** The body shared by the two sources, after the bin edges. *)
Definition distribution_on (data : list fl) (bins_array : list Q)
  : Py.result (list Q * list fl) :=
  h <- histogram data bins_array ;;
  let distrib := fst h in
  let bins_edges := snd h in
  let distrib :=
    if 0 <? np_sum_Z distrib then
      map (fun c => fdiv (of_Z c) (of_Z (np_sum_Z distrib))) distrib
    else map (fun _ => of_Z 0) distrib in
  let points := bin_centers bins_edges in
  Py.Ok (points, distrib).

(** ** First-passage-time matrix *)

(** [row[s:e] += 1] for non-negative bounds. *)
Fixpoint add_range (s e : nat) (l : list Z) {struct l} : list Z :=
  match l with
  | [] => []
  | c :: rest =>
      match e with
      | O => c :: rest
      | S e' =>
          match s with
          | O => (c + 1) :: add_range O e' rest
          | S s' => c :: add_range s' e' rest
          end
      end
  end.

(** [row[start:stop] += 1]. *)
Definition add_slice (row : list Z) (start stop : Z) : list Z :=
  add_range (Py.clamp (length row) start) (Py.clamp (length row) stop) row.

Fixpoint update_row (r : nat) (f : list Z -> list Z) (m : list (list Z))
         {struct m} : list (list Z) :=
  match m with
  | [] => []
  | row :: rest =>
      match r with
      | O => f row :: rest
      | S r' => row :: update_row r' f rest
      end
  end.

(** [fpt_matrix[time][start:stop] += 1]. *)
Definition bump (m : list (list Z)) (time start stop : Z)
  : Py.result (list (list Z)) :=
  match Py.norm_index (length m) time with
  | None => Py.Raise Py.IndexError
  | Some r => Py.Ok (update_row r (fun row => add_slice row start stop) m)
  end.

(** [np.max(np.concatenate(matrix_x))]. *)
Definition max_position (matrix_x : list (list Z)) : Py.result Z :=
  match matrix_x with
  | [] => Py.Raise Py.ValueError
  | _ :: _ =>
      match concat matrix_x with
      | [] => Py.Raise Py.ValueError
      | z :: rest => Py.Ok (fold_left Z.max rest z)
      end
  end.

(** [[[x - sublist[0] for x in sublist] for sublist in matrix_x]]. *)
Definition translate (matrix_x : list (list Z)) : list (list Z) :=
  map (fun sublist =>
         match sublist with
         | [] => []
         | x0 :: _ => map (fun x => x - x0) sublist
         end) matrix_x.

(** [np.concatenate] of the lists of couples, one list per trajectory:
    there must be a list, and an empty list cannot be joined with lists of
    couples. *)
Definition concatenate_couples {T} (per_traj : list (list (Z * T)))
  : Py.result (list (Z * T)) :=
  match per_traj with
  | [] => Py.Raise Py.ValueError
  | _ :: _ =>
      if forallb (fun l => match l with [] => true | _ => false end) per_traj
      then Py.Ok []
      else if existsb (fun l => match l with [] => true | _ => false end) per_traj
      then Py.Raise Py.ValueError
      else Py.Ok (concat per_traj)
  end.

Section Loop.
Context {T : Type}.
(** The row index read from a couple. *)
Variable time_of : T -> Py.result Z.
Variable t_bin : Z.

(** The loop [for _ in range(len(couples))]; [prev] is [couples[_ - 1]],
    which is the last couple in the first turn. *)
Fixpoint fpt_loop (prev : Z * T) (couples : list (Z * T)) (m : list (list Z))
  : Py.result (list (list Z)) :=
  match couples with
  | [] => Py.Ok m
  | c :: rest =>
      m' <- (if fst c =? 0 then Py.Ok m
             else
               time_index <- time_of (snd c) ;;
               let bin_index_start := fst prev / t_bin in
               let bin_index_end := fst c / t_bin in
               bump m time_index bin_index_start bin_index_end) ;;
      fpt_loop c rest m'
  end.

Definition fill_fpt (couples : list (Z * T)) (m : list (list Z))
  : Py.result (list (list Z)) :=
  match couples with
  | [] => Py.Ok m
  | c :: _ => fpt_loop (last couples c) couples m
  end.

End Loop.

(** [np.sum(fpt_matrix, axis=0)] on a matrix with [width] columns. *)
Definition add_rows (a b : list Z) : list Z :=
  map (fun xy => fst xy + snd xy) (combine a b).

Definition column_sums (width : nat) (m : list (list Z)) : list Z :=
  fold_left add_rows m (repeat 0 width).

(** [np.vstack((fpt_matrix, nt - fpt_number))]. *)
Definition stack_absent (nt : Z) (width : nat) (m : list (list Z))
  : list (list Z) :=
  m ++ [map (fun c => nt - c) (column_sums width m)].

(** [fpt_matrix / np.sum(fpt_matrix, axis=0)]. *)
Definition normalize_columns (width : nat) (m : list (list Z))
  : list (list fl) :=
  let totals := column_sums width m in
  map (fun row =>
         map (fun ct => fdiv (of_Z (fst ct)) (of_Z (snd ct))) (combine row totals))
      m.

(** Column sums of a matrix of floats. *)
Definition add_rows_fl (a b : list fl) : list fl :=
  map (fun xy => fadd (fst xy) (snd xy)) (combine a b).

Definition column_sums_fl (width : nat) (m : list (list fl)) : list fl :=
  fold_left add_rows_fl m (repeat (Fin 0) width).

End Stats.

(** [calculate_distribution] of [nucleo.py]: the last edge is computed from
    [int(last_bin)]. *)
Module NucleoStats.

Definition calculate_distribution (data : list NpFloat.fl)
           (first_bin last_bin bin_width : Q)
  : Py.result (list Q * list NpFloat.fl) :=
  match data with
  | [] => Py.Ok ([], [])
  | _ :: _ =>
      (bins_array <- Stats.arange first_bin
                       (inject_Z (Py.Qtrunc last_bin) + bin_width)%Q bin_width ;;
       Stats.distribution_on data bins_array)%result
  end.

(** [min(math.floor(ti), tmax)]: [math.floor] refuses an infinity and a
    NaN. *)
Definition floor_min (tmax : Z) (ti : NpFloat.fl) : Py.result Z :=
  (f <- Py.int_of_float (NpFloat.floor ti) ;; Py.Ok (Z.min f tmax))%result.

Definition couples_of (tmax : Z) (x : list Z) (t : list NpFloat.fl)
  : Py.result (list (Z * Z)) :=
  (times <- Py.all_ok (map (floor_min tmax) t) ;;
   Py.Ok (combine x times))%result.

(** The count matrix of [calculate_fpt_matrix] after the row of absent
    trajectories is stacked, with [fpt_number] and the number of position
    bins. *)
Definition fpt_count_matrix (matrix_t : list (list NpFloat.fl))
           (matrix_x : list (list Z)) (tmax t_bin : Z)
  : Py.result (list (list Z) * list Z * nat) :=
  (x_max <- Stats.max_position matrix_x ;;
   n_bins <- (if t_bin =? 0 then
                if x_max =? 0 then Py.Raise Py.ValueError
                else Py.Raise Py.OverflowError
              else Py.Ok (Qceiling (inject_Z x_max / inject_Z t_bin))) ;;
   rows <- Py.size_arg (tmax + 1) ;;
   width <- Py.size_arg n_bins ;;
   let fpt_matrix := repeat (repeat 0 width) rows in
   let nt := Z.of_nat (length matrix_t) in
   let translated_all_x := Stats.translate matrix_x in
   per_traj <- Py.all_ok
     (map (fun xt => couples_of tmax (fst xt) (snd xt))
          (combine translated_all_x matrix_t)) ;;
   couples <- Stats.concatenate_couples per_traj ;;
   fpt_matrix <- Stats.fill_fpt (fun time => Py.Ok time) t_bin couples fpt_matrix ;;
   let fpt_number := Stats.column_sums width fpt_matrix in
   Py.Ok (Stats.stack_absent nt width fpt_matrix, fpt_number, width))%result.

(** [calculate_fpt_matrix(matrix_t, matrix_x, tmax, t_bin)]:
    [(fpt_results, fpt_number)]. *)
Definition calculate_fpt_matrix (matrix_t : list (list NpFloat.fl))
           (matrix_x : list (list Z)) (tmax t_bin : Z)
  : Py.result (list (list NpFloat.fl) * list Z) :=
  (c <- fpt_count_matrix matrix_t matrix_x tmax t_bin ;;
   let fpt_matrix := fst (fst c) in
   let fpt_number := snd (fst c) in
   Py.Ok (Stats.normalize_columns (snd c) fpt_matrix, fpt_number))%result.

End NucleoStats.

(** [calculate_distribution] of [marcand.py]. *)
Module MarcandStats.

Definition calculate_distribution (data : list NpFloat.fl)
           (first_bin last_bin bin_width : Q)
  : Py.result (list Q * list NpFloat.fl) :=
  match data with
  | [] => Py.Ok ([], [])
  | _ :: _ =>
      (bins_array <- Stats.arange first_bin (last_bin + bin_width)%Q bin_width ;;
       Stats.distribution_on data bins_array)%result
  end.

(** [min(np.floor(ti), tmax)]: Python's [min] keeps its first argument
    unless the second is smaller. *)
Definition floor_min (tmax : Z) (ti : NpFloat.fl) : NpFloat.fl :=
  let f := NpFloat.floor ti in
  if NpFloat.flt (NpFloat.of_Z tmax) f then NpFloat.of_Z tmax else f.

Definition couples_of (tmax : Z) (x : list Z) (t : list NpFloat.fl)
  : list (Z * NpFloat.fl) :=
  combine x (map (floor_min tmax) t).

(** The count matrix of [calculate_fpt_matrix] after the row of absent
    trajectories is stacked; [nt] is an argument here. *)
Definition fpt_count_matrix (matrix_t : list (list NpFloat.fl))
           (matrix_x : list (list Z)) (tmax t_bin nt : Z)
  : Py.result (list (list Z) * list Z * nat) :=
  (x_max <- Stats.max_position matrix_x ;;
   n_bins <- (if t_bin =? 0 then Py.Raise Py.ZeroDivisionError
              else Py.Ok (Qceiling (inject_Z x_max / inject_Z t_bin))) ;;
   rows <- Py.size_arg (tmax + 1) ;;
   width <- Py.size_arg n_bins ;;
   let fpt_matrix := repeat (repeat 0 width) rows in
   let translated_all_x := Stats.translate matrix_x in
   couples <- Stats.concatenate_couples
     (map (fun xt => couples_of tmax (fst xt) (snd xt))
          (combine translated_all_x matrix_t)) ;;
   fpt_matrix <- Stats.fill_fpt Py.int_of_float t_bin couples fpt_matrix ;;
   let fpt_number := Stats.column_sums width fpt_matrix in
   Py.Ok (Stats.stack_absent nt width fpt_matrix, fpt_number, width))%result.

(** [calculate_fpt_matrix(matrix_t, matrix_x, tmax, t_bin, nt)]. *)
Definition calculate_fpt_matrix (matrix_t : list (list NpFloat.fl))
           (matrix_x : list (list Z)) (tmax t_bin nt : Z)
  : Py.result (list (list NpFloat.fl) * list Z) :=
  (c <- fpt_count_matrix matrix_t matrix_x tmax t_bin nt ;;
   let fpt_matrix := fst (fst c) in
   let fpt_number := snd (fst c) in
   Py.Ok (Stats.normalize_columns (snd c) fpt_matrix, fpt_number))%result.

End MarcandStats.

(* ===================================================================== *)
(** * A generator for the examples

    It replays a table of doubles; [np.random.seed(k)] starts at entry [k].
    The stand-in for the logarithm below is negative on (0, 1) and zero at
    one, which is all the examples use. *)
(* ===================================================================== *)

Module Scripted.

Definition next (s : list Q) : Q * list Q :=
  match s with
  | [] => (0%Q, [])
  | u :: rest => (u, rest)
  end.

Definition generator (table : list Q) : Rand.RandomState :=
  {| Rand.state := list Q;
     Rand.seed := fun k => skipn (Z.to_nat k) table;
     Rand.random_sample := next;
     Rand.randint := fun low high s =>
       let (u, rest) := next s in
       (low + Qfloor (u * inject_Z (high - low)), rest) |}.

Definition world (table : list Q) : Rand.world (generator table) :=
  Rand.Build_world (generator table) table (fun _ => 0) O.

Definition ln_stand_in (q : Q) : Q := (q - 1)%Q.

End Scripted.

(* ===================================================================== *)
(** * Predicates used by the statements *)
(* ===================================================================== *)

Module Spec.
Import NpFloat.

Section Worlds.
Variable RS : Rand.RandomState.

(** Two worlds agree when the generator is in the same state; the values
    that the operating system would hand to [np.random.seed()] are free. *)
Definition agree (w1 w2 : Rand.world RS) : Prop :=
  Rand.rng w1 = Rand.rng w2.

(** [c] reads nothing of the world but the generator state. *)
Definition seed_determined {A} (c : Rand.M RS A) : Prop :=
  forall w1 w2, agree w1 w2 ->
    fst (c w1) = fst (c w2) /\ agree (snd (c w1)) (snd (c w2)).

(** [c'] returns what [c] returns wherever [c] does not use up its
    budget: [c'] is [c] with a larger budget. *)
Definition settled {A} (c c' : Rand.M RS A) : Prop :=
  forall w, fst (c w) <> Py.Timeout -> c' w = c w.

(** [c] never uses up a budget. *)
Definition never_timeout {A} (c : Rand.M RS A) : Prop :=
  forall w, fst (c w) <> Py.Timeout.

End Worlds.

Section Walk.
Variables (beta_x : fl) (alpha_row p : list fl) (r_tot r0 : fl) (x : Z).

(** What the walk over the cumulative propensities has established when it
    stops at [di] with the running sum [rp]. *)
Definition walked (di : Z) (rp : fl) : Prop :=
  1 <= di
  /\ Engine.cumulative beta_x alpha_row p x (Z.to_nat di) = Py.Ok rp
  /\ (forall d, 1 <= d < di ->
        exists c, Engine.cumulative beta_x alpha_row p x (Z.to_nat d) = Py.Ok c
                  /\ flt (fdiv c r_tot) r0 = true).

End Walk.

(** No entry of a list of times is infinite. *)
Definition not_infinite (l : list fl) : Prop :=
  Forall (fun a => isinf a = false) l.

(** Sum of a list of rationals. *)
Definition Qsum (l : list Q) : Q := fold_left Qplus l 0%Q.

(** What [distribution_on] returns on a grid of edges: one entry per bin
    and no NaN; the entries sum to one when a sample falls inside the grid
    ([Stats.in_grid]: two edges at least, and a finite sample between the
    first and the last edge), and they are all zero when none does. *)
Definition normalised_on (data : list fl) (edges : list Q)
           (distrib : list fl) : Prop :=
  length distrib = (length edges - 1)%nat
  /\ Forall (fun a => isnan a = false) distrib
  /\ (existsb (Stats.in_grid edges) data = true ->
      exists s, sum distrib = Fin s /\ (s == 1)%Q)
  /\ (existsb (Stats.in_grid edges) data = false ->
      Forall (fun a => a = Fin 0) distrib).

(** Every row of a count matrix has [width] entries. *)
Definition rows_have (width : nat) (m : list (list Z)) : Prop :=
  Forall (fun row => length row = width) m.

(** An entry of the float column sums is the finite [z/nt] for the entry
    [z] of the integer column sums. *)
Definition share_of (nt : Z) (a : fl) (z : Z) : Prop :=
  exists q, a = Fin q /\ (q == inject_Z z / inject_Z nt)%Q.

(** Every column of the normalised matrix sums to one. *)
Definition columns_sum_to_one (width : nat) (results : list (list fl)) : Prop :=
  length (Stats.column_sums_fl width results) = width
  /\ Forall (fun a => exists q, a = Fin q /\ (q == 1)%Q)
            (Stats.column_sums_fl width results).

End Spec.

(* ===================================================================== *)
(** * Blocks of a landscape

    [find_blocks] and [find_interval_containing_value], the same text in
    [nucleo.py] and [marcand.py]. *)
(* ===================================================================== *)

Module Blocks.
Import NpFloat.

Local Open Scope result_scope.

(** [np.isclose(a, b, atol=1e-8)], with the default [rtol=1e-5]:
    [|a - b| <= atol + rtol * |b|] on finite values, equality on the
    infinities; a NaN is close to nothing. *)
Definition atol : Q := 1 # (10 ^ 8).
Definition rtol : Q := 1 # (10 ^ 5).

Definition isclose (a b : fl) : bool :=
  match a, b with
  | Fin x, Fin y => Qle_bool (Qabs (x - y)) (atol + rtol * Qabs y)
  | PInf, PInf | NInf, NInf => true
  | _, _ => false
  end.

(** [find_blocks(array, alpha_value)]: the list of the couples
    [(start, end)]. *)
Definition find_blocks (array : list fl) (alpha_value : fl)
  : Py.result (list (Z * Z)) :=
  let is_block := map (fun a => isclose a alpha_value) array in
  let diff := Np.diff (map Z.b2z is_block) in
  let starts := map (fun i => Z.of_nat i + 1) (Np.where_eq diff 1) in
  let ends := map (fun i => Z.of_nat i + 1) (Np.where_eq diff (-1)) in
  first <- Py.getitem is_block 0 ;;
  let starts := if first then 0 :: starts else starts in
  final <- Py.getitem is_block (-1) ;;
  let ends := if final then ends ++ [Z.of_nat (length array)] else ends in
  Py.Ok (combine starts ends).

(** [find_interval_containing_value(intervals, value)]; [None] of the
    source is [None] here.  [np.array] of an empty list has one dimension,
    and [intervals_array[:, 0]] raises on it. *)
Definition find_interval_containing_value (intervals : list (Z * Z))
           (value : Z) : Py.result (option (Z * Z)) :=
  match intervals with
  | [] => Py.Raise Py.IndexError
  | _ :: _ =>
      let mask :=
        map (fun se => (fst se <=? value) && (value <? snd se)) intervals in
      if existsb (fun b => b) mask then
        found <- Py.getitem (map fst (filter snd (combine intervals mask))) 0 ;;
        Py.Ok (Some found)
      else Py.Ok None
  end.

(** ** What a block is

    [block m s e]: the sites [s .. e-1] of the mask [m] are set, the site
    before [s] and the site [e] are not (or do not exist). *)
Definition block (m : list bool) (s e : nat) : Prop :=
  (s < e)%nat
  /\ (forall i, (s <= i < e)%nat -> nth i m false = true)
  /\ (s = O \/ nth (s - 1) m false = false)
  /\ nth e m false = false.

(** [leading m k]: [m] starts with exactly [k] set sites. *)
Definition leading (m : list bool) (k : nat) : Prop :=
  (forall i, (i < k)%nat -> nth i m false = true) /\ nth k m false = false.

End Blocks.

(* ===================================================================== *)
(** * Histograms over the columns of a matrix

    [hist_on_columns] of [marcand.py] and [calculate_position_histogram],
    the same text in both sources. *)
(* ===================================================================== *)

Module Histograms.
Import NpFloat Stats.

Local Open Scope result_scope.

(** A two-dimensional array of floats: its rows and [shape[1]]. *)
Record array2 : Type := {
  rows : list (list fl);
  width : nat
}.

Definition rectangular (a : array2) : Prop :=
  Forall (fun r => length r = width a) (rows a).

(** [a[:, j]]. *)
Definition column (j : nat) (a : array2) : list fl :=
  map (fun r => nth j r NaN) (rows a).

(** [counts / np.sum(counts)]. *)
Definition share (counts : list Z) : list fl :=
  map (fun c => fdiv (of_Z c) (of_Z (np_sum_Z counts))) counts.

(** [hist_on_columns(array_2d, bin_width, bin_max)]. *)
Definition hist_on_columns (array_2d : array2) (bin_width bin_max : Q)
  : Py.result (list (list fl)) :=
  bin_edges <- arange 0 (bin_max + 2) bin_width ;;
  let n_columns := width array_2d in
  histograms <-
    Py.all_ok
      (map (fun col_index =>
              h <- histogram (column col_index array_2d) bin_edges ;;
              Py.Ok (share (fst h)))
           (seq 0 n_columns)) ;;
  match histograms with
  | [] => Py.Raise Py.ValueError
  | _ :: _ => Py.Ok histograms
  end.

End Histograms.

(* ===================================================================== *)
(** * General functions: dictionaries, padding, filtering, conversion *)
(* ===================================================================== *)

Module Utilities.
Import NpFloat.

Local Open Scope result_scope.

(** ** [add_dicts]

    A [dict] is the list of its items in insertion order, with keys that
    are all different.  The values are numbers of a type [V] with its
    addition [add]; [zero] is the integer 0 that [defaultdict(int)] gives to
    a missing key. *)
Section Dicts.
Context {K V : Type}.
(** [k1 == k2] on keys. *)
Variable key_eqb : K -> K -> bool.
Variable add : V -> V -> V.
Variable zero : V.

Fixpoint lookup (k : K) (d : list (K * V)) : option V :=
  match d with
  | [] => None
  | (k', v) :: rest => if key_eqb k k' then Some v else lookup k rest
  end.

(** [merged_dict[key] += value] on a [defaultdict(int)]: a missing key is
    created with 0 at the end of the dictionary. *)
Fixpoint add_item (key : K) (value : V) (merged : list (K * V))
  : list (K * V) :=
  match merged with
  | [] => [(key, add zero value)]
  | (k', v) :: rest =>
      if key_eqb key k' then (k', add v value) :: rest
      else (k', v) :: add_item key value rest
  end.

Definition add_items (d merged : list (K * V)) : list (K * V) :=
  fold_left (fun m kv => add_item (fst kv) (snd kv) m) d merged.

(** [add_dicts(dict1, dict2)]. *)
Definition add_dicts (dict1 dict2 : list (K * V)) : list (K * V) :=
  let merged_dict := [] in
  let merged_dict := add_items dict1 merged_dict in
  let merged_dict := add_items dict2 merged_dict in
  merged_dict.

End Dicts.

(** ** [listoflist_into_matrix] *)

(** [base[:len(vals)] = vals], for [len(vals) <= len(base)]. *)
Fixpoint assign_prefix (vals base : list fl) : list fl :=
  match vals, base with
  | v :: vs, _ :: rest => v :: assign_prefix vs rest
  | _, _ => base
  end.

(** [max(len(row) for row in listoflist)]. *)
Definition max_length (listoflist : list (list fl)) : Py.result nat :=
  match listoflist with
  | [] => Py.Raise Py.ValueError
  | row :: rest => Py.Ok (fold_left Nat.max (map (@length fl) rest) (length row))
  end.

Definition listoflist_into_matrix (listoflist : list (list fl))
  : Py.result (list (list fl)) :=
  len_max <- max_length listoflist ;;
  let matrix := repeat (repeat NaN len_max) (length listoflist) in
  Py.Ok (map (fun ir => assign_prefix (fst ir) (snd ir))
             (combine listoflist matrix)).

(** ** [filtering_before_fit] *)

(** [array[mask]]. *)
Definition select {A} (mask : list bool) (l : list A) : list A :=
  map snd (filter fst (combine mask l)).

Definition small_std : fl := Fin (1 # (10 ^ 10)).

(** [filtering_before_fit(time, data, std)]; [None] is the [None] that the
    source returns when the lengths differ. *)
Definition filtering_before_fit (time data std : list fl)
  : option (list fl * list fl * list fl) :=
  if Nat.eqb (length time) (length data) && Nat.eqb (length data) (length std)
  then
    let valid_idx :=
      map (fun ds => negb (isnan (fst ds)) && negb (isnan (snd ds))
                     && negb (isinf (fst ds)) && negb (isinf (snd ds)))
          (combine data std) in
    let time := select valid_idx time in
    let data := select valid_idx data in
    let std := select valid_idx std in
    let std := map (fun s => if feq s (of_Z 0) then small_std else s) std in
    Some (time, data, std)
  else None.

(** Neither NaN nor an infinity. *)
Definition finite (a : fl) : Prop := isnan a = false /\ isinf a = false.

(** ** [jump] of [nucleo.py], [perform_jump] of [marcand.py] *)

(** [a >= b]. *)
Definition fge (a b : fl) : bool :=
  match a, b with
  | NaN, _ | _, NaN => false
  | _, _ => negb (flt a b)
  end.

(** [while j < len(probabilities) and r >= probabilities[j]: j += 1]; the
    loop reads the entries from [j] on, [rest] here. *)
Fixpoint jump_scan (r : fl) (rest : list fl) (j : Z) : Z :=
  match rest with
  | [] => j
  | pj :: rest' => if fge r pj then jump_scan r rest' (j + 1) else j
  end.

Section Moves.
Variable RS : Rand.RandomState.

Local Open Scope rand_scope.

Definition jump (o : Z) (probabilities : list fl) : Rand.M RS Z :=
  r <~ Rand.np_random_rand RS ;;
  let j := jump_scan r probabilities 0 in
  Rand.ret (o + j).

End Moves.

(** ** [prepare_value]

    The values that the function tells apart with [isinstance].  An array
    of one dimension or more is given by its [tolist()], the list of
    Python scalars or of lists that [np.array(value).tolist()] returns;
    [Other] is an object of any other type (a dict, a tuple, ...). *)
#[warnings="-register-all"]
Inductive value : Type :=
| PyNone
| PyBool (b : bool)
| PyInt (z : Z)
| PyFloat (f : fl)
| PyStr (s : string)
| PyList (l : list value)
| NpInteger (z : Z)
| NpFloating (f : fl)
| NpArray (tolist : list value)
| Other.

Fixpoint prepare_value (v : value) : Py.result value :=
  match v with
  | NpArray tolist =>
      prepared <- Py.all_ok (map prepare_value tolist) ;;
      Py.Ok (PyList prepared)
  | NpInteger z => Py.Ok (PyInt z)
  | NpFloating f => if isnan f then Py.Ok PyNone else Py.Ok (PyFloat f)
  | PyFloat f => if isnan f then Py.Ok PyNone else Py.Ok (PyFloat f)
  | PyList l =>
      prepared <- Py.all_ok (map prepare_value l) ;;
      Py.Ok (PyList prepared)
  | PyBool b => Py.Ok (PyBool b)
  | PyInt z => Py.Ok (PyInt z)
  | PyStr s => Py.Ok (PyStr s)
  | PyNone => Py.Ok PyNone
  | Other => Py.Raise Py.ValueError
  end.

(** A value made of [None], Python scalars without NaN, strings and
    lists of such values. *)
Fixpoint plain (v : value) : bool :=
  match v with
  | PyNone | PyBool _ | PyInt _ | PyStr _ => true
  | PyFloat f => negb (isnan f)
  | PyList l => forallb plain l
  | NpInteger _ | NpFloating _ | NpArray _ | Other => false
  end.

(** No object of another type at any depth. *)
Fixpoint supported (v : value) : bool :=
  match v with
  | Other => false
  | PyList l | NpArray l => forallb supported l
  | _ => true
  end.

(** The outcome of [prepare_value] on one value: a plain value that is
    prepared into itself when the value is supported, ValueError when it
    is not. *)
Definition prepared_well (v : value) : Prop :=
  match prepare_value v with
  | Py.Ok v' =>
      supported v = true /\ plain v' = true /\ prepare_value v' = Py.Ok v'
  | Py.Raise e => e = Py.ValueError /\ supported v = false
  | Py.Timeout => False
  end.

End Utilities.

(* ===================================================================== *)
(** * Lengths of the obstacles and of the linkers *)
(* ===================================================================== *)

Module Lengths.
Import NpFloat.

Local Open Scope result_scope.

(** [ends - starts] for the runs of a mask:
    [np.diff(np.concatenate(([0], mask.astype(int), [0])))], the places of
    [1] and of [-1], and their differences.  The two lists of places have
    one length (lemma [starts_and_ends_pair] below), so that the
    subtraction is entry by entry. *)
Definition run_counts (mask : list bool) : list Z :=
  let diffs := Np.diff (0 :: map Z.b2z mask ++ [0]) in
  let starts := Np.where_eq diffs 1 in
  let ends := Np.where_eq diffs (-1) in
  map (fun se => Z.of_nat (snd se) - Z.of_nat (fst se)) (combine starts ends).

Section Distribution.
(** [calculate_distribution] of the same file. *)
Variable calculate_distribution :
  list fl -> Q -> Q -> Q -> Py.result (list Q * list fl).

(** The two branches on [counts.size]. *)
Definition distribution_of_counts (counts : list Z) (step : Z)
  : Py.result (list Q * list fl) :=
  match counts with
  | [] => Py.Ok ([], [])
  | _ :: _ =>
      top <- Engine.np_max counts ;;
      calculate_distribution (map of_Z counts) 0
        (inject_Z (top + step)) (inject_Z step)
  end.

(** [calculate_obs_and_linker_distribution(alpha_array, alphao, alphaf,
    step)], the same text in [nucleo.py] and [marcand.py]:
    [(points_o, distrib_o, points_l, distrib_l)]. *)
Definition calculate_obs_and_linker_distribution
           (alpha_array : list fl) (alphao alphaf : fl) (step : Z)
  : Py.result ((list Q * list fl) * (list Q * list fl)) :=
  let mask_o := map (fun a => feq a alphao) alpha_array in
  let mask_l := map (fun a => feq a alphaf) alpha_array in
  let counts_o := run_counts mask_o in
  let counts_l := run_counts mask_l in
  o <- distribution_of_counts counts_o step ;;
  l <- distribution_of_counts counts_l step ;;
  Py.Ok (o, l).

End Distribution.

(** What a returned distribution is for a mask: empty when no site is
    selected, without NaN and of sum one when a site is. *)
Definition normalised_for (mask : list bool) (r : list Q * list fl) : Prop :=
  Forall (fun a => isnan a = false) (snd r)
  /\ (existsb (fun b => b) mask = false -> r = ([], []))
  /\ (existsb (fun b => b) mask = true ->
      exists s, sum (snd r) = Fin s /\ (s == 1)%Q).

End Lengths.

(* ===================================================================== *)
(** * Further notions used by the statements *)
(* ===================================================================== *)

Module Notions.
Import NpFloat.

Section Worlds.
Variable RS : Rand.RandomState.

(** Two worlds in which [np.random.seed()] will receive the same values
    from the operating system; the states of the generator are free. *)
Definition same_entropy (w1 w2 : Rand.world RS) : Prop :=
  Rand.reads w1 = Rand.reads w2
  /\ forall n, Rand.entropy w1 n = Rand.entropy w2 n.

(** [c] reads nothing of the world but the values of the operating system:
    the state in which it finds the generator does not matter. *)
Definition entropy_determined {A} (c : Rand.M RS A) : Prop :=
  forall w1 w2, same_entropy w1 w2 ->
    fst (c w1) = fst (c w2) /\ same_entropy (snd (c w1)) (snd (c w2)).

(** [c] does not call [np.random.seed()]. *)
Definition keeps_entropy {A} (c : Rand.M RS A) : Prop :=
  forall w, Rand.reads (snd (c w)) = Rand.reads w
            /\ Rand.entropy (snd (c w)) = Rand.entropy w.

End Worlds.

(** [np.random.randint(low, high)] is in [[low, high)], and
    [np.random.rand()] in [[0, 1)]. *)
Definition randint_in_range (RS : Rand.RandomState) : Prop :=
  forall low high st,
    low < high -> low <= fst (Rand.randint RS low high st) < high.

Definition rand_in_unit (RS : Rand.RandomState) : Prop :=
  forall st, (0 <= fst (Rand.random_sample RS st) < 1)%Q.

(** A generator that always draws the lowest value; it stands for NumPy's
    where a statement needs one that keeps its draws in range. *)
Definition lowest : Rand.RandomState :=
  {| Rand.state := unit;
     Rand.seed := fun _ => tt;
     Rand.random_sample := fun st => (0%Q, st);
     Rand.randint := fun low _ st => (low, st) |}.

(** Number of sites of a landscape that hold [v]. *)
Definition sites_equal (v : Q) (a : list Q) : nat :=
  length (filter (fun x => Qeq_bool x v) a).

(** [lo <= x0 <= x1 <= ... <= hi]. *)
Fixpoint ascending (lo hi : Z) (l : list Z) : Prop :=
  match l with
  | [] => lo <= hi
  | x :: t => lo <= x /\ ascending x hi t
  end.

(** Blocks of [s] sites starting at [q0, q1, ...] that do not overlap, at
    or after [from] and ending at or before [hi]. *)
Fixpoint separated (s from hi : Z) (qs : list Z) : Prop :=
  match qs with
  | [] => from <= hi
  | q :: rest => from <= q /\ separated s (q + s) hi rest
  end.

(** A series of positions that goes strictly up. *)
Fixpoint chain (a : Z) (l : list Z) : Prop :=
  match l with
  | [] => True
  | b :: rest => a < b /\ chain b rest
  end.

Definition increasing (l : list Z) : Prop :=
  match l with
  | [] => True
  | a :: rest => chain a rest
  end.

(** The time series and the position series of every trajectory have the
    same number of entries. *)
Definition aligned (t_matrix : list (list fl)) (x_matrix : list (list Z))
  : Prop :=
  length t_matrix = length x_matrix
  /\ Forall (fun tx => length (fst tx) = length (snd tx))
            (combine t_matrix x_matrix).

(** What holds of the variables of the loop over the times of a trajectory
    before and after every turn, in the three engines. *)
Definition one_step_inv (ox first : Z) (width : nat) (st : Engine.traj) : Prop :=
  length (Engine.t_list st) = length (Engine.x_list st)
  /\ hd_error (Engine.x_list st) = Some first
  /\ last (Engine.x_list st) 0 = Engine.x st - ox
  /\ increasing (Engine.x_list st)
  /\ length (Engine.row st) = width.

Definition in_position_inv (origin : Z) (width : nat) (st : Engine.traj) : Prop :=
  length (Engine.t_list st) = length (Engine.x_list st)
  /\ Engine.x_list st <> []
  /\ last (Engine.x_list st) 0 = Engine.x st - origin
  /\ increasing (Engine.x_list st)
  /\ length (Engine.row st) = width.

Definition two_steps_inv (width : nat) (st : Engine.traj) : Prop :=
  length (Engine.t_list st) = length (Engine.x_list st)
  /\ Nat.odd (length (Engine.t_list st)) = true
  /\ length (Engine.row st) = width.

End Notions.

(* ===================================================================== *)
(** * Properties *)
(* ===================================================================== *)

Module LandscapeFacts.
Import Landscape.

Lemma diff_cons2 (x y : Z) (t : list Z) :
  Np.diff (x :: y :: t) = (y - x) :: Np.diff (y :: t).
Proof. reflexivity. Qed.

Lemma fill_app_l {A} (pre l : list A) (s e : nat) (v : A) :
  Np.fill (length pre + s) (length pre + e) v (pre ++ l) = pre ++ Np.fill s e v l.
Proof.
  induction pre as [|p pre IH]; simpl; [reflexivity|].
  now rewrite IH.
Qed.

Lemma fill_zero_len {A} (cur rest : list A) (v : A) :
  Np.fill 0 (length cur) v (cur ++ rest) = repeat v (length cur) ++ rest.
Proof.
  induction cur as [|c cur IH]; simpl.
  - destruct rest; reflexivity.
  - now rewrite IH.
Qed.

Lemma fill_block {A} (pre cur rest : list A) (v : A) :
  Np.fill (length pre) (length pre + length cur) v (pre ++ cur ++ rest)
  = pre ++ repeat v (length cur) ++ rest.
Proof.
  replace (length pre) with (length pre + 0)%nat at 1 by lia.
  rewrite fill_app_l. now rewrite fill_zero_len.
Qed.

Lemma nil_or_last {A} (l : list A) :
  l = [] \/ exists l' y, l = l' ++ [y].
Proof.
  destruct l as [|x l]; [now left|right].
  destruct (@exists_last _ (x :: l)) as [l' [y Hy]]; [discriminate|].
  now exists l', y.
Qed.

Section Pass.
Context {A : Type}.
Variable eqb : A -> A -> bool.
Variables (alphao alphaf : A) (bpmin : Z).

Notation is_f := (is_f eqb alphaf).
Notation span := (span eqb alphaf).
Notation fix_runs := (fix_runs eqb alphao alphaf bpmin).
Notation mask := (map (fun x => eqb x alphaf)).
Notation apply_runs := (apply_runs alphao bpmin).

Lemma diffs_of_cons prev b m :
  diffs_of prev (b :: m) = (Z.b2z b - Z.b2z prev) :: diffs_of b m.
Proof.
  unfold diffs_of. simpl map. simpl app.
  destruct (map Z.b2z m ++ [0]) eqn:E.
  - destruct m; discriminate.
  - reflexivity.
Qed.

(** The pairs zipped from [starts] and [ends] are the runs of the mask. *)
Lemma zip_starts_ends m :
  forall off,
    combine (Np.where_from off 1 (diffs_of false m))
            (Np.where_from off (-1) (diffs_of false m))
    = runs_aux None off m
    /\ forall s,
      combine (s :: Np.where_from off 1 (diffs_of true m))
              (Np.where_from off (-1) (diffs_of true m))
      = runs_aux (Some s) off m.
Proof.
  induction m as [|b m IH]; intros off.
  - split; [reflexivity|]. intros s. reflexivity.
  - destruct (IH (S off)) as [IH1 IH2]. split.
    + rewrite diffs_of_cons. destruct b; simpl.
      * apply IH2.
      * apply IH1.
    + intros s. rewrite diffs_of_cons. destruct b; simpl.
      * apply IH2.
      * now rewrite IH1.
Qed.

Lemma binding_length_runs a :
  binding_length eqb a alphao alphaf bpmin
  = apply_runs (runs_aux None 0 (mask a)) a.
Proof.
  unfold binding_length, Np.where_eq.
  change (Np.diff (0 :: map Z.b2z (mask a) ++ [0]))
    with (diffs_of false (mask a)).
  now rewrite (proj1 (zip_starts_ends (mask a) 0%nat)).
Qed.

Lemma span_cons_f x t : is_f x = true -> span (x :: t) = S (span t).
Proof. intros H. simpl. now rewrite H. Qed.

Lemma span_cons_nf x t : is_f x = false -> span (x :: t) = O.
Proof. intros H. simpl. now rewrite H. Qed.

Lemma apply_runs_fix_runs a :
  (forall pre,
      apply_runs (runs_aux None (length pre) (mask a)) (pre ++ a)
      = pre ++ fix_runs false false a)
  /\ (forall pre cur,
         apply_runs (runs_aux (Some (length pre)) (length pre + length cur) (mask a))
                    (pre ++ cur ++ a)
         = pre
             ++ (if Z.of_nat (length cur + span a) <? bpmin
                 then repeat alphao (length cur) else cur)
             ++ fix_runs true (Z.of_nat (length cur + span a) <? bpmin) a).
Proof.
  induction a as [|x t [IH1 IH2]].
  - split; intros pre; [reflexivity|]. intros cur. simpl.
    replace (Z.of_nat (length pre + length cur) - Z.of_nat (length pre))
      with (Z.of_nat (length cur + 0)) by lia.
    destruct (Z.of_nat (length cur + 0) <? bpmin); [|reflexivity].
    now rewrite fill_block.
  - split.
    + intros pre. simpl map. simpl fix_runs. unfold Landscape.is_f.
      destruct (eqb x alphaf) eqn:Ex; simpl runs_aux.
      * specialize (IH2 pre [x]). simpl length in IH2.
        replace (S (length pre)) with (length pre + 1)%nat by lia.
        change (pre ++ x :: t) with (pre ++ [x] ++ t).
        rewrite IH2. f_equal.
        change (1 + span t)%nat with (S (span t)).
        destruct (Z.of_nat (S (span t)) <? bpmin); reflexivity.
      * specialize (IH1 (pre ++ [x])). rewrite length_app in IH1. simpl in IH1.
        replace (S (length pre)) with (length pre + 1)%nat by lia.
        rewrite <- app_assoc in IH1. simpl in IH1. rewrite IH1.
        now rewrite <- app_assoc.
    + intros pre cur. simpl map. simpl fix_runs. unfold Landscape.is_f.
      destruct (eqb x alphaf) eqn:Ex; simpl runs_aux.
      * rewrite (span_cons_f x t Ex).
        specialize (IH2 pre (cur ++ [x])). rewrite length_app in IH2.
        simpl length in IH2.
        replace (S (length pre + length cur))
          with (length pre + (length cur + 1))%nat by lia.
        replace (pre ++ cur ++ x :: t) with (pre ++ (cur ++ [x]) ++ t)
          by (now rewrite <- (app_assoc cur)).
        rewrite IH2.
        replace (length cur + 1 + span t)%nat with (length cur + S (span t))%nat by lia.
        destruct (Z.of_nat (length cur + S (span t)) <? bpmin).
        -- rewrite repeat_app. simpl. now rewrite <- app_assoc.
        -- now rewrite <- app_assoc.
      * rewrite (span_cons_nf x t Ex). unfold apply_runs. simpl fold_left.
        fold (apply_runs (runs_aux None (S (length pre + length cur)) (mask t))).
        replace (Z.of_nat (length pre + length cur) - Z.of_nat (length pre))
          with (Z.of_nat (length cur + 0)) by lia.
        set (k := Z.of_nat (length cur + 0) <? bpmin).
        assert (Hlen : forall cur', length cur' = length cur ->
                  apply_runs (runs_aux None (S (length pre + length cur)) (mask t))
                             (pre ++ cur' ++ x :: t)
                  = pre ++ cur' ++ x :: fix_runs false false t).
        { intros cur' Hc. specialize (IH1 (pre ++ cur' ++ [x])).
          rewrite !length_app in IH1. simpl in IH1. rewrite Hc in IH1.
          replace (length pre + (length cur + 1))%nat
            with (S (length pre + length cur)) in IH1 by lia.
          rewrite <- !app_assoc in IH1. simpl in IH1. now rewrite IH1. }
        destruct k.
        -- rewrite fill_block. apply Hlen. apply repeat_length.
        -- now apply Hlen.
Qed.

(** The array pass of the source computes the run-by-run pass. *)
Lemma binding_length_fix_runs a :
  binding_length eqb a alphao alphaf bpmin = fix_runs false false a.
Proof.
  rewrite binding_length_runs.
  exact (proj1 (apply_runs_fix_runs a) []).
Qed.

Lemma fix_runs_cons_f in_run kill x t :
  is_f x = true ->
  fix_runs in_run kill (x :: t)
  = let kill' := if in_run then kill else Z.of_nat (S (span t)) <? bpmin in
    (if kill' then alphao else x) :: fix_runs true kill' t.
Proof. intros H. simpl. now rewrite H. Qed.

Lemma fix_runs_cons_nf in_run kill x t :
  is_f x = false ->
  fix_runs in_run kill (x :: t) = x :: fix_runs false false t.
Proof. intros H. simpl. now rewrite H. Qed.

(** *** When the replacement value is not the free value *)
Section Distinct.
Hypothesis Hdistinct : is_f alphao = false.

Lemma span_kept a : span (fix_runs true false a) = span a.
Proof.
  induction a as [|x t IH]; [reflexivity|].
  destruct (is_f x) eqn:Ex.
  - rewrite fix_runs_cons_f by assumption. cbn zeta iota.
    now rewrite !span_cons_f, IH.
  - rewrite fix_runs_cons_nf by assumption. now rewrite !span_cons_nf.
Qed.

Lemma fix_runs_idem_distinct a :
  fix_runs false false (fix_runs false false a) = fix_runs false false a
  /\ fix_runs true false (fix_runs true false a) = fix_runs true false a
  /\ fix_runs false false (fix_runs true true a) = fix_runs true true a.
Proof.
  induction a as [|x t (IH1 & IH2 & IH3)]; [now repeat split|].
  destruct (is_f x) eqn:Ex.
  - rewrite !(fix_runs_cons_f _ _ x t Ex). cbn zeta iota. repeat split.
    + destruct (Z.of_nat (S (span t)) <? bpmin) eqn:Ek.
      * rewrite fix_runs_cons_nf by assumption. now rewrite IH3.
      * rewrite fix_runs_cons_f by assumption. cbn zeta iota.
        rewrite span_kept, Ek. now rewrite IH2.
    + rewrite fix_runs_cons_f by assumption. cbn zeta iota. now rewrite IH2.
    + rewrite fix_runs_cons_nf by assumption. now rewrite IH3.
  - rewrite !(fix_runs_cons_nf _ _ x t Ex). repeat split;
      rewrite fix_runs_cons_nf by assumption; now rewrite IH1.
Qed.

(** Every maximal run left by the pass is long enough. *)
Lemma run_lengths_fix_runs a :
  Forall (fun k => bpmin <= Z.of_nat k) (run_lengths_aux eqb alphaf 0 (fix_runs false false a))
  /\ (forall c, bpmin <= Z.of_nat (S c + span a) ->
          Forall (fun k => bpmin <= Z.of_nat k)
                 (run_lengths_aux eqb alphaf (S c) (fix_runs true false a)))
  /\ Forall (fun k => bpmin <= Z.of_nat k) (run_lengths_aux eqb alphaf 0 (fix_runs true true a)).
Proof.
  induction a as [|x t (IH1 & IH2 & IH3)].
  - split; [constructor|split; [|constructor]].
    intros c Hc. simpl in *. constructor; [lia|constructor].
  - destruct (is_f x) eqn:Ex.
    + rewrite !(fix_runs_cons_f _ _ x t Ex). cbn zeta iota. repeat split.
      * destruct (Z.of_nat (S (span t)) <? bpmin) eqn:Ek.
        -- simpl run_lengths_aux. rewrite Hdistinct. exact IH3.
        -- simpl run_lengths_aux. rewrite Ex. apply IH2.
           apply Z.ltb_ge in Ek. exact Ek.
      * intros c Hc. simpl run_lengths_aux. rewrite Ex. apply IH2.
        rewrite span_cons_f in Hc by assumption. lia.
      * simpl run_lengths_aux. rewrite Hdistinct. exact IH3.
    + rewrite !(fix_runs_cons_nf _ _ x t Ex). repeat split.
      * simpl run_lengths_aux. now rewrite Ex.
      * intros c Hc. simpl run_lengths_aux. rewrite Ex.
        rewrite span_cons_nf in Hc by assumption. constructor; [lia|exact IH1].
      * simpl run_lengths_aux. now rewrite Ex.
Qed.

End Distinct.

(** *** When the replacement value compares equal to the free value *)
Section Same.
Hypothesis Hsame : is_f alphao = true.

Lemma span_fix_runs_same in_run kill a :
  span (fix_runs in_run kill a) = span a.
Proof.
  revert in_run kill. induction a as [|x t IH]; intros in_run kill; [reflexivity|].
  destruct (is_f x) eqn:Ex.
  - rewrite fix_runs_cons_f by assumption. cbn zeta.
    destruct (if in_run then kill else Z.of_nat (S (span t)) <? bpmin);
      rewrite !span_cons_f by assumption; now rewrite IH.
  - rewrite fix_runs_cons_nf by assumption. now rewrite !span_cons_nf.
Qed.

Lemma fix_runs_idem_same in_run kill a :
  fix_runs in_run kill (fix_runs in_run kill a) = fix_runs in_run kill a.
Proof.
  revert in_run kill. induction a as [|x t IH]; intros in_run kill; [reflexivity|].
  destruct (is_f x) eqn:Ex.
  - rewrite (fix_runs_cons_f _ _ x t Ex). cbn zeta.
    set (k := if in_run then kill else Z.of_nat (S (span t)) <? bpmin).
    assert (Hy : is_f (if k then alphao else x) = true) by now destruct k.
    rewrite (fix_runs_cons_f _ _ _ _ Hy). cbn zeta.
    rewrite span_fix_runs_same. fold k. rewrite IH. now destruct k.
  - rewrite (fix_runs_cons_nf _ _ x t Ex).
    rewrite fix_runs_cons_nf by assumption. now rewrite IH.
Qed.

End Same.

(** A second pass with the same arguments changes nothing, whatever the
    two values are. *)
Lemma binding_length_idem_any a :
  binding_length eqb (binding_length eqb a alphao alphaf bpmin) alphao alphaf bpmin
  = binding_length eqb a alphao alphaf bpmin.
Proof.
  rewrite !binding_length_fix_runs.
  destruct (is_f alphao) eqn:E.
  - now apply fix_runs_idem_same.
  - now apply fix_runs_idem_distinct.
Qed.

(** *** Maximal runs and the list of run lengths *)

Lemma run_lengths_aux_skip c pre' y rest :
  is_f y = false ->
  exists L, run_lengths_aux eqb alphaf c ((pre' ++ [y]) ++ rest)
            = L ++ run_lengths_aux eqb alphaf 0 rest.
Proof.
  intros Hy. revert c. induction pre' as [|p pre' IH]; intros c.
  - simpl. rewrite Hy. destruct c; [now exists []|now exists [S c]].
  - simpl. destruct (is_f p).
    + apply IH.
    + destruct (IH O) as [L HL]. simpl in HL. rewrite HL.
      destruct c; [now exists L|now exists (S c :: L)].
Qed.

Lemma run_lengths_aux_run c run post :
  Forall (fun x => is_f x = true) run ->
  run_lengths_aux eqb alphaf c (run ++ post)
  = run_lengths_aux eqb alphaf (c + length run) post.
Proof.
  intros H. revert c. induction H as [|x run Hx _ IH]; intros c; simpl.
  - now rewrite Nat.add_0_r.
  - rewrite Hx, IH. f_equal. lia.
Qed.

Lemma run_lengths_aux_stop c post :
  (forall y post', post = y :: post' -> is_f y = false) ->
  exists L, run_lengths_aux eqb alphaf (S c) post = S c :: L.
Proof.
  intros H. destruct post as [|y post']; simpl.
  - now exists [].
  - rewrite (H y post' eq_refl). now eexists.
Qed.

Lemma maximal_run_in_run_lengths l pre run post :
  maximal_run eqb alphaf l pre run post ->
  In (length run) (run_lengths eqb alphaf l).
Proof.
  intros (-> & Hne & Hrun & Hpre & Hpost). unfold run_lengths.
  assert (Hin : In (length run) (run_lengths_aux eqb alphaf 0 (run ++ post))).
  { rewrite run_lengths_aux_run by assumption. simpl.
    destruct run as [|r run]; [congruence|]. simpl length.
    destruct (run_lengths_aux_stop (length run) post Hpost) as [L ->]. now left. }
  destruct (nil_or_last pre) as [->|(pre' & y & ->)].
  - exact Hin.
  - destruct (run_lengths_aux_skip O pre' y (run ++ post)) as [L ->].
    + now apply (Hpre pre' y).
    + apply in_or_app. now right.
Qed.

(** Every maximal run of [alphaf] left by [binding_length] has at least
    [bpmin] sites, when the replacement value is not itself [alphaf]. *)
Lemma binding_length_min_run a pre run post :
  is_f alphao = false ->
  maximal_run eqb alphaf (binding_length eqb a alphao alphaf bpmin) pre run post ->
  bpmin <= Z.of_nat (length run).
Proof.
  intros Hd Hrun. apply maximal_run_in_run_lengths in Hrun.
  rewrite binding_length_fix_runs in Hrun.
  pose proof (proj1 (run_lengths_fix_runs Hd a)) as Hall.
  rewrite Forall_forall in Hall. now apply Hall.
Qed.

End Pass.

(** ** The pass on concrete arrays *)

(** C2. On [1,1,0,0,1,1,1,0,1,0,0] with [alphao = 0], [alphaf = 1] and
    [bpmin = 3], [binding_length] returns [0,0,0,0,1,1,1,0,0,0,0]: the free
    runs of length 2 and 1 become obstacle, the run of length 3 is kept. *)
Theorem binding_length_scenario :
  binding_length Z.eqb [1;1;0;0;1;1;1;0;1;0;0] 0 1 3
  = [0;0;0;0;1;1;1;0;0;0;0].
Proof. reflexivity. Qed.

(** The example of the docstring of [binding_length]. *)
Example binding_length_docstring :
  binding_length Z.eqb [0;0;1;1;0;0;0;1;1;0;0;1;0;1;0;0;1;0] 0 1 2
  = [0;0;1;1;0;0;0;1;1;0;0;0;0;0;0;0;0;0].
Proof. reflexivity. Qed.

(** C10. [binding_length] is idempotent: for every array, every pair of
    values with [alphao != alphaf] and every threshold, a second pass with
    the same arguments returns the output of the first pass unchanged. *)
Theorem binding_length_idempotent {A : Type} (eqb : A -> A -> bool)
        (a : list A) (alphao alphaf : A) (bpmin : Z) :
  eqb alphao alphaf = false ->
  binding_length eqb (binding_length eqb a alphao alphaf bpmin)
                 alphao alphaf bpmin
  = binding_length eqb a alphao alphaf bpmin.
Proof. intros _. apply binding_length_idem_any. Qed.

Lemma binding_length_idempotent_witness :
  Z.eqb 0 1 = false
  /\ binding_length Z.eqb
       (binding_length Z.eqb [1;1;0;0;1;1;1;0;1;0;0] 0 1 3) 0 1 3
     = binding_length Z.eqb [1;1;0;0;1;1;1;0;1;0;0] 0 1 3.
Proof.
  split; [reflexivity|].
  apply (binding_length_idempotent Z.eqb [1;1;0;0;1;1;1;0;1;0;0] 0 1 3).
  reflexivity.
Defined.

(** ** The generators *)

(** In [nucleo.py] every row of the returned matrix went through
    [binding_length(alpha, alphao, alphaf, bpmin)]: whatever the mode, a
    maximal run of [alphaf] has at least [bpmin] sites, provided the value
    that a row stores for [alphao] is not [alphaf]. *)
Lemma alpha_matrix_calculation_min_run (RS : Rand.RandomState)
      (alpha_choice : string) (s l bpmin : Z) (alphao alphaf : number)
      (Lmin Lmax bps nt : Z) (w w' : Rand.world RS)
      (alpha_matrix : list (list Q)) (mean_alpha : list NpFloat.fl) :
  (forall d, Qeq_bool (stored d alphao) (value alphaf) = false) ->
  alpha_matrix_calculation RS alpha_choice s l bpmin alphao alphaf
                           Lmin Lmax bps nt w
  = (Py.Ok (alpha_matrix, mean_alpha), w') ->
  forall row pre run post,
    In row alpha_matrix ->
    maximal_run Qeq_bool (value alphaf) row pre run post ->
    bpmin <= Z.of_nat (length run).
Proof.
  intros Hd Hrun row pre run post Hin Hmax.
  unfold alpha_matrix_calculation, Rand.bind in Hrun.
  match type of Hrun with
  | context [match ?c w with _ => _ end] => destruct (c w) as [[m|e|] w1]
  end; try discriminate.
  unfold Rand.ret in Hrun. injection Hrun as <- _ _.
  apply in_map_iff in Hin. destruct Hin as (row0 & <- & _).
  eapply binding_length_min_run with (alphao := stored (snd m) alphao);
    [apply Hd|exact Hmax].
Qed.

(** C1. The generator of [marcand.py] calls
    [binding_length(landscape[0], alphaf, alphao, bpmin)], the two values in
    the opposite order of the signature: the pass works on the runs of
    [alphao].  With [rap1_l = 3], [gap = 5], [N = 2], [d = D = 2] and
    [bpmin = 2] the free site between the two halves of each obstacle is a
    maximal run of [alphaf] of length 1 that survives the pass. *)
Theorem calculate_landscape_short_free_run :
  let row := [1;1; 0;0;0;1;0;0;0; 1;1;1;1;1; 0;0;0;1;0;0;0; 1;1]%Q in
  calculate_landscape "array" 1 2 2 0 5 3 24 2 2 1 = Py.Ok [row]
  /\ maximal_run Qeq_bool 1%Q row [1;1;0;0;0]%Q [1]%Q
                 [0;0;0; 1;1;1;1;1; 0;0;0;1;0;0;0; 1;1]%Q
  /\ Z.of_nat (length [1%Q]) < 2.
Proof.
  cbv zeta. split; [reflexivity|]. split; [|reflexivity].
  repeat split.
  - discriminate.
  - repeat constructor.
  - intros pre' y H.
    apply (f_equal (@rev Q)) in H. rewrite rev_app_distr in H. simpl in H.
    now injection H as <- _.
  - intros y post' H. now injection H as <- _.
Qed.

(** The 'DATA' configuration of [marcand.py] ([rap1_l = 14], [N = 8],
    [d = D = 2000], [alphaf = 1], [alphao = 0]) with [gap = 5] and
    [bpmin = 2]: the free site at index 2014, between the two halves of the
    first obstacle, is still there. *)
Example calculate_landscape_data_configuration :
  exists row,
    calculate_landscape "array" 1 2000 2000 0 5 14 24 8 2 1 = Py.Ok [row]
    /\ nth_error row 2013 = Some 0%Q
    /\ nth_error row 2014 = Some 1%Q
    /\ nth_error row 2015 = Some 0%Q.
Proof.
  destruct (calculate_landscape "array" 1 2000 2000 0 5 14 24 8 2 1)
    as [[|row [|row' rest]]| |] eqn:E; vm_compute in E; try discriminate.
  exists row. injection E as <-. repeat split.
Qed.

(** What the pass of [marcand.py] does enforce: in the modes ['array'] and
    ['LacI'] every maximal run of the obstacle value has at least [bpmin]
    sites. *)
Lemma calculate_landscape_obstacle_runs (alpha_choice : string)
      (alphaf alphao : Q) (d D gap rap1_l lacO_l N bpmin nt : Z)
      (landscape : list (list Q)) :
  calculate_landscape alpha_choice alphaf d D alphao gap rap1_l lacO_l N
                      bpmin nt
  = Py.Ok landscape ->
  alpha_choice = "array"%string \/ alpha_choice = "LacI"%string ->
  Qeq_bool alphaf alphao = false ->
  forall row pre run post,
    In row landscape ->
    maximal_run Qeq_bool alphao row pre run post ->
    bpmin <= Z.of_nat (length run).
Proof.
  intros H Hmode Hd row pre run post Hin Hmax.
  unfold calculate_landscape in H.
  match type of H with
  | Py.rbind ?c _ = _ => destruct c as [land0| |]; try discriminate
  end.
  cbn [Py.rbind] in H.
  assert (Hm : (String.eqb alpha_choice "array"
                || String.eqb alpha_choice "LacI")%bool = true).
  { destruct Hmode as [-> | ->]; reflexivity. }
  rewrite Hm in H.
  destruct (Py.getitem land0 0) as [row0| |]; try discriminate.
  cbn [Py.rbind] in H.
  destruct (Py.size_arg nt) as [n| |]; try discriminate.
  cbn [Py.rbind] in H. injection H as <-.
  unfold Np.tile_rows in Hin. apply repeat_spec in Hin. subst row.
  eapply binding_length_min_run; eauto.
Qed.

(** The same call turns obstacles shorter than [bpmin] into free sites. *)
Example calculate_landscape_short_obstacle_freed :
  calculate_landscape "array" 1 1 1 0 2 1 24 1 2 1
  = Py.Ok [[1; 1;1;1; 1]%Q].
Proof. reflexivity. Qed.

End LandscapeFacts.

Module PyFacts.

Lemma getitem_no_timeout {A} (l : list A) (i : Z) :
  Py.getitem l i <> Py.Timeout.
Proof.
  unfold Py.getitem. destruct (Py.norm_index (length l) i); [|discriminate].
  destruct (nth_error l n); discriminate.
Qed.

(** A read that succeeds is inside the array, counting from either end. *)
Lemma getitem_ok_range {A} (l : list A) (i : Z) (v : A) :
  Py.getitem l i = Py.Ok v ->
  - Z.of_nat (length l) <= i < Z.of_nat (length l).
Proof.
  unfold Py.getitem, Py.norm_index.
  destruct ((0 <=? i) && (i <? Z.of_nat (length l))) eqn:E1.
  - intros _. apply andb_true_iff in E1. destruct E1 as [Ha Hb].
    apply Z.leb_le in Ha. apply Z.ltb_lt in Hb. lia.
  - destruct ((i <? 0) && (- Z.of_nat (length l) <=? i)) eqn:E2;
      [|discriminate].
    intros _. apply andb_true_iff in E2. destruct E2 as [Ha Hb].
    apply Z.ltb_lt in Ha. apply Z.leb_le in Hb. lia.
Qed.

Lemma int_of_float_no_timeout a : Py.int_of_float a <> Py.Timeout.
Proof. destruct a; discriminate. Qed.

Lemma size_arg_no_timeout n : Py.size_arg n <> Py.Timeout.
Proof. unfold Py.size_arg. destruct (n <? 0); discriminate. Qed.

End PyFacts.

Module FoldingFacts.
Import NpFloat Folding.

Section Facts.
Variable RS : Rand.RandomState.

(** C9. With origin 0 [folding] returns 0 for every landscape, without
    reading it and without drawing; with a non-zero origin whose landscape
    value is neither 0 nor 1 it returns the origin unchanged. *)
Theorem folding_origin_kept :
  (forall (landscape : list fl) (w : Rand.world RS),
      folding RS landscape 0 w = (Py.Ok 0, w))
  /\ (forall (landscape : list fl) (first_origin : Z) (v : fl)
             (w : Rand.world RS),
         first_origin <> 0 ->
         Py.getitem landscape first_origin = Py.Ok v ->
         fne v (of_Z 1) = true ->
         fne v (of_Z 0) = true ->
         folding RS landscape first_origin w = (Py.Ok first_origin, w)).
Proof.
  split.
  - reflexivity.
  - intros landscape fo v w Hfo Hv H1 H0.
    unfold folding. apply Z.eqb_neq in Hfo. rewrite Hfo.
    unfold Rand.bind, Rand.lift. rewrite Hv. cbv beta iota.
    rewrite H1, H0. unfold fne in H1, H0.
    apply negb_true_iff in H1, H0. rewrite H1, H0. reflexivity.
Qed.

(** The loops of [folding] end: the scan finds its value or leaves the
    array, within the budget that [folding] gives it. *)
Lemma scan_back_no_timeout fuel landscape base target :
  forall k (w : Rand.world RS),
    (1 <= fuel)%nat ->
    base - k + Z.of_nat (length landscape) + 2 <= Z.of_nat fuel ->
    fst (scan_back RS fuel landscape base k target w) <> Py.Timeout.
Proof.
  induction fuel as [|fuel IH]; intros k w Hpos Hfuel; [lia|].
  simpl. unfold Rand.bind, Rand.lift.
  destruct (Py.getitem landscape (base - k)) as [v|e|] eqn:Ev.
  - destruct (fne v target); [|discriminate].
    apply PyFacts.getitem_ok_range in Ev. apply IH; lia.
  - discriminate.
  - now apply PyFacts.getitem_no_timeout in Ev.
Qed.

Lemma scan_back_ge fuel landscape base target :
  forall k k' (w w' : Rand.world RS),
    scan_back RS fuel landscape base k target w = (Py.Ok k', w') -> k <= k'.
Proof.
  induction fuel as [|fuel IH]; intros k k' w w' H; [discriminate|].
  simpl in H. unfold Rand.bind, Rand.lift in H.
  destruct (Py.getitem landscape (base - k)) as [v|e|]; try discriminate.
  destruct (fne v target).
  - apply IH in H. lia.
  - unfold Rand.ret in H. injection H as <- _. lia.
Qed.

Theorem folding_no_timeout landscape first_origin (w : Rand.world RS) :
  fst (folding RS landscape first_origin w) <> Py.Timeout.
Proof.
  unfold folding. destruct (first_origin =? 0); [discriminate|].
  unfold Rand.bind at 1. unfold Rand.lift at 1.
  destruct (Py.getitem landscape first_origin) as [v1|e|] eqn:E1;
    [|discriminate|now apply PyFacts.getitem_no_timeout in E1].
  apply PyFacts.getitem_ok_range in E1.
  unfold Rand.bind at 1.
  destruct (feq v1 (of_Z 0)).
  - unfold Rand.bind at 1.
    pose proof (scan_back_no_timeout (scan_budget landscape) landscape
                  first_origin (of_Z 1) 1 w) as Hs1.
    destruct (scan_back RS (scan_budget landscape) landscape first_origin 1
                        (of_Z 1) w) as [[bo|e|] w1] eqn:Es1.
    + apply scan_back_ge in Es1. unfold Rand.bind at 1.
      pose proof (scan_back_no_timeout (scan_budget landscape) landscape
                    (first_origin - bo) (of_Z 0) 1 w1) as Hs2.
      destruct (scan_back RS (scan_budget landscape) landscape
                          (first_origin - bo) 1 (of_Z 0) w1)
        as [[bl|e|] w2] eqn:Es2.
      * unfold Rand.bind at 1, Rand.np_random_randint.
        destruct (first_origin - bo <=? first_origin - (bo + bl));
          [discriminate|].
        destruct (Rand.randint RS _ _ (Rand.rng w2)). discriminate.
      * discriminate.
      * exfalso. apply Hs2; unfold scan_budget; [lia|lia|reflexivity].
    + discriminate.
    + exfalso. apply Hs1; unfold scan_budget; [lia|lia|reflexivity].
  - unfold Rand.ret.
    destruct (if feq v1 (of_Z 1) then Some first_origin
              else if fne v1 (of_Z 1) && fne v1 (of_Z 0)
                   then Some first_origin else None); discriminate.
Qed.

End Facts.

Lemma folding_origin_kept_witness :
  let RS := Scripted.generator [1#2]%Q in
  let w := Scripted.world [1#2]%Q in
  let landscape := [Fin 0; Fin 1; Fin (1#2)] in
  folding RS landscape 0 w = (Py.Ok 0, w)
  /\ 2 <> 0
  /\ Py.getitem landscape 2 = Py.Ok (Fin (1#2))
  /\ fne (Fin (1#2)) (of_Z 1) = true
  /\ fne (Fin (1#2)) (of_Z 0) = true
  /\ folding RS landscape 2 w = (Py.Ok 2, w).
Proof.
  cbv zeta.
  destruct (folding_origin_kept (Scripted.generator [1#2]%Q)) as [H0 H1].
  assert (Hne : 2 <> 0) by discriminate.
  assert (Hv : Py.getitem [Fin 0; Fin 1; Fin (1#2)] 2 = Py.Ok (Fin (1#2)))
    by reflexivity.
  assert (Ha : fne (Fin (1#2)) (of_Z 1) = true) by reflexivity.
  assert (Hb : fne (Fin (1#2)) (of_Z 0) = true) by reflexivity.
  split; [apply H0|]. split; [exact Hne|]. split; [exact Hv|].
  split; [exact Ha|]. split; [exact Hb|].
  exact (H1 _ 2 _ (Scripted.world [1#2]%Q) Hne Hv Ha Hb).
Defined.

End FoldingFacts.


(** ** Computations whose outcome is fixed by the generator state *)

Module RandFacts.
Import Spec.

Section Determined.
Variable RS : Rand.RandomState.

Notation agree := (agree RS).
Notation seed_determined := (seed_determined RS).
Notation settled := (settled RS).
Notation never_timeout := (never_timeout RS).


Lemma sd_ret {A} (a : A) : seed_determined (Rand.ret a).
Proof. intros w1 w2 H. now split. Qed.

Lemma sd_lift {A} (r : Py.result A) : seed_determined (Rand.lift r).
Proof. intros w1 w2 H. now split. Qed.

Lemma sd_raise {A} e : seed_determined (@Rand.raise RS A e).
Proof. apply sd_lift. Qed.

Lemma sd_timeout {A} : seed_determined (@Rand.timeout RS A).
Proof. apply sd_lift. Qed.

Lemma sd_bind {A B} (c : Rand.M RS A) (k : A -> Rand.M RS B) :
  seed_determined c ->
  (forall a, seed_determined (k a)) ->
  seed_determined (Rand.bind c k).
Proof.
  intros Hc Hk w1 w2 H. unfold Rand.bind.
  destruct (Hc w1 w2 H) as [Hv Hw].
  destruct (c w1) as [r1 w1'], (c w2) as [r2 w2']. simpl in Hv, Hw. subst r2.
  destruct r1 as [a|e|]; [now apply Hk|now split|now split].
Qed.

Lemma sd_rand : seed_determined (Rand.np_random_rand RS).
Proof.
  intros w1 w2 H. unfold Rand.np_random_rand. unfold agree in H. rewrite H.
  destruct (Rand.random_sample RS (Rand.rng w2)). now split.
Qed.

Lemma sd_randint low high : seed_determined (Rand.np_random_randint RS low high).
Proof.
  intros w1 w2 H. unfold Rand.np_random_randint. unfold agree in H. rewrite H.
  destruct (high <=? low); [now split|].
  destruct (Rand.randint RS low high (Rand.rng w2)). now split.
Qed.

Lemma sd_seed k : seed_determined (Rand.np_random_seed RS k).
Proof. intros w1 w2 H. now split. Qed.

Lemma sd_choice a p : seed_determined (Rand.np_random_choice RS a p).
Proof.
  unfold Rand.np_random_choice. destruct a; [apply sd_raise|].
  destruct (negb _); [apply sd_raise|].
  destruct (Rand.finite_values p); [|apply sd_raise].
  destruct (existsb _ _); [apply sd_raise|].
  destruct (NpFloat.Qltb _ _); [apply sd_raise|].
  apply sd_bind; [apply sd_rand|].
  intros [u| | |]; first [apply sd_lift|apply sd_raise].
Qed.

(** After [np.random.seed(k)] the outcome of a seed-determined computation
    does not depend on the world it started in. *)
Lemma seeded_run_unique {A} (c : Rand.M RS A) (k : Z) :
  seed_determined c ->
  forall wa wb,
    fst (Rand.bind (Rand.np_random_seed RS k) (fun _ => c) wa)
    = fst (Rand.bind (Rand.np_random_seed RS k) (fun _ => c) wb).
Proof.
  intros Hc wa wb. unfold Rand.bind, Rand.np_random_seed.
  now apply Hc.
Qed.

(** ** Budgets *)

Lemma settled_refl {A} (c : Rand.M RS A) : settled c c.
Proof. intros w _. reflexivity. Qed.

Lemma settled_bind {A B} (c c' : Rand.M RS A) (k k' : A -> Rand.M RS B) :
  settled c c' ->
  (forall a, settled (k a) (k' a)) ->
  settled (Rand.bind c k) (Rand.bind c' k').
Proof.
  intros Hc Hk w H. unfold Rand.bind in *.
  destruct (c w) as [[a|e|] w1] eqn:E.
  - rewrite (Hc w) by (rewrite E; discriminate). rewrite E. now apply Hk.
  - rewrite (Hc w) by (rewrite E; discriminate). now rewrite E.
  - now contradiction H.
Qed.

Lemma nt_ret {A} (a : A) : never_timeout (Rand.ret a).
Proof. intros w. discriminate. Qed.

Lemma nt_lift {A} (r : Py.result A) :
  r <> Py.Timeout -> never_timeout (@Rand.lift RS A r).
Proof. intros H w. exact H. Qed.

Lemma nt_rand : never_timeout (Rand.np_random_rand RS).
Proof.
  intros w. unfold Rand.np_random_rand.
  destruct (Rand.random_sample RS (Rand.rng w)). discriminate.
Qed.

Lemma nt_bind {A B} (c : Rand.M RS A) (k : A -> Rand.M RS B) :
  never_timeout c ->
  (forall a, never_timeout (k a)) ->
  never_timeout (Rand.bind c k).
Proof.
  intros Hc Hk w. unfold Rand.bind. specialize (Hc w).
  destruct (c w) as [[a|e|] w1]; [apply Hk|discriminate|].
  now contradiction Hc.
Qed.

(** ** Inversion of successful runs *)

Lemma bind_ok {A B} (c : Rand.M RS A) (k : A -> Rand.M RS B) w b w' :
  Rand.bind c k w = (Py.Ok b, w') ->
  exists a w1, c w = (Py.Ok a, w1) /\ k a w1 = (Py.Ok b, w').
Proof.
  unfold Rand.bind. destruct (c w) as [[a|e|] w1]; try discriminate.
  intros H. now exists a, w1.
Qed.

Lemma lift_ok {A} (r : Py.result A) (w : Rand.world RS) a w' :
  Rand.lift r w = (Py.Ok a, w') -> r = Py.Ok a /\ w' = w.
Proof. unfold Rand.lift. intros H. now injection H as -> ->. Qed.

Lemma ret_ok {A} (a b : A) (w : Rand.world RS) w' :
  Rand.ret a w = (Py.Ok b, w') -> b = a /\ w' = w.
Proof. unfold Rand.ret. intros H. now injection H as -> ->. Qed.

End Determined.

End RandFacts.

Module EngineFacts.
Import NpFloat Engine PyFacts Spec.

(** ** Choice of the reaction *)

Section Reaction.
Variables (beta_x : fl) (alpha_row p : list fl) (r_tot r0 : fl) (Lmax x : Z).

Notation cum := (cumulative beta_x alpha_row p x).
Notation walked := (walked beta_x alpha_row p r_tot r0 x).


Lemma cumulative_S k :
  cum (S k)
  = Py.rbind (cum k) (fun c =>
    Py.rbind (Py.getitem p (Z.of_nat (S k))) (fun pd =>
    Py.rbind (Py.getitem alpha_row (x + Z.of_nat (S k))) (fun ad =>
    Py.Ok (fadd c (fmul pd ad))))).
Proof. reflexivity. Qed.

Lemma cumulative_succ d c pd ad :
  0 <= d ->
  cum (Z.to_nat d) = Py.Ok c ->
  Py.getitem p (d + 1) = Py.Ok pd ->
  Py.getitem alpha_row (x + (d + 1)) = Py.Ok ad ->
  cum (Z.to_nat (d + 1)) = Py.Ok (fadd c (fmul pd ad)).
Proof.
  intros Hd Hc Hp Ha.
  replace (Z.to_nat (d + 1)) with (S (Z.to_nat d)) by lia.
  rewrite cumulative_S, Hc. unfold Py.rbind at 1.
  replace (Z.of_nat (S (Z.to_nat d))) with (d + 1) by lia.
  now rewrite Hp, Ha.
Qed.

Lemma jump_walk_spec fuel :
  forall di rp di' rp',
    walked di rp ->
    jump_walk fuel alpha_row p r_tot r0 Lmax x di rp = Py.Ok (di', rp') ->
    walked di' rp'
    /\ di <= di'
    /\ (flt (fdiv rp' r_tot) r0 = false \/ Lmax - 1 - x <= di').
Proof.
  assert (Hstop : forall di rp di' rp',
             walked di rp ->
             (if flt (fdiv rp r_tot) r0 && (di <? Lmax - 1 - x)
              then Py.Timeout else Py.Ok (di, rp)) = Py.Ok (di', rp') ->
             walked di' rp' /\ di <= di'
             /\ (flt (fdiv rp' r_tot) r0 = false \/ Lmax - 1 - x <= di')).
  { intros di rp di' rp' Hw Hrun.
    destruct (flt (fdiv rp r_tot) r0) eqn:Elt; simpl in Hrun.
    - destruct (di <? Lmax - 1 - x) eqn:Eb; [discriminate|].
      injection Hrun as <- <-. apply Z.ltb_ge in Eb.
      split; [exact Hw|split; [lia|right; exact Eb]].
    - injection Hrun as <- <-.
      split; [exact Hw|split; [lia|left; exact Elt]]. }
  induction fuel as [|fuel IH]; intros di rp di' rp' Hw Hrun.
  - now apply (Hstop di rp).
  - simpl in Hrun.
    destruct (flt (fdiv rp r_tot) r0 && (di <? Lmax - 1 - x)) eqn:Econd.
    + destruct (Py.getitem p (di + 1)) as [pd| |] eqn:Ep; try discriminate.
      destruct (Py.getitem alpha_row (x + (di + 1))) as [ad| |] eqn:Ea;
        try discriminate.
      simpl in Hrun. destruct Hw as (H1 & Hc & Hbelow).
      apply andb_true_iff in Econd. destruct Econd as [Elt _].
      apply IH in Hrun.
      * destruct Hrun as (Hw' & Hle & Hst).
        split; [exact Hw'|split; [lia|exact Hst]].
      * split; [lia|split].
        -- apply cumulative_succ; auto; lia.
        -- intros d Hd. destruct (Z.eq_dec d di) as [->|Hne].
           ++ now exists rp.
           ++ apply Hbelow. lia.
    + apply (Hstop di rp); [exact Hw|now rewrite Econd].
Qed.

Lemma choose_jump_spec di rp :
  choose_jump beta_x alpha_row p r_tot r0 Lmax x = Py.Ok (di, rp) ->
  walked di rp
  /\ (flt (fdiv rp r_tot) r0 = false \/ Lmax - 1 - x <= di).
Proof.
  unfold choose_jump. intros Hrun.
  destruct (Py.getitem p 1) as [pd| |] eqn:Ep; try discriminate.
  destruct (Py.getitem alpha_row (x + 1)) as [ad| |] eqn:Ea; try discriminate.
  simpl in Hrun. apply jump_walk_spec in Hrun.
  - destruct Hrun as (Hw & _ & Hstop). now split.
  - repeat split; [lia| |intros d Hd; lia].
    change (Z.to_nat 1) with 1%nat. rewrite cumulative_S.
    change (Z.of_nat 1) with 1. simpl cumulative. unfold Py.rbind at 1.
    now rewrite Ep, Ea.
Qed.

(** The walk never uses up its budget. *)
Lemma jump_walk_no_timeout fuel :
  forall di rp,
    Lmax - 1 - x - di <= Z.of_nat fuel ->
    jump_walk fuel alpha_row p r_tot r0 Lmax x di rp <> Py.Timeout.
Proof.
  induction fuel as [|fuel IH]; intros di rp Hfuel; simpl.
  - destruct (flt (fdiv rp r_tot) r0); simpl; [|discriminate].
    destruct (di <? Lmax - 1 - x) eqn:Eb; [|discriminate].
    apply Z.ltb_lt in Eb. lia.
  - destruct (flt (fdiv rp r_tot) r0); simpl; [|discriminate].
    destruct (di <? Lmax - 1 - x) eqn:Eb; [|discriminate].
    destruct (Py.getitem p (di + 1)) eqn:Ep; simpl; [|discriminate|].
    + destruct (Py.getitem alpha_row (x + (di + 1))) eqn:Ea; simpl;
        [|discriminate|].
      * apply IH. lia.
      * now apply getitem_no_timeout in Ea.
    + now apply getitem_no_timeout in Ep.
Qed.

Lemma choose_jump_no_timeout :
  choose_jump beta_x alpha_row p r_tot r0 Lmax x <> Py.Timeout.
Proof.
  unfold choose_jump.
  destruct (Py.getitem p 1) eqn:Ep; simpl; [|discriminate|].
  - destruct (Py.getitem alpha_row (x + 1)) eqn:Ea; simpl; [|discriminate|].
    + apply jump_walk_no_timeout. lia.
    + now apply getitem_no_timeout in Ea.
  - now apply getitem_no_timeout in Ep.
Qed.

End Reaction.

(** A selected jump comes from the walk. *)
Lemma jump_walked beta_x alpha_row p r_tot r0 Lmax origin x di :
  choose_reaction beta_x alpha_row p r_tot r0 Lmax origin x = Py.Ok (Jump di) ->
  exists rp, Spec.walked beta_x alpha_row p r_tot r0 x di rp
             /\ (flt (fdiv rp r_tot) r0 = false \/ Lmax - 1 - x <= di).
Proof.
  unfold choose_reaction. intros H.
  destruct (flt r0 (fdiv beta_x r_tot)); [discriminate|].
  destruct (Lmax - origin <=? x); [discriminate|].
  destruct (choose_jump beta_x alpha_row p r_tot r0 Lmax x) as [[di' rp]| |] eqn:Ej;
    try discriminate.
  simpl in H. injection H as <-. exists rp. now apply choose_jump_spec.
Qed.

Lemma jump_in_position_walked beta_x alpha_row p r_tot r0 l_max x di :
  choose_reaction_in_position beta_x alpha_row p r_tot r0 l_max x
  = Py.Ok (Jump di) ->
  exists rp, Spec.walked beta_x alpha_row p r_tot r0 x di rp
             /\ (flt (fdiv rp r_tot) r0 = false \/ l_max - 1 - x <= di).
Proof.
  unfold choose_reaction_in_position. intros H.
  destruct (flt r0 (fdiv beta_x r_tot)); [discriminate|].
  destruct (choose_jump beta_x alpha_row p r_tot r0 l_max x) as [[di' rp]| |] eqn:Ej;
    try discriminate.
  simpl in H. injection H as <-. exists rp. now apply choose_jump_spec.
Qed.

(** C5, as the code has it.  The unhooking reaction is selected exactly
    when the variate is strictly below [beta/r_tot]; it is not selected at
    equality.  When a jump of [di] sites is selected, in either engine, the
    running cumulative share stayed below the variate at every distance
    before [di], and at [di] it is not below the variate unless the walk was
    stopped by the end of the array ([di >= Lmax-1-x]). *)
Theorem reaction_selection (beta_x : fl) (alpha_row p : list fl)
        (r_tot r0 : fl) (Lmax origin x : Z) :
  (choose_reaction beta_x alpha_row p r_tot r0 Lmax origin x = Py.Ok Unhook
   <-> flt r0 (fdiv beta_x r_tot) = true)
  /\ (choose_reaction_in_position beta_x alpha_row p r_tot r0 Lmax x = Py.Ok Unhook
      <-> flt r0 (fdiv beta_x r_tot) = true)
  /\ (feq r0 (fdiv beta_x r_tot) = true ->
      choose_reaction beta_x alpha_row p r_tot r0 Lmax origin x <> Py.Ok Unhook
      /\ choose_reaction_in_position beta_x alpha_row p r_tot r0 Lmax x
         <> Py.Ok Unhook)
  /\ (forall di,
         choose_reaction beta_x alpha_row p r_tot r0 Lmax origin x = Py.Ok (Jump di)
         \/ choose_reaction_in_position beta_x alpha_row p r_tot r0 Lmax x
            = Py.Ok (Jump di) ->
         1 <= di
         /\ (forall d, 1 <= d < di ->
               exists c, cumulative beta_x alpha_row p x (Z.to_nat d) = Py.Ok c
                         /\ flt (fdiv c r_tot) r0 = true)
         /\ exists rp, cumulative beta_x alpha_row p x (Z.to_nat di) = Py.Ok rp
                       /\ (flt (fdiv rp r_tot) r0 = false \/ Lmax - 1 - x <= di)).
Proof.
  assert (Hjump : forall r,
             (dr <- choose_jump beta_x alpha_row p r_tot r0 Lmax x ;;
              Py.Ok (Jump (fst dr)))%result = Py.Ok r ->
             exists di rp, r = Jump di
               /\ choose_jump beta_x alpha_row p r_tot r0 Lmax x = Py.Ok (di, rp)).
  { intros r H.
    destruct (choose_jump beta_x alpha_row p r_tot r0 Lmax x) as [[di rp]| |];
      try discriminate.
    injection H as <-. now exists di, rp. }
  assert (Hu1 : choose_reaction beta_x alpha_row p r_tot r0 Lmax origin x = Py.Ok Unhook
                <-> flt r0 (fdiv beta_x r_tot) = true).
  { unfold choose_reaction. destruct (flt r0 (fdiv beta_x r_tot)); split; auto;
      intros H; try discriminate.
    destruct (Lmax - origin <=? x); [discriminate|].
    apply Hjump in H. destruct H as (di & rp & H & _). discriminate. }
  assert (Hu2 : choose_reaction_in_position beta_x alpha_row p r_tot r0 Lmax x
                = Py.Ok Unhook
                <-> flt r0 (fdiv beta_x r_tot) = true).
  { unfold choose_reaction_in_position.
    destruct (flt r0 (fdiv beta_x r_tot)); split; auto; intros H; try discriminate.
    apply Hjump in H. destruct H as (di & rp & H & _). discriminate. }
  split; [exact Hu1|]. split; [exact Hu2|]. split.
  - intros Heq.
    assert (Hlt : flt r0 (fdiv beta_x r_tot) = false).
    { destruct r0 as [a| | |], (fdiv beta_x r_tot) as [b| | |];
        simpl in *; try discriminate; try reflexivity.
      unfold Qltb. apply Qeq_bool_eq in Heq.
      apply negb_false_iff, Qle_bool_iff. rewrite Heq. apply Qle_refl. }
    split; intros H; [apply Hu1 in H|apply Hu2 in H]; congruence.
  - intros di H.
    assert (Hc : exists rp,
               choose_jump beta_x alpha_row p r_tot r0 Lmax x = Py.Ok (di, rp)).
    { destruct H as [H|H].
      - unfold choose_reaction in H.
        destruct (flt r0 (fdiv beta_x r_tot)); [discriminate|].
        destruct (Lmax - origin <=? x); [discriminate|].
        apply Hjump in H. destruct H as (di' & rp & Hd & H).
        injection Hd as ->. now exists rp.
      - unfold choose_reaction_in_position in H.
        destruct (flt r0 (fdiv beta_x r_tot)); [discriminate|].
        apply Hjump in H. destruct H as (di' & rp & Hd & H).
        injection Hd as ->. now exists rp. }
    destruct Hc as [rp Hc]. apply choose_jump_spec in Hc.
    destruct Hc as ((H1 & Hcum & Hbelow) & Hstop).
    split; [exact H1|]. split; [exact Hbelow|]. now exists rp.
Qed.

(** A step of [gillespie_algorithm_one_step] where the variate is exactly
    [beta/r_tot]: [beta = 1/2], [p[1] * alpha[1] = 1/2], so [r_tot = 1], and
    [r0 = 1/2].  The jump of one site is selected, not the unhooking. *)
Lemma stall_not_selected_at_boundary :
  let beta_row := [Fin (1#2); Fin (1#2); Fin (1#2)] in
  let alpha_row := [Fin 1; Fin 1; Fin 1] in
  let p := [Fin 0; Fin (1#2); Fin 0] in
  let r0 := Fin (1#2) in
  exists r_tot,
    total_rate beta_row alpha_row p 3 0 = Py.Ok r_tot
    /\ feq r0 (fdiv (Fin (1#2)) r_tot) = true
    /\ choose_reaction (Fin (1#2)) alpha_row p r_tot r0 3 0 0 = Py.Ok (Jump 1)
    /\ choose_reaction_in_position (Fin (1#2)) alpha_row p r_tot r0 3 0
       = Py.Ok (Jump 1).
Proof.
  cbv zeta. eexists. split; [reflexivity|]. now vm_compute.
Qed.

Lemma reaction_selection_witness :
  let alpha_row := [Fin 1; Fin 1; Fin 1] in
  let p := [Fin 0; Fin (1#2); Fin 0] in
  feq (Fin (1#2)) (fdiv (Fin (1#2)) (Fin 1)) = true
  /\ choose_reaction (Fin (1#2)) alpha_row p (Fin 1) (Fin (1#2)) 3 0 0
     <> Py.Ok Unhook
  /\ choose_reaction (Fin (1#2)) alpha_row p (Fin 1) (Fin (1#2)) 3 0 0
     = Py.Ok (Jump 1)
  /\ 1 <= 1.
Proof.
  cbv zeta.
  pose proof (reaction_selection (Fin (1#2)) [Fin 1; Fin 1; Fin 1]
                [Fin 0; Fin (1#2); Fin 0] (Fin 1) (Fin (1#2)) 3 0 0)
    as (_ & _ & Hb & Hj).
  assert (He : feq (Fin (1#2)) (fdiv (Fin (1#2)) (Fin 1)) = true) by reflexivity.
  assert (Hr : choose_reaction (Fin (1#2)) [Fin 1; Fin 1; Fin 1]
                 [Fin 0; Fin (1#2); Fin 0] (Fin 1) (Fin (1#2)) 3 0 0
               = Py.Ok (Jump 1)) by reflexivity.
  split; [exact He|]. split; [exact (proj1 (Hb He))|]. split; [exact Hr|].
  exact (proj1 (Hj 1 (or_introl Hr))).
Defined.

(** ** Runs of the engines *)

Ltac sd_step RS :=
  match goal with
  | |- Spec.seed_determined RS (Rand.bind _ _) =>
      apply RandFacts.sd_bind; [|intros ?]
  | |- Spec.seed_determined RS (Rand.ret _) => apply RandFacts.sd_ret
  | |- Spec.seed_determined RS (Rand.lift _) => apply RandFacts.sd_lift
  | |- Spec.seed_determined RS (Rand.raise _) => apply RandFacts.sd_raise
  | |- Spec.seed_determined RS Rand.timeout => apply RandFacts.sd_timeout
  | |- Spec.seed_determined RS (Rand.np_random_rand _) =>
      apply RandFacts.sd_rand
  | |- Spec.seed_determined RS (Rand.np_random_randint _ _ _) =>
      apply RandFacts.sd_randint
  | |- Spec.seed_determined RS (Rand.np_random_choice _ _ _) =>
      apply RandFacts.sd_choice
  | |- Spec.seed_determined RS (if ?b then _ else _) => destruct b
  | |- Spec.seed_determined RS (match ?x with _ => _ end) => destruct x
  end.

(** Inversion of a successful [bind]. *)
Ltac bind_inv H a w Ha :=
  apply RandFacts.bind_ok in H; destruct H as (a & w & Ha & H).

Section Runs.
Variable RS : Rand.RandomState.
Variable ln : Q -> Q.

Notation seed_determined := (Spec.seed_determined RS).

Lemma sd_scan_back fuel landscape base target :
  forall k, seed_determined (Folding.scan_back RS fuel landscape base k target).
Proof.
  induction fuel as [|fuel IH]; intros k; simpl.
  - apply RandFacts.sd_timeout.
  - repeat sd_step RS. apply IH.
Qed.

Lemma sd_folding landscape first_origin :
  seed_determined (Folding.folding RS landscape first_origin).
Proof.
  unfold Folding.folding.
  repeat first [apply sd_scan_back | sd_step RS].
Qed.

Lemma sd_for_each {A} (body : nat -> Rand.M RS A) idxs :
  (forall i, seed_determined (body i)) ->
  seed_determined (for_each RS body idxs).
Proof.
  intros Hb. induction idxs as [|i rest IH]; simpl.
  - apply RandFacts.sd_ret.
  - repeat sd_step RS; auto.
Qed.

Lemma sd_one_step_iteration tmax dt alpha_row beta_row p Lmax origin ox st :
  seed_determined
    (one_step_iteration RS ln tmax dt alpha_row beta_row p Lmax origin ox st).
Proof. unfold one_step_iteration. repeat sd_step RS. Qed.

Lemma sd_one_step_loop fuel tmax dt alpha_row beta_row p Lmax origin ox :
  forall st,
    seed_determined
      (one_step_loop RS ln fuel tmax dt alpha_row beta_row p Lmax origin ox st).
Proof.
  induction fuel as [|fuel IH]; intros st; simpl.
  - repeat sd_step RS.
  - destruct (flt (t st) (Fin tmax)); [|apply RandFacts.sd_ret].
    apply RandFacts.sd_bind; [apply sd_one_step_iteration|].
    intros sb. destruct (snd sb); [apply IH|apply RandFacts.sd_ret].
Qed.

Lemma sd_gillespie_algorithm_one_step fuel nt tmax dt alpha_matrix beta
      Lmax lenght origin p :
  seed_determined
    (gillespie_algorithm_one_step RS ln fuel nt tmax dt alpha_matrix beta
                                  Lmax lenght origin p).
Proof.
  unfold gillespie_algorithm_one_step.
  repeat first [apply sd_for_each; intros ? | sd_step RS].
  unfold one_step_trajectory.
  repeat first [apply sd_folding | apply sd_one_step_loop | sd_step RS].
Qed.

Lemma sd_in_position_iteration alpha_row beta_row p l_max x_max origin st :
  seed_determined
    (in_position_iteration RS ln alpha_row beta_row p l_max x_max origin st).
Proof. unfold in_position_iteration. repeat sd_step RS. Qed.

Lemma sd_in_position_loop fuel alpha_row beta_row p l_max x_max origin :
  forall st,
    seed_determined
      (in_position_loop RS ln fuel alpha_row beta_row p l_max x_max origin st).
Proof.
  induction fuel as [|fuel IH]; intros st; simpl.
  - repeat sd_step RS.
  - destruct (x st <? x_max); [|apply RandFacts.sd_ret].
    apply RandFacts.sd_bind; [apply sd_in_position_iteration|].
    intros sb. destruct (snd sb); [apply IH|apply RandFacts.sd_ret].
Qed.

Lemma sd_gillespie_algorithm_in_position fuel lenght l_max x_max origin
      alpha_matrix p beta nt :
  seed_determined
    (gillespie_algorithm_in_position RS ln fuel lenght l_max x_max origin
                                     alpha_matrix p beta nt).
Proof.
  unfold gillespie_algorithm_in_position.
  repeat first [apply sd_for_each; intros ? | sd_step RS].
  unfold in_position_trajectory.
  repeat first [apply sd_folding | apply sd_in_position_loop | sd_step RS].
Qed.

Lemma sd_two_steps_iteration tmax dt alpha_row p lmbda rtot_bind rtot_rest
      L origin ox st :
  seed_determined
    (two_steps_iteration RS ln tmax dt alpha_row p lmbda rtot_bind rtot_rest
                         L origin ox st).
Proof.
  unfold two_steps_iteration, two_steps_bind, two_steps_rest.
  repeat sd_step RS.
Qed.

Lemma sd_two_steps_loop fuel tmax dt alpha_row p lmbda rtot_bind rtot_rest
      L origin ox :
  forall st,
    seed_determined
      (two_steps_loop RS ln fuel tmax dt alpha_row p lmbda rtot_bind rtot_rest
                      L origin ox st).
Proof.
  induction fuel as [|fuel IH]; intros st; simpl.
  - repeat sd_step RS.
  - destruct (flt (t st) (Fin tmax)); [|apply RandFacts.sd_ret].
    apply RandFacts.sd_bind; [apply sd_two_steps_iteration|].
    intros sb. destruct (snd sb); [apply IH|apply RandFacts.sd_ret].
Qed.

Lemma sd_gillespie_algorithm_two_steps fuel alpha_matrix p beta lmbda
      rtot_bind rtot_rest nt tmax dt L origin :
  seed_determined
    (gillespie_algorithm_two_steps RS ln fuel alpha_matrix p beta lmbda
                                   rtot_bind rtot_rest nt tmax dt L origin).
Proof.
  unfold gillespie_algorithm_two_steps.
  repeat first [apply sd_for_each; intros ? | sd_step RS].
  unfold two_steps_trajectory.
  repeat first [apply sd_folding | apply sd_two_steps_loop | sd_step RS].
Qed.

(** ** The budget of turns

    A run that ends within its budget ends the same way with any larger
    budget: the outcome of the engine does not depend on the budget once
    it is large enough. *)

Lemma one_step_loop_settled fuel tmax dt alpha_row beta_row p Lmax origin ox :
  forall fuel' st,
    (fuel <= fuel')%nat ->
    settled RS
      (one_step_loop RS ln fuel tmax dt alpha_row beta_row p Lmax origin ox st)
      (one_step_loop RS ln fuel' tmax dt alpha_row beta_row p Lmax origin ox st).
Proof.
  induction fuel as [|fuel IH]; intros fuel' st Hle.
  - intros w H. simpl in *. destruct fuel'; simpl;
      destruct (flt (t st) (Fin tmax)); try reflexivity; now contradiction H.
  - destruct fuel' as [|fuel']; [lia|]. simpl.
    destruct (flt (t st) (Fin tmax)); [|apply RandFacts.settled_refl].
    apply RandFacts.settled_bind; [apply RandFacts.settled_refl|].
    intros sb. destruct (snd sb); [apply IH; lia|apply RandFacts.settled_refl].
Qed.

Lemma in_position_loop_settled fuel alpha_row beta_row p l_max x_max origin :
  forall fuel' st,
    (fuel <= fuel')%nat ->
    settled RS
      (in_position_loop RS ln fuel alpha_row beta_row p l_max x_max origin st)
      (in_position_loop RS ln fuel' alpha_row beta_row p l_max x_max origin st).
Proof.
  induction fuel as [|fuel IH]; intros fuel' st Hle.
  - intros w H. simpl in *. destruct fuel'; simpl;
      destruct (x st <? x_max); try reflexivity; now contradiction H.
  - destruct fuel' as [|fuel']; [lia|]. simpl.
    destruct (x st <? x_max); [|apply RandFacts.settled_refl].
    apply RandFacts.settled_bind; [apply RandFacts.settled_refl|].
    intros sb. destruct (snd sb); [apply IH; lia|apply RandFacts.settled_refl].
Qed.

Lemma for_each_settled {A} (body body' : nat -> Rand.M RS A) idxs :
  (forall i, settled RS (body i) (body' i)) ->
  settled RS (for_each RS body idxs) (for_each RS body' idxs).
Proof.
  intros Hb. induction idxs as [|i rest IH]; simpl.
  - apply RandFacts.settled_refl.
  - apply RandFacts.settled_bind; [apply Hb|]. intros a.
    apply RandFacts.settled_bind; [apply IH|]. intros more.
    apply RandFacts.settled_refl.
Qed.

Lemma one_step_budget fuel fuel' nt tmax dt alpha_matrix beta Lmax lenght
      origin p :
  (fuel <= fuel')%nat ->
  settled RS
    (gillespie_algorithm_one_step RS ln fuel nt tmax dt alpha_matrix beta
                                  Lmax lenght origin p)
    (gillespie_algorithm_one_step RS ln fuel' nt tmax dt alpha_matrix beta
                                  Lmax lenght origin p).
Proof.
  intros Hle. unfold gillespie_algorithm_one_step.
  apply RandFacts.settled_bind; [apply RandFacts.settled_refl|intros ?].
  apply RandFacts.settled_bind; [apply RandFacts.settled_refl|intros ?].
  apply RandFacts.settled_bind; [apply RandFacts.settled_refl|intros ?].
  apply RandFacts.settled_bind; [|intros ?; apply RandFacts.settled_refl].
  apply for_each_settled. intros i. unfold one_step_trajectory.
  apply RandFacts.settled_bind; [apply RandFacts.settled_refl|intros ?].
  apply RandFacts.settled_bind; [apply RandFacts.settled_refl|intros ?].
  apply RandFacts.settled_bind; [apply RandFacts.settled_refl|intros ?].
  apply RandFacts.settled_bind; [|intros ?; apply RandFacts.settled_refl].
  now apply one_step_loop_settled.
Qed.

Lemma in_position_budget fuel fuel' lenght l_max x_max origin alpha_matrix
      p beta nt :
  (fuel <= fuel')%nat ->
  settled RS
    (gillespie_algorithm_in_position RS ln fuel lenght l_max x_max origin
                                     alpha_matrix p beta nt)
    (gillespie_algorithm_in_position RS ln fuel' lenght l_max x_max origin
                                     alpha_matrix p beta nt).
Proof.
  intros Hle. unfold gillespie_algorithm_in_position.
  apply RandFacts.settled_bind; [apply RandFacts.settled_refl|intros ?].
  apply RandFacts.settled_bind; [apply RandFacts.settled_refl|intros ?].
  apply RandFacts.settled_bind; [apply RandFacts.settled_refl|intros ?].
  apply RandFacts.settled_bind; [|intros ?; apply RandFacts.settled_refl].
  apply for_each_settled. intros i. unfold in_position_trajectory.
  apply RandFacts.settled_bind; [apply RandFacts.settled_refl|intros ?].
  apply RandFacts.settled_bind; [apply RandFacts.settled_refl|intros ?].
  apply RandFacts.settled_bind; [apply RandFacts.settled_refl|intros ?].
  apply RandFacts.settled_bind; [|intros ?; apply RandFacts.settled_refl].
  now apply in_position_loop_settled.
Qed.

(** The loop of [gillespie_algorithm_in_position] ends: every turn that
    does not leave the loop moves [x] forward by at least one site, so
    [x_max - x] turns are enough. *)

Lemma np_mul_no_timeout a b : np_mul a b <> Py.Timeout.
Proof.
  unfold np_mul. destruct (Nat.eqb (length a) (length b)); [discriminate|].
  destruct a as [|s [|s' a]]; try discriminate;
    destruct b as [|y [|y' b]]; discriminate.
Qed.

Lemma total_rate_no_timeout beta_row alpha_row p Lmax x0 :
  total_rate beta_row alpha_row p Lmax x0 <> Py.Timeout.
Proof.
  unfold total_rate.
  destruct (Py.getitem beta_row x0) eqn:Eb; simpl; [|discriminate|].
  - destruct (np_mul _ _) eqn:Em; simpl; [discriminate|discriminate|].
    now apply np_mul_no_timeout in Em.
  - now apply getitem_no_timeout in Eb.
Qed.

Lemma choose_reaction_in_position_no_timeout beta_x alpha_row p r_tot r0
      l_max x0 :
  choose_reaction_in_position beta_x alpha_row p r_tot r0 l_max x0
  <> Py.Timeout.
Proof.
  unfold choose_reaction_in_position.
  destruct (flt r0 (fdiv beta_x r_tot)); [discriminate|].
  destruct (choose_jump beta_x alpha_row p r_tot r0 l_max x0) eqn:Ej; simpl;
    [discriminate|discriminate|].
  now apply choose_jump_no_timeout in Ej.
Qed.

Lemma in_position_iteration_never_timeout alpha_row beta_row p l_max x_max
      origin st :
  never_timeout RS
    (in_position_iteration RS ln alpha_row beta_row p l_max x_max origin st).
Proof.
  unfold in_position_iteration.
  apply RandFacts.nt_bind;
    [apply RandFacts.nt_lift, total_rate_no_timeout|intros r_tot].
  apply RandFacts.nt_bind; [apply RandFacts.nt_rand|intros u].
  apply RandFacts.nt_bind; [apply RandFacts.nt_rand|intros r0].
  apply RandFacts.nt_bind;
    [apply RandFacts.nt_lift, getitem_no_timeout|intros beta_x].
  apply RandFacts.nt_bind;
    [apply RandFacts.nt_lift, choose_reaction_in_position_no_timeout|intros r].
  destruct r; apply RandFacts.nt_ret.
Qed.

Lemma in_position_iteration_progress alpha_row beta_row p l_max x_max origin
      st st' w w' :
  in_position_iteration RS ln alpha_row beta_row p l_max x_max origin st w
  = (Py.Ok (st', true), w') ->
  x st + 1 <= x st'.
Proof.
  unfold in_position_iteration. intros H.
  apply RandFacts.bind_ok in H. destruct H as (r_tot & w1 & H1 & H).
  apply RandFacts.bind_ok in H. destruct H as (u & w2 & H2 & H).
  apply RandFacts.bind_ok in H. destruct H as (r0 & w3 & H3 & H).
  apply RandFacts.bind_ok in H. destruct H as (beta_x & w4 & H4 & H).
  apply RandFacts.bind_ok in H. destruct H as (r & w5 & H5 & H).
  apply RandFacts.lift_ok in H5. destruct H5 as [H5 _].
  destruct r as [| |di]; apply RandFacts.ret_ok in H; destruct H as [H _];
    try discriminate.
  injection H as ->. simpl.
  apply jump_in_position_walked in H5. destruct H5 as (rp & Hw & _).
  destruct Hw as (Hdi & _). lia.
Qed.

Lemma in_position_loop_terminates fuel alpha_row beta_row p l_max x_max origin :
  forall st w,
    x_max - x st <= Z.of_nat fuel ->
    fst (in_position_loop RS ln fuel alpha_row beta_row p l_max x_max origin
                          st w)
    <> Py.Timeout.
Proof.
  induction fuel as [|fuel IH]; intros st w Hfuel; simpl.
  - destruct (x st <? x_max) eqn:E; [|discriminate].
    apply Z.ltb_lt in E. lia.
  - destruct (x st <? x_max) eqn:E; [|discriminate].
    unfold Rand.bind.
    pose proof (in_position_iteration_never_timeout alpha_row beta_row p
                  l_max x_max origin st w) as Hnt.
    destruct (in_position_iteration RS ln alpha_row beta_row p l_max x_max
                                    origin st w) as [[[st' b]|e|] w1] eqn:Ei.
    + destruct b; simpl; [|discriminate].
      apply in_position_iteration_progress in Ei. apply IH. lia.
    + discriminate.
    + now contradiction Hnt.
Qed.

(** C8. After [np.random.seed(k)] with the same [k], two runs of the
    engine on the same arguments return the same outcome: the same
    [results] matrix and the same time and position series (or the same
    exception), whatever the two runs started from.  This holds for
    [gillespie_algorithm_one_step] and for
    [gillespie_algorithm_in_position]. *)
Theorem engine_reproducible (k : Z) (wa wb : Rand.world RS) :
  (forall fuel nt tmax dt alpha_matrix beta Lmax lenght origin p,
      fst (Rand.bind (Rand.np_random_seed RS k)
             (fun _ => gillespie_algorithm_one_step RS ln fuel nt tmax dt
                         alpha_matrix beta Lmax lenght origin p) wa)
      = fst (Rand.bind (Rand.np_random_seed RS k)
               (fun _ => gillespie_algorithm_one_step RS ln fuel nt tmax dt
                           alpha_matrix beta Lmax lenght origin p) wb))
  /\ (forall fuel lenght l_max x_max origin alpha_matrix p beta nt,
         fst (Rand.bind (Rand.np_random_seed RS k)
                (fun _ => gillespie_algorithm_in_position RS ln fuel lenght
                            l_max x_max origin alpha_matrix p beta nt) wa)
         = fst (Rand.bind (Rand.np_random_seed RS k)
                  (fun _ => gillespie_algorithm_in_position RS ln fuel lenght
                              l_max x_max origin alpha_matrix p beta nt) wb)).
Proof.
  split; intros.
  - apply RandFacts.seeded_run_unique, sd_gillespie_algorithm_one_step.
  - apply RandFacts.seeded_run_unique, sd_gillespie_algorithm_in_position.
Qed.

(** ** Infinite waiting times *)


Lemma clamp_time_not_inf a : isinf (clamp_time a) = false.
Proof. unfold clamp_time. destruct a; reflexivity. Qed.

Lemma next_time_not_inf a u r_tot : isinf (next_time ln a u r_tot) = false.
Proof. apply clamp_time_not_inf. Qed.

Lemma next_time_in_position_not_inf a u r_tot :
  isinf (next_time_in_position ln a u r_tot) = false.
Proof. apply clamp_time_not_inf. Qed.

(** The rest of the two-step variant clamps the sampled delay itself. *)
Lemma overflow_of_infinite a : isinf a = true -> overflow a = a.
Proof. now destruct a. Qed.

(** The binding attempt resets [t], not [t_bind]: an infinite sampled delay
    is added to the sentinel and the time that gets recorded is infinite. *)
Lemma bind_time_infinite a u rtot_bind :
  isinf (fdiv (fneg (np_log ln u)) (Fin rtot_bind)) = true ->
  isinf (bind_time ln a u rtot_bind) = true.
Proof.
  unfold bind_time. intros H. rewrite (overflow_of_infinite _ H).
  destruct (fdiv (fneg (np_log ln u)) (Fin rtot_bind)); try discriminate;
    reflexivity.
Qed.

Lemma not_infinite_snoc l a :
  not_infinite l -> isinf a = false -> not_infinite (l ++ [a]).
Proof.
  intros Hl Ha. apply Forall_app. split; [exact Hl|]. now constructor.
Qed.

Lemma one_step_iteration_times tmax dt alpha_row beta_row p Lmax origin ox
      st st' b w w' :
  one_step_iteration RS ln tmax dt alpha_row beta_row p Lmax origin ox st w
  = (Py.Ok (st', b), w') ->
  not_infinite (t_list st) -> not_infinite (t_list st').
Proof.
  unfold one_step_iteration. intros H Hl.
  bind_inv H r_tot w1 H1. bind_inv H u w2 H2. bind_inv H r0 w3 H3.
  bind_inv H beta_x w4 H4. bind_inv H r w5 H5.
  destruct r; bind_inv H ri w6 H6; apply RandFacts.ret_ok in H;
    destruct H as [H _]; injection H as -> _; simpl; auto.
  apply not_infinite_snoc; [exact Hl|apply next_time_not_inf].
Qed.

Lemma one_step_loop_times fuel tmax dt alpha_row beta_row p Lmax origin ox :
  forall st st' w w',
    one_step_loop RS ln fuel tmax dt alpha_row beta_row p Lmax origin ox st w
    = (Py.Ok st', w') ->
    not_infinite (t_list st) -> not_infinite (t_list st').
Proof.
  induction fuel as [|fuel IH]; intros st st' w w' H Hl; simpl in H.
  - destruct (flt (t st) (Fin tmax)); [discriminate|].
    apply RandFacts.ret_ok in H. destruct H as [-> _]. exact Hl.
  - destruct (flt (t st) (Fin tmax)).
    + bind_inv H sb w1 H1. destruct sb as [st1 b].
      apply one_step_iteration_times in H1; [|exact Hl]. simpl in H.
      destruct b.
      * now apply IH in H.
      * apply RandFacts.ret_ok in H. destruct H as [-> _]. exact H1.
    + apply RandFacts.ret_ok in H. destruct H as [-> _]. exact Hl.
Qed.

Lemma for_each_all {A} (P : A -> Prop) (body : nat -> Rand.M RS A) idxs :
  (forall i a w w', body i w = (Py.Ok a, w') -> P a) ->
  forall l w w', for_each RS body idxs w = (Py.Ok l, w') -> Forall P l.
Proof.
  intros Hb. induction idxs as [|i rest IH]; intros l w w' H; simpl in H.
  - apply RandFacts.ret_ok in H. destruct H as [-> _]. constructor.
  - bind_inv H a w1 H1. bind_inv H more w2 H2.
    apply RandFacts.ret_ok in H. destruct H as [-> _].
    constructor; [now apply Hb in H1|now apply IH in H2].
Qed.

(** In the single-step variant of [nucleo.py] no recorded time is
    infinite. *)
Lemma one_step_times_not_infinite fuel nt tmax dt alpha_matrix beta Lmax
      lenght origin p w w' results t_matrix x_matrix :
  gillespie_algorithm_one_step RS ln fuel nt tmax dt alpha_matrix beta Lmax
                               lenght origin p w
  = (Py.Ok (results, t_matrix, x_matrix), w') ->
  Forall not_infinite t_matrix.
Proof.
  unfold gillespie_algorithm_one_step. intros H.
  bind_inv H n_lenght w1 H1. bind_inv H n w2 H2. bind_inv H width w3 H3.
  bind_inv H trajs w4 H4. apply RandFacts.ret_ok in H. destruct H as [H _].
  injection H as _ -> _.
  apply Forall_map.
  eapply for_each_all; [|exact H4].
  intros i a wa wb Ha. unfold one_step_trajectory in Ha.
  bind_inv Ha alpha_row wc Hc. bind_inv Ha x0 wd Hd. bind_inv Ha row0 we He.
  bind_inv Ha st wf Hf. apply RandFacts.ret_ok in Ha. destruct Ha as [-> _].
  simpl. apply one_step_loop_times in Hf; [exact Hf|].
  simpl. repeat constructor.
Qed.

(** In the engine of [marcand.py] no recorded time and no entry of
    [results] is infinite. *)
Lemma fill_not_inf s e v l :
  isinf v = false -> not_infinite l -> not_infinite (Np.fill s e v l).
Proof.
  intros Hv Hl. revert s e.
  induction Hl as [|a l Ha Hl IH]; intros s e; simpl; [constructor|].
  destruct e; [constructor; assumption|].
  destruct s; constructor; auto; apply IH.
Qed.

Lemma set_nth_not_inf k v l :
  isinf v = false -> not_infinite l -> not_infinite (Py.set_nth k v l).
Proof.
  intros Hv Hl. revert k.
  induction Hl as [|a l Ha Hl IH]; intros k; simpl; [constructor|].
  destruct k; constructor; auto; apply IH.
Qed.

Lemma in_position_iteration_times alpha_row beta_row p l_max x_max origin
      st st' b w w' :
  in_position_iteration RS ln alpha_row beta_row p l_max x_max origin st w
  = (Py.Ok (st', b), w') ->
  not_infinite (t_list st) /\ not_infinite (row st) ->
  not_infinite (t_list st') /\ not_infinite (row st').
Proof.
  unfold in_position_iteration. intros H [Hl Hr].
  bind_inv H r_tot w1 H1. bind_inv H u w2 H2. bind_inv H r0 w3 H3.
  bind_inv H beta_x w4 H4. bind_inv H r w5 H5.
  pose proof (next_time_in_position_not_inf (t st) u r_tot) as Ht.
  destruct r; apply RandFacts.ret_ok in H; destruct H as [H _];
    injection H as -> _; simpl; split; auto;
    try (apply fill_not_inf; assumption).
  now apply not_infinite_snoc.
Qed.

Lemma in_position_loop_times fuel alpha_row beta_row p l_max x_max origin :
  forall st st' w w',
    in_position_loop RS ln fuel alpha_row beta_row p l_max x_max origin st w
    = (Py.Ok st', w') ->
    not_infinite (t_list st) /\ not_infinite (row st) ->
    not_infinite (t_list st') /\ not_infinite (row st').
Proof.
  induction fuel as [|fuel IH]; intros st st' w w' H Hl; simpl in H.
  - destruct (x st <? x_max); [discriminate|].
    apply RandFacts.ret_ok in H. destruct H as [-> _]. exact Hl.
  - destruct (x st <? x_max).
    + bind_inv H sb w1 H1. destruct sb as [st1 b].
      apply in_position_iteration_times in H1; [|exact Hl]. simpl in H.
      destruct b.
      * now apply IH in H.
      * apply RandFacts.ret_ok in H. destruct H as [-> _]. exact H1.
    + apply RandFacts.ret_ok in H. destruct H as [-> _]. exact Hl.
Qed.

Lemma in_position_times_not_infinite fuel lenght l_max x_max origin
      alpha_matrix p beta nt w w' results t_matrix x_matrix t_max :
  gillespie_algorithm_in_position RS ln fuel lenght l_max x_max origin
                                  alpha_matrix p beta nt w
  = (Py.Ok (results, t_matrix, x_matrix, t_max), w') ->
  Forall not_infinite t_matrix /\ Forall not_infinite results.
Proof.
  unfold gillespie_algorithm_in_position. intros H.
  bind_inv H n_lenght w1 H1. bind_inv H n w2 H2. bind_inv H width w3 H3.
  bind_inv H trajs w4 H4. bind_inv H maxima w5 H5. bind_inv H tm w6 H6.
  apply RandFacts.ret_ok in H. destruct H as [H _].
  injection H as -> -> _ _.
  assert (Hall : Forall (fun r : list fl * list fl * list Z =>
                           not_infinite (snd (fst r))
                           /\ not_infinite (fst (fst r))) trajs).
  { eapply for_each_all; [|exact H4].
    intros i a wa wb Ha. unfold in_position_trajectory in Ha.
    bind_inv Ha row0 wc Hc. bind_inv Ha alpha_row wd Hd. bind_inv Ha x0 we He.
    bind_inv Ha st wf Hf. apply RandFacts.ret_ok in Ha. destruct Ha as [-> _].
    simpl. apply in_position_loop_times in Hf; [exact Hf|].
    simpl. split; [repeat constructor|].
    apply RandFacts.lift_ok in Hc. destruct Hc as [Hc _].
    unfold Py.setitem in Hc.
    destruct (Py.norm_index (length (repeat NaN width)) 0); [|discriminate].
    injection Hc as <-. apply set_nth_not_inf; [reflexivity|].
    apply Forall_forall. intros a Ha. apply repeat_spec in Ha. now subst a. }
  split; apply Forall_map; eapply Forall_impl; try exact Hall; now intros a [? ?].
Qed.

End Runs.

(** ** The binding time of the two-step variant *)

Lemma run_ok {RS A B} (c : Rand.M RS A) (k : A -> Rand.M RS B) w a w' :
  c w = (Py.Ok a, w') -> Rand.bind c k w = k a w'.
Proof. unfold Rand.bind. now intros ->. Qed.

Lemma run_raise {RS A B} (c : Rand.M RS A) (k : A -> Rand.M RS B) w e w' :
  c w = (Py.Raise e, w') -> Rand.bind c k w = (Py.Raise e, w').
Proof. unfold Rand.bind. now intros ->. Qed.

Section BindTime.
Variable RS : Rand.RandomState.
Variable ln : Q -> Q.

(** With [rtot_bind = 0.0], [t_bind] is infinite for every draw of
    [[0, 1)], and so is [t] after [t = 1e308] and [t += t_bind]. *)
Lemma bind_time_zero_rate a u :
  (0 <= u)%Q -> (0 < u -> ln u < 0)%Q -> bind_time ln a (Fin u) 0 = PInf.
Proof.
  intros Hu Hl. unfold bind_time, np_log.
  destruct (Qeq_bool u 0) eqn:E0; [reflexivity|].
  assert (Hpos : (0 < u)%Q).
  { apply Qeq_bool_neq in E0. destruct (Qlt_le_dec 0 u) as [H|H]; [exact H|].
    exfalso. apply E0. lra. }
  assert (Qltb u 0 = false) as ->.
  { unfold Qltb. apply negb_false_iff, Qle_bool_iff. lra. }
  specialize (Hl Hpos).
  destruct (ln u) as [n d]. unfold Qlt in Hl. simpl in Hl.
  destruct n; try lia. reflexivity.
Qed.

(** Once [t] is infinite the rest adds a finite or clamped [t_rest]. *)
Lemma rest_time_after_inf u r :
  (0 < u)%Q -> ~ (r == 0)%Q -> rest_time ln PInf (Fin u) r = PInf.
Proof.
  intros Hu Hr. unfold rest_time, np_log.
  assert (Qeq_bool u 0 = false) as ->.
  { apply not_true_is_false. intros H. apply Qeq_bool_iff in H. lra. }
  assert (Qltb u 0 = false) as ->.
  { unfold Qltb. apply negb_false_iff, Qle_bool_iff. lra. }
  unfold fneg, fdiv.
  assert (Qeq_bool r 0 = false) as ->.
  { apply not_true_is_false. intros H. now apply Qeq_bool_iff in H. }
  unfold overflow at 2 3.
  destruct (Qltb max_double (- ln u / r)); [reflexivity|].
  destruct (Qltb (- ln u / r) (- max_double)); reflexivity.
Qed.

(** The guard clamps [t_rest], not the sum: from a finite [t] above
    [max_double - 1e308] the rest step gives an infinite time. *)
Example rest_time_may_overflow :
  rest_time ln (Fin (inject_Z (12 * 10 ^ 307))) (Fin 0) 1 = PInf.
Proof. reflexivity. Qed.

Hypothesis unit_interval :
  forall s, (0 <= fst (Rand.random_sample RS s) < 1)%Q.
Hypothesis ln_negative : forall u, (0 < u < 1 -> ln u < 0)%Q.

Lemma np_random_rand_unit w u w' :
  Rand.np_random_rand RS w = (Py.Ok u, w') ->
  exists q, u = Fin q /\ (0 <= q < 1)%Q.
Proof.
  unfold Rand.np_random_rand. intros H.
  pose proof (unit_interval (Rand.rng w)) as Hq.
  destruct (Rand.random_sample RS (Rand.rng w)) as [q g].
  injection H as <- _. now exists q.
Qed.

(** Every binding attempt with [rtot_bind = 0.0] leaves an infinite [t],
    which is the value appended to [t_list] at "Acquisition 1". *)
Lemma two_steps_bind_zero_rate tmax dt alpha_row p L origin ox st w st1 rr w1 :
  two_steps_bind RS ln tmax dt alpha_row p 0 L origin ox st w
  = (Py.Ok (st1, Some rr), w1) ->
  t st1 = PInf /\ t_list st1 = t_list st ++ [PInf].
Proof.
  unfold two_steps_bind. intros H.
  bind_inv H x_jump wa Ha. bind_inv H max_L wb Hb.
  destruct (max_L - origin <=? x st + x_jump).
  - bind_inv H ri wc Hc. apply RandFacts.ret_ok in H. destruct H as [H _].
    discriminate.
  - bind_inv H r_bind wc Hc. bind_inv H u wd Hd. bind_inv H r0 we He.
    apply RandFacts.ret_ok in H. destruct H as [H _].
    apply np_random_rand_unit in Hd. destruct Hd as (q & -> & Hq).
    rewrite bind_time_zero_rate in H.
    + apply (f_equal fst) in H. simpl in H. subst st1. now split.
    + apply Hq.
    + intros Hpos. apply ln_negative. split; [exact Hpos|apply Hq].
Qed.

End BindTime.

Section FailingRun.
Variable ln : Q -> Q.
Hypothesis ln_half : (ln (1#2) < 0)%Q.

Let table : list Q := [1#2; 1#2; 1#2; 1#2]%Q.
Let RS := Scripted.generator table.
Let alpha_row := [Fin 1; Fin 1; Fin 1; Fin 1; Fin 1].
Let p := [Fin 0; Fin 1; Fin 0; Fin 0; Fin 0].
Let L := [0; 1; 2; 3; 4].
Let st0 := {| t := of_Z 0; x := 0; prev_x := 0; i0 := 0;
              row := of_Z 0 :: repeat NaN 9;
              t_list := [of_Z 0]; x_list := [0] |}.
Let st1 := {| t := PInf; x := 1; prev_x := 0; i0 := 0;
              row := of_Z 0 :: repeat NaN 9;
              t_list := [of_Z 0; PInf]; x_list := [0; 1] |}.
Let after (k : nat) : Rand.world RS :=
  Rand.Build_world RS (skipn k table) (fun _ => 0) O.

Lemma failing_run_bind :
  two_steps_bind RS ln 10 1 alpha_row p 0 L 0 0 st0 (after 0)
  = (Py.Ok (st1, Some (Fin 1, Fin (1#2))), after 3).
Proof.
  cbv -[bind_time]. rewrite bind_time_zero_rate; [reflexivity|easy|].
  intros _. exact ln_half.
Qed.

Lemma failing_run_rest :
  two_steps_rest RS ln 10 1 0 1 0 st1 (Fin 1) (Fin (1#2)) (after 3)
  = (Py.Raise Py.OverflowError, after 4).
Proof.
  cbv -[rest_time]. rewrite rest_time_after_inf; [reflexivity|easy|easy].
Qed.

Lemma failing_run_loop fuel :
  two_steps_loop RS ln (S fuel) 10 1 alpha_row p 0 0 1 L 0 0 st0 (after 0)
  = (Py.Raise Py.OverflowError, after 4).
Proof.
  change (two_steps_loop RS ln (S fuel) 10 1 alpha_row p 0 0 1 L 0 0 st0)
    with (Rand.bind
            (two_steps_iteration RS ln 10 1 alpha_row p 0 0 1 L 0 0 st0)
            (fun sb => if snd sb
                       then two_steps_loop RS ln fuel 10 1 alpha_row p 0 0 1
                                           L 0 0 (fst sb)
                       else Rand.ret (fst sb))).
  apply run_raise. unfold two_steps_iteration.
  rewrite (run_ok _ _ _ _ _ failing_run_bind).
  apply run_raise. exact failing_run_rest.
Qed.

Lemma failing_run fuel :
  gillespie_algorithm_two_steps RS ln (S fuel) [alpha_row] p (Fin 0)
    0 0 1 1 10 1 L 0 (after 0)
  = (Py.Raise Py.OverflowError, after 4).
Proof.
  unfold gillespie_algorithm_two_steps.
  erewrite run_ok by reflexivity.
  erewrite run_ok by reflexivity.
  change (seq 0 (Z.to_nat 1)) with [0%nat].
  apply run_raise. cbn [for_each].
  apply run_raise. unfold two_steps_trajectory.
  erewrite run_ok by reflexivity.
  erewrite run_ok by reflexivity.
  erewrite run_ok by reflexivity.
  apply run_raise. exact (failing_run_loop fuel).
Qed.

End FailingRun.

(** C7. In [gillespie_algorithm_two_steps] with [rtot_bind = 0.0] the
    sampled binding time [-log(U)/rtot_bind] is infinite for the draw
    [U = 1/2]; the guard sets [t = 1e308] and the next statement adds the
    infinite [t_bind], so the time appended to the trajectory at
    "Acquisition 1" is infinite, and the run stops on
    [int(np.floor(t/dt))] with [OverflowError]: the time is not clamped to
    [1e308]. *)
Theorem two_steps_bind_time_not_clamped (ln : Q -> Q) :
  (ln (1#2) < 0)%Q ->
  let table := [1#2; 1#2; 1#2; 1#2]%Q in
  let RS := Scripted.generator table in
  let w0 := Scripted.world table in
  let alpha_row := [Fin 1; Fin 1; Fin 1; Fin 1; Fin 1] in
  let p := [Fin 0; Fin 1; Fin 0; Fin 0; Fin 0] in
  let L := [0; 1; 2; 3; 4] in
  let st0 := {| t := of_Z 0; x := 0; prev_x := 0; i0 := 0;
                row := of_Z 0 :: repeat NaN 9;
                t_list := [of_Z 0]; x_list := [0] |} in
  (exists st1 rr w1,
      two_steps_bind RS ln 10 1 alpha_row p 0 L 0 0 st0 w0
      = (Py.Ok (st1, Some rr), w1)
      /\ t st1 = PInf
      /\ t_list st1 = [Fin 0; PInf])
  /\ forall fuel,
      fst (gillespie_algorithm_two_steps RS ln (S fuel) [alpha_row] p (Fin 0)
             0 0 1 1 10 1 L 0 w0)
      = Py.Raise Py.OverflowError.
Proof.
  intros Hln. cbv zeta. split.
  - do 3 eexists. split; [exact (failing_run_bind ln Hln)|]. now split.
  - intros fuel. change (Scripted.world [1 # 2; 1 # 2; 1 # 2; 1 # 2]%Q)
      with (Rand.Build_world (Scripted.generator [1 # 2; 1 # 2; 1 # 2; 1 # 2]%Q)
              (skipn 0 [1 # 2; 1 # 2; 1 # 2; 1 # 2]%Q) (fun _ => 0) O).
    now rewrite (failing_run ln Hln fuel).
Qed.

Lemma two_steps_bind_time_not_clamped_witness :
  (Scripted.ln_stand_in (1#2) < 0)%Q
  /\ fst (gillespie_algorithm_two_steps
            (Scripted.generator [1#2; 1#2; 1#2; 1#2]%Q) Scripted.ln_stand_in 1
            [[Fin 1; Fin 1; Fin 1; Fin 1; Fin 1]]
            [Fin 0; Fin 1; Fin 0; Fin 0; Fin 0] (Fin 0)
            0 0 1 1 10 1 [0; 1; 2; 3; 4] 0
            (Scripted.world [1#2; 1#2; 1#2; 1#2]%Q))
     = Py.Raise Py.OverflowError.
Proof.
  assert (H : (Scripted.ln_stand_in (1#2) < 0)%Q) by reflexivity.
  split; [exact H|].
  exact (proj2 (two_steps_bind_time_not_clamped Scripted.ln_stand_in H) O).
Defined.

End EngineFacts.

(** ** Sums of floats that are finite *)

Module SumFacts.
Import NpFloat Spec.


Lemma fold_fadd_Fin (qs : list Q) (a : Q) :
  fold_left fadd (map Fin qs) (Fin a) = Fin (fold_left Qplus qs a).
Proof.
  revert a. induction qs as [|q qs IH]; intros a; simpl; [reflexivity|].
  apply IH.
Qed.

Lemma sum_Fin (qs : list Q) : sum (map Fin qs) = Fin (Qsum qs).
Proof. apply fold_fadd_Fin. Qed.

Lemma fold_Qplus_acc (l : list Q) (a : Q) :
  (fold_left Qplus l a == a + Qsum l)%Q.
Proof.
  unfold Qsum. revert a. induction l as [|x l IH]; intros a; simpl.
  - ring.
  - rewrite (IH (a + x)%Q), (IH (0 + x)%Q). ring.
Qed.

Lemma Qsum_cons (x : Q) (l : list Q) : (Qsum (x :: l) == x + Qsum l)%Q.
Proof. unfold Qsum at 1. simpl. rewrite fold_Qplus_acc. ring. Qed.

Lemma Qsum_div (l : list Q) (s : Q) :
  (Qsum (map (fun x => x / s) l) == Qsum l / s)%Q.
Proof.
  induction l as [|x l IH].
  - unfold Qsum. simpl. unfold Qdiv. ring.
  - simpl map. rewrite !Qsum_cons, IH. unfold Qdiv. ring.
Qed.

Lemma Qsum_inject_Z (l : list Z) :
  (Qsum (map inject_Z l) == inject_Z (fold_left Z.add l 0%Z))%Q.
Proof.
  assert (H : forall a, (fold_left Qplus (map inject_Z l) (inject_Z a)
                         == inject_Z (fold_left Z.add l a))%Q).
  { induction l as [|x l IH]; intros a; simpl; [reflexivity|].
    rewrite <- IH. rewrite fold_Qplus_acc.
    rewrite (fold_Qplus_acc _ (inject_Z (a + x))). rewrite inject_Z_plus. ring. }
  apply (H 0%Z).
Qed.

(** Dividing integer counts by their non-zero total gives finite entries
    that sum to one. *)
Lemma fdiv_counts (c total : Z) :
  total <> 0%Z ->
  fdiv (of_Z c) (of_Z total) = Fin (inject_Z c / inject_Z total).
Proof.
  intros H. unfold fdiv, of_Z.
  destruct (Qeq_bool (inject_Z total) 0) eqn:E; [|reflexivity].
  apply Qeq_bool_eq in E. unfold Qeq in E. simpl in E. lia.
Qed.

Lemma normalised_counts_sum (counts : list Z) (total : Z) :
  total <> 0%Z ->
  fold_left Z.add counts 0%Z = total ->
  exists s,
    sum (map (fun c => fdiv (of_Z c) (of_Z total)) counts) = Fin s
    /\ (s == 1)%Q.
Proof.
  intros Hne Htot.
  exists (Qsum (map (fun x => (x / inject_Z total)%Q) (map inject_Z counts))).
  split.
  - rewrite <- sum_Fin. f_equal. rewrite !map_map.
    apply map_ext. intros c. now apply fdiv_counts.
  - rewrite Qsum_div, Qsum_inject_Z, Htot.
    apply Qmult_inv_r. unfold Qeq. simpl. lia.
Qed.

End SumFacts.

(** ** Histograms and distributions *)

Module DistributionFacts.
Import NpFloat Stats SumFacts Spec.

Lemma last_default {A} (y : A) (l : list A) (d d' : A) :
  last (y :: l) d = last (y :: l) d'.
Proof.
  revert y. induction l as [|z l IH]; intros y; [reflexivity|].
  change (last (z :: l) d = last (z :: l) d'). apply IH.
Qed.

Lemma fold_add_diff (l : list Z) (x a : Z) :
  fold_left Z.add (Np.diff (x :: l)) a = a + last (x :: l) x - x.
Proof.
  revert x a. induction l as [|y l IH]; intros x a.
  - simpl. lia.
  - change (Np.diff (x :: y :: l)) with ((y - x) :: Np.diff (y :: l)).
    cbn [fold_left]. rewrite IH.
    change (last (x :: y :: l) x) with (last (y :: l) x).
    rewrite (last_default y l x y). lia.
Qed.

Section Counting.
Variable data : list fl.

Notation count_lt e := (count (fun d => flt d (Fin e)) data).
Notation count_le e := (count (fun d => fle d (Fin e)) data).

Lemma cumulative_counts_cons2 e0 e1 rest :
  cumulative_counts data (e0 :: e1 :: rest)
  = count_lt e0 :: cumulative_counts data (e1 :: rest).
Proof. reflexivity. Qed.

Lemma cumulative_counts_cons e rest :
  exists c cs, cumulative_counts data (e :: rest) = c :: cs.
Proof. destruct rest; simpl; eauto. Qed.

Lemma last_cumulative_counts e rest d0 :
  last (cumulative_counts data (e :: rest)) d0 = count_le (last (e :: rest) e).
Proof.
  revert e. induction rest as [|e' rest IH]; intros e; [reflexivity|].
  rewrite cumulative_counts_cons2. specialize (IH e').
  destruct (cumulative_counts_cons e' rest) as (c & cs & Hc).
  rewrite Hc in *.
  change (last (count_lt e :: c :: cs) d0) with (last (c :: cs) d0).
  rewrite IH. change (last (e :: e' :: rest) e) with (last (e' :: rest) e).
  now rewrite (last_default e' rest e e').
Qed.

(** The counts of a histogram add up to the number of samples below or at
    the last edge minus the number of samples below the first edge. *)
Lemma histogram_total e0 e1 rest :
  np_sum_Z (Np.diff (cumulative_counts data (e0 :: e1 :: rest)))
  = count_le (last (e0 :: e1 :: rest) e0) - count_lt e0.
Proof.
  unfold np_sum_Z. rewrite cumulative_counts_cons2, fold_add_diff.
  pose proof (last_cumulative_counts e1 rest (count_lt e0)) as Hl.
  destruct (cumulative_counts_cons e1 rest) as (c & cs & Hc).
  rewrite Hc in *.
  change (last (count_lt e0 :: c :: cs) (count_lt e0))
    with (last (c :: cs) (count_lt e0)).
  rewrite Hl.
  change (last (e0 :: e1 :: rest) e0) with (last (e1 :: rest) e0).
  rewrite (last_default e1 rest e0 e1). lia.
Qed.

End Counting.

Lemma monotonic_first_last e0 rest :
  monotonic (e0 :: rest) = true -> (e0 <= last (e0 :: rest) e0)%Q.
Proof.
  revert e0. induction rest as [|e1 rest IH]; intros e0 H.
  - apply Qle_refl.
  - change (monotonic (e0 :: e1 :: rest))
      with (Qle_bool e0 e1 && monotonic (e1 :: rest)) in H.
    apply andb_true_iff in H. destruct H as [H01 Hrest].
    apply Qle_bool_iff in H01. apply IH in Hrest.
    change (last (e0 :: e1 :: rest) e0) with (last (e1 :: rest) e0).
    rewrite (last_default e1 rest e0 e1). eapply Qle_trans; eauto.
Qed.

Lemma count_nonneg {A} (f : A -> bool) data : 0 <= count f data.
Proof. unfold count. lia. Qed.

Lemma count_cons {A} (f : A -> bool) d data :
  count f (d :: data) = (if f d then 1 else 0) + count f data.
Proof. unfold count. simpl. destruct (f d); simpl length; lia. Qed.

Lemma count_never {A} (f : A -> bool) data :
  (forall d, f d = false) -> count f data = 0.
Proof.
  intros H. induction data as [|d data IH]; [reflexivity|].
  now rewrite count_cons, H, IH.
Qed.

Lemma count_pos_iff {A} (f : A -> bool) data :
  0 < count f data <-> existsb f data = true.
Proof.
  induction data as [|d data IH].
  - simpl. unfold count. simpl. split; [lia|discriminate].
  - rewrite count_cons. simpl existsb. pose proof (count_nonneg f data).
    destruct (f d); cbn [orb]; [split; intros; [reflexivity|lia]|].
    rewrite <- IH. split; lia.
Qed.

(** Between two ordered edges the difference of the cumulative counts is
    the number of samples inside. *)
(** A sample is counted below or at [eL] and not below [e0] exactly when
    it is a finite number between the two: [-inf] is counted on both
    sides, [+inf] and NaN on none. *)
Lemma between_edges e0 eL (d : fl) :
  (e0 <= eL)%Q ->
  (if fle d (Fin eL) then 1 else 0) - (if flt d (Fin e0) then 1 else 0)
  = if match d with
       | Fin q => Qle_bool e0 q && Qle_bool q eL
       | _ => false
       end then 1 else 0.
Proof.
  intros Hle. destruct d as [q| | |]; try reflexivity.
  cbn [fle flt]. unfold Qltb.
  destruct (Qle_bool e0 q) eqn:E0; simpl negb; simpl andb; cbv iota.
  - destruct (Qle_bool q eL); lia.
  - assert (Hd : Qle_bool q eL = true).
    { apply Qle_bool_iff. apply Qle_trans with e0; [|exact Hle].
      apply Qlt_le_weak. apply Qnot_le_lt. intros Hc.
      apply Qle_bool_iff in Hc. congruence. }
    rewrite Hd. lia.
Qed.

(** Between two ordered edges the difference of the cumulative counts is
    the number of samples inside. *)
Lemma count_between e0 eL (data : list fl) :
  (e0 <= eL)%Q ->
  count (fun d => fle d (Fin eL)) data - count (fun d => flt d (Fin e0)) data
  = count (fun d => match d with
                    | Fin q => Qle_bool e0 q && Qle_bool q eL
                    | _ => false
                    end) data.
Proof.
  intros Hle. induction data as [|d data IH].
  - reflexivity.
  - rewrite !count_cons. pose proof (between_edges e0 eL d Hle). lia.
Qed.

Lemma histogram_total_in_grid data edges :
  monotonic edges = true ->
  np_sum_Z (Np.diff (cumulative_counts data edges)) = count (in_grid edges) data.
Proof.
  intros Hm. destruct edges as [|e0 [|e1 rest]].
  - rewrite count_never; [reflexivity|]. now intros [].
  - rewrite count_never; [reflexivity|]. now intros [].
  - rewrite histogram_total, count_between by now apply monotonic_first_last.
    reflexivity.
Qed.

Lemma length_cumulative_counts data edges :
  length (cumulative_counts data edges) = length edges.
Proof.
  induction edges as [|e [|e' rest] IH]; [reflexivity|reflexivity|].
  rewrite cumulative_counts_cons2. cbn [length] in *. now rewrite IH.
Qed.

Lemma length_diff (l : list Z) : length (Np.diff l) = (length l - 1)%nat.
Proof.
  induction l as [|x [|y l] IH]; [reflexivity|reflexivity|].
  change (Np.diff (x :: y :: l)) with ((y - x) :: Np.diff (y :: l)).
  cbn [length] in *. rewrite IH. lia.
Qed.

Lemma distribution_on_normalised data edges points distrib :
  distribution_on data edges = Py.Ok (points, distrib) ->
  normalised_on data edges distrib.
Proof.
  unfold distribution_on, histogram. intros H.
  destruct (monotonic edges) eqn:Hm; [|discriminate].
  cbn [Py.rbind fst snd] in H. injection H as _ <-.
  pose proof (histogram_total_in_grid data edges Hm) as Htot.
  assert (Hlen : length (Np.diff (cumulative_counts data edges))
                 = (length edges - 1)%nat)
    by now rewrite length_diff, length_cumulative_counts.
  set (counts := Np.diff (cumulative_counts data edges)) in *.
  destruct (0 <? np_sum_Z counts) eqn:Epos.
  - apply Z.ltb_lt in Epos.
    assert (Hne : np_sum_Z counts <> 0) by lia.
    split; [now rewrite length_map|].
    repeat split.
    + apply Forall_forall. intros a Ha. apply in_map_iff in Ha.
      destruct Ha as (c & <- & _).
      change (isnan (fdiv (of_Z c) (of_Z (np_sum_Z counts))) = false).
      now rewrite fdiv_counts.
    + intros _. now apply normalised_counts_sum.
    + intros Hex. exfalso.
      assert (0 < count (in_grid edges) data) by lia.
      apply count_pos_iff in H. congruence.
  - apply Z.ltb_ge in Epos. split; [now rewrite length_map|]. repeat split.
    + apply Forall_forall. intros a Ha. apply in_map_iff in Ha.
      now destruct Ha as (c & <- & _).
    + intros Hex. exfalso. apply count_pos_iff in Hex. lia.
    + intros _. apply Forall_forall. intros a Ha. apply in_map_iff in Ha.
      now destruct Ha as (c & <- & _).
Qed.

(** [np.arange] with a positive step gives increasing edges, so
    [np.histogram] accepts them and [calculate_distribution] returns. *)
Lemma monotonic_arange_from (start step : Q) (n a : nat) :
  (0 <= step)%Q ->
  monotonic (map (fun i => (start + inject_Z (Z.of_nat i) * step)%Q) (seq a n))
  = true.
Proof.
  intros Hs. revert a. induction n as [|n IH]; intros a; [reflexivity|].
  destruct n as [|n]; [reflexivity|].
  change (Qle_bool (start + inject_Z (Z.of_nat a) * step)
                   (start + inject_Z (Z.of_nat (S a)) * step)
          && monotonic (map (fun i => (start + inject_Z (Z.of_nat i) * step)%Q)
                            (seq (S a) (S n))) = true).
  rewrite IH, andb_true_r. apply Qle_bool_iff.
  rewrite Nat2Z.inj_succ. unfold Z.succ. rewrite inject_Z_plus. 
  change (inject_Z 1) with 1%Q. nra.
Qed.

Lemma arange_returns start stop step :
  (0 < step)%Q ->
  exists edges, arange start stop step = Py.Ok edges /\ monotonic edges = true.
Proof.
  intros Hs. unfold arange.
  assert (Qeq_bool step 0 = false) as ->.
  { apply not_true_is_false. intros H. apply Qeq_bool_iff in H. lra. }
  eexists. split; [reflexivity|]. apply monotonic_arange_from. lra.
Qed.

Lemma calculate_distribution_returns data first_bin last_bin bin_width :
  (0 < bin_width)%Q ->
  (exists r,
      NucleoStats.calculate_distribution data first_bin last_bin bin_width
      = Py.Ok r)
  /\ (exists r,
         MarcandStats.calculate_distribution data first_bin last_bin bin_width
         = Py.Ok r).
Proof.
  intros Hw.
  unfold NucleoStats.calculate_distribution, MarcandStats.calculate_distribution.
  destruct data as [|d data]; [split; eexists; reflexivity|].
  split.
  - destruct (arange_returns first_bin
                (inject_Z (Py.Qtrunc last_bin) + bin_width) bin_width Hw)
      as (edges & -> & Hm).
    cbn [Py.rbind]. unfold distribution_on, histogram. rewrite Hm.
    eexists. reflexivity.
  - destruct (arange_returns first_bin (last_bin + bin_width) bin_width Hw)
      as (edges & -> & Hm).
    cbn [Py.rbind]. unfold distribution_on, histogram. rewrite Hm.
    eexists. reflexivity.
Qed.
(** What [Stats.in_grid] says of a sample, spelled out. *)
Lemma in_grid_spec (edges : list Q) (d : fl) :
  in_grid edges d = true
  <-> exists q e0 e1 rest,
        d = Fin q /\ edges = e0 :: e1 :: rest
        /\ (e0 <= q)%Q /\ (q <= last edges e0)%Q.
Proof.
  split.
  - destruct edges as [|e0 [|e1 rest]]; destruct d as [q| | |];
      try discriminate.
    cbn [in_grid]. intros H. apply andb_true_iff in H. destruct H as [H0 HL].
    apply Qle_bool_iff in H0, HL. exists q, e0, e1, rest. now repeat split.
  - intros (q & e0 & e1 & rest & -> & -> & H0 & HL).
    cbn [in_grid]. apply andb_true_iff. now split; apply Qle_bool_iff.
Qed.

(** C3, as the code has it.  For both versions of
    [calculate_distribution], on every call that returns, whatever the
    samples are (finite, infinite or NaN): the returned distribution never
    contains NaN; on empty data both returned arrays are empty; on non-empty
    data the distribution has one entry per bin of the grid of edges, it
    sums to 1 when the grid has a bin (two edges at least) and at least one
    sample is a finite number between the first and the last edge, and in
    every other case all its entries are zero (it is empty when the grid has
    fewer than two edges). *)
Theorem calculate_distribution_normalised
        (data : list fl) (first_bin last_bin bin_width : Q)
        (points : list Q) (distrib : list fl) :
  (NucleoStats.calculate_distribution data first_bin last_bin bin_width
   = Py.Ok (points, distrib) ->
   Forall (fun a => isnan a = false) distrib
   /\ (data = [] -> points = [] /\ distrib = [])
   /\ (data <> [] ->
       exists edges,
         arange first_bin (inject_Z (Py.Qtrunc last_bin) + bin_width)%Q bin_width
         = Py.Ok edges
         /\ normalised_on data edges distrib))
  /\ (MarcandStats.calculate_distribution data first_bin last_bin bin_width
      = Py.Ok (points, distrib) ->
      Forall (fun a => isnan a = false) distrib
      /\ (data = [] -> points = [] /\ distrib = [])
      /\ (data <> [] ->
          exists edges,
            arange first_bin (last_bin + bin_width)%Q bin_width = Py.Ok edges
            /\ normalised_on data edges distrib)).
Proof.
  split; intros H.
  - unfold NucleoStats.calculate_distribution in H.
    destruct data as [|d data].
    + injection H as <- <-. repeat split; auto. intros Hne. congruence.
    + destruct (arange first_bin _ bin_width) as [edges| |] eqn:Ea;
        try discriminate.
      simpl in H. apply distribution_on_normalised in H.
      split; [apply H|]. split; [discriminate|].
      intros _. now exists edges.
  - unfold MarcandStats.calculate_distribution in H.
    destruct data as [|d data].
    + injection H as <- <-. repeat split; auto. intros Hne. congruence.
    + destruct (arange first_bin _ bin_width) as [edges| |] eqn:Ea;
        try discriminate.
      simpl in H. apply distribution_on_normalised in H.
      split; [apply H|]. split; [discriminate|].
      intros _. now exists edges.
Qed.

(** Non-empty data whose distribution does not sum to 1, in both versions.
    One sample at 5 with bins from 0 to 3 of width 1: three zeros.  One
    sample at 0 with [first_bin = last_bin = 0]: the grid has the single
    edge 0, hence no bin, and both arrays are empty.  One sample NaN with
    bins from 0 to 3: three zeros. *)
Lemma distribution_of_outside_sample :
  [Fin 5] <> []
  /\ (exists points,
         NucleoStats.calculate_distribution [Fin 5] 0 3 1
         = Py.Ok (points, [Fin 0; Fin 0; Fin 0]))
  /\ (exists points,
         MarcandStats.calculate_distribution [Fin 5] 0 3 1
         = Py.Ok (points, [Fin 0; Fin 0; Fin 0]))
  /\ sum [Fin 0; Fin 0; Fin 0] = Fin 0
  /\ ~ (0 == 1)%Q
  /\ NucleoStats.calculate_distribution [Fin 0] 0 0 1 = Py.Ok ([], [])
  /\ MarcandStats.calculate_distribution [Fin 0] 0 0 1 = Py.Ok ([], [])
  /\ sum [] = Fin 0
  /\ (exists points,
         NucleoStats.calculate_distribution [NaN] 0 3 1
         = Py.Ok (points, [Fin 0; Fin 0; Fin 0]))
  /\ (exists points,
         MarcandStats.calculate_distribution [NaN] 0 3 1
         = Py.Ok (points, [Fin 0; Fin 0; Fin 0])).
Proof.
  split; [discriminate|].
  split; [eexists; reflexivity|].
  split; [eexists; reflexivity|].
  split; [reflexivity|].
  split; [discriminate|].
  split; [reflexivity|].
  split; [reflexivity|].
  split; [reflexivity|].
  split; eexists; reflexivity.
Qed.

Lemma calculate_distribution_normalised_witness :
  let data := [Fin (1 # 2); Fin (5 # 2); NaN; Fin (5 # 2); PInf; Fin 7] in
  exists points distrib edges,
    NucleoStats.calculate_distribution data 0 3 1 = Py.Ok (points, distrib)
    /\ Forall (fun a => isnan a = false) distrib
    /\ arange 0 (inject_Z (Py.Qtrunc 3) + 1)%Q 1 = Py.Ok edges
    /\ normalised_on data edges distrib
    /\ existsb (in_grid edges) data = true.
Proof.
  intros data.
  destruct (NucleoStats.calculate_distribution data 0 3 1)
    as [[points distrib]| |] eqn:E.
  - pose proof (proj1 (calculate_distribution_normalised
                         data 0 3 1 points distrib) E) as (Hnan & _ & Hne).
    destruct (Hne ltac:(discriminate)) as (edges & Hedges & Hnorm).
    exists points, distrib, edges. split; [reflexivity|].
    split; [exact Hnan|]. split; [exact Hedges|]. split; [exact Hnorm|].
    vm_compute in Hedges. injection Hedges as <-. reflexivity.
  - vm_compute in E. discriminate.
  - vm_compute in E. discriminate.
Defined.

End DistributionFacts.

(** ** First-passage-time matrix *)

Module FptFacts.
Import NpFloat Stats SumFacts Spec.


Lemma add_range_length s e l : length (add_range s e l) = length l.
Proof.
  revert s e. induction l as [|c l IH]; intros s e; simpl; [reflexivity|].
  destruct e; [reflexivity|]. destruct s; simpl; now rewrite IH.
Qed.

Lemma add_slice_length row start stop :
  length (add_slice row start stop) = length row.
Proof. apply add_range_length. Qed.

Lemma update_row_rows width r f m :
  (forall row, length (f row) = length row) ->
  rows_have width m -> rows_have width (update_row r f m).
Proof.
  intros Hf Hm. revert r.
  induction Hm as [|row m Hrow Hm IH]; intros r; simpl; [constructor|].
  destruct r; constructor; auto.
  - now rewrite Hf.
  - apply IH.
Qed.

Lemma bump_rows width m time start stop m' :
  bump m time start stop = Py.Ok m' ->
  rows_have width m -> rows_have width m'.
Proof.
  unfold bump. destruct (Py.norm_index (length m) time); [|discriminate].
  intros H Hm. injection H as <-.
  apply update_row_rows; [|exact Hm]. intros row. apply add_slice_length.
Qed.

Lemma fpt_loop_rows {T} (time_of : T -> Py.result Z) t_bin width couples :
  forall prev m m',
    fpt_loop time_of t_bin prev couples m = Py.Ok m' ->
    rows_have width m -> rows_have width m'.
Proof.
  induction couples as [|c rest IH]; intros prev m m' H Hm; simpl in H.
  - now injection H as <-.
  - destruct (fst c =? 0).
    + simpl in H. eapply IH; eauto.
    + destruct (time_of (snd c)) as [time| |]; try discriminate. simpl in H.
      destruct (bump m time (fst prev / t_bin) (fst c / t_bin)) as [m1| |] eqn:Eb;
        try discriminate.
      simpl in H. eapply IH; [exact H|]. eapply bump_rows; eauto.
Qed.

Lemma fill_fpt_rows {T} (time_of : T -> Py.result Z) t_bin width couples m m' :
  fill_fpt time_of t_bin couples m = Py.Ok m' ->
  rows_have width m -> rows_have width m'.
Proof.
  unfold fill_fpt. destruct couples as [|c rest].
  - intros H. now injection H as <-.
  - apply fpt_loop_rows.
Qed.

Lemma zeros_rows width rows : rows_have width (repeat (repeat 0 width) rows).
Proof.
  apply Forall_forall. intros row H. apply repeat_spec in H. subst row.
  apply repeat_length.
Qed.

(** *** Column sums *)

Lemma add_rows_length a b : length (add_rows a b) = Nat.min (length a) (length b).
Proof. unfold add_rows. now rewrite length_map, length_combine. Qed.

Lemma fold_add_rows_length width m :
  rows_have width m ->
  forall acc, length acc = width -> length (fold_left add_rows m acc) = width.
Proof.
  induction 1 as [|row m Hrow _ IH]; intros acc Hacc; simpl; [exact Hacc|].
  apply IH. rewrite add_rows_length. lia.
Qed.

Lemma column_sums_length width m :
  rows_have width m -> length (column_sums width m) = width.
Proof. intros H. apply fold_add_rows_length; [exact H|apply repeat_length]. Qed.

Lemma add_rows_complement nt cs :
  add_rows cs (map (fun c => nt - c) cs) = repeat nt (length cs).
Proof.
  unfold add_rows. induction cs as [|c cs IH]; simpl; [reflexivity|].
  rewrite IH. f_equal. lia.
Qed.

(** The stacked matrix: every column sums to [nt]. *)
Lemma stack_absent_column_sums nt width m :
  rows_have width m ->
  column_sums width (stack_absent nt width m) = repeat nt width.
Proof.
  intros Hm. unfold column_sums, stack_absent. rewrite fold_left_app. simpl.
  fold (column_sums width m). rewrite add_rows_complement.
  now rewrite column_sums_length.
Qed.

Lemma stack_absent_rows nt width m :
  rows_have width m -> rows_have width (stack_absent nt width m).
Proof.
  intros Hm. apply Forall_app. split; [exact Hm|].
  constructor; [|constructor]. rewrite length_map. now apply column_sums_length.
Qed.

(** *** The normalised matrix *)

Lemma combine_repeat_map {A B} (f : A * Z -> B) (row : list A) nt width :
  (length row <= width)%nat ->
  map f (combine row (repeat nt width)) = map (fun c => f (c, nt)) row.
Proof.
  revert width. induction row as [|c row IH]; intros width H; [reflexivity|].
  destruct width; simpl in *; [lia|]. rewrite IH by lia. reflexivity.
Qed.


Lemma add_rows_share nt acc_fl acc_z row :
  nt <> 0 ->
  Forall2 (share_of nt) acc_fl acc_z ->
  Forall2 (share_of nt)
          (add_rows_fl acc_fl (map (fun c => fdiv (of_Z c) (of_Z nt)) row))
          (add_rows acc_z row).
Proof.
  intros Hnt H. revert row.
  induction H as [|a z acc_fl acc_z (q & -> & Hq) _ IH]; intros row.
  - constructor.
  - destruct row as [|c row]; [constructor|].
    unfold add_rows_fl, add_rows. cbn [map combine fst snd].
    constructor; [|apply IH].
    rewrite fdiv_counts by assumption. cbn [fadd].
    eexists. split; [reflexivity|].
    rewrite Hq, inject_Z_plus. unfold Qdiv. ring.
Qed.

Lemma column_sums_share nt width m :
  nt <> 0 ->
  Forall2 (share_of nt)
          (column_sums_fl width
             (map (map (fun c => fdiv (of_Z c) (of_Z nt))) m))
          (column_sums width m).
Proof.
  intros Hnt. unfold column_sums_fl, column_sums.
  assert (H0 : Forall2 (share_of nt) (repeat (Fin 0) width) (repeat 0 width)).
  { induction width; simpl; constructor; auto.
    exists 0%Q. split; [reflexivity|]. unfold Qdiv. simpl. ring. }
  revert H0. generalize (repeat (Fin 0) width) (repeat 0 width).
  induction m as [|row m IH]; intros acc_fl acc_z H; simpl; [exact H|].
  apply IH. now apply add_rows_share.
Qed.

Lemma normalize_stacked nt width m :
  rows_have width m ->
  normalize_columns width (stack_absent nt width m)
  = map (map (fun c => fdiv (of_Z c) (of_Z nt))) (stack_absent nt width m).
Proof.
  intros Hm. unfold normalize_columns.
  rewrite stack_absent_column_sums by assumption.
  apply map_ext_in. intros row Hrow.
  pose proof (stack_absent_rows nt width m Hm) as Hall.
  unfold rows_have in Hall. rewrite Forall_forall in Hall.
  apply (combine_repeat_map
           (fun ct : Z * Z => fdiv (of_Z (fst ct)) (of_Z (snd ct)))).
  rewrite (Hall row Hrow). lia.
Qed.


Lemma normalized_columns nt width m :
  nt <> 0 ->
  rows_have width m ->
  columns_sum_to_one width (normalize_columns width (stack_absent nt width m)).
Proof.
  intros Hnt Hm. unfold columns_sum_to_one.
  rewrite normalize_stacked by assumption.
  pose proof (column_sums_share nt width (stack_absent nt width m) Hnt) as H.
  rewrite stack_absent_column_sums in H by assumption.
  split.
  - apply Forall2_length in H. now rewrite H, repeat_length.
  - remember (column_sums_fl width _) as sums eqn:Es. clear Es.
    remember (repeat nt width) as tot eqn:Et.
    assert (Hall : Forall (fun z => z = nt) tot).
    { subst tot. apply Forall_forall. intros z Hz. now apply repeat_spec in Hz. }
    clear Et. induction H as [|a z sums tot (q & -> & Hq) _ IH]; constructor.
    + exists q. split; [reflexivity|]. rewrite Hq.
      inversion Hall; subst. apply Qmult_inv_r. unfold Qeq. simpl. lia.
    + apply IH. now inversion Hall.
Qed.

Lemma all_ok_length {A} (l : list (Py.result A)) r :
  Py.all_ok l = Py.Ok r -> length r = length l.
Proof.
  revert r. induction l as [|x l IH]; intros r H; simpl in H.
  - now injection H as <-.
  - destruct x as [a| |]; try discriminate. simpl in H.
    destruct (Py.all_ok l) as [more| |]; try discriminate.
    simpl in H. injection H as <-. simpl. now rewrite (IH more).
Qed.

Lemma concatenate_couples_some {T} (per_traj : list (list (Z * T))) couples :
  concatenate_couples per_traj = Py.Ok couples -> per_traj <> [].
Proof. destruct per_traj; [discriminate|]. intros _. discriminate. Qed.

Ltac rbind_inv H a Ha :=
  match type of H with
  | Py.rbind ?c _ = Py.Ok _ =>
      destruct c as [a| |] eqn:Ha; [|discriminate|discriminate];
      cbn [Py.rbind] in H
  end.

(** The count matrix of [nucleo.py] is a stacked matrix over
    [nt = len(matrix_t) > 0] trajectories. *)
Lemma nucleo_count_matrix_shape matrix_t matrix_x tmax t_bin stacked
      fpt_number width :
  NucleoStats.fpt_count_matrix matrix_t matrix_x tmax t_bin
  = Py.Ok (stacked, fpt_number, width) ->
  Z.of_nat (length matrix_t) <> 0
  /\ exists m, rows_have width m
               /\ stacked = stack_absent (Z.of_nat (length matrix_t)) width m.
Proof.
  unfold NucleoStats.fpt_count_matrix. intros H.
  rbind_inv H x_max H1. rbind_inv H n_bins H2. rbind_inv H rows H3.
  rbind_inv H w H4. rbind_inv H per_traj H5. rbind_inv H couples H6.
  rbind_inv H m H7. injection H as <- _ <-.
  split.
  - apply concatenate_couples_some in H6. apply all_ok_length in H5.
    rewrite length_map, length_combine in H5.
    destruct per_traj; [congruence|]. simpl in H5. lia.
  - exists m. split; [|reflexivity].
    eapply fill_fpt_rows; [exact H7|apply zeros_rows].
Qed.

Lemma marcand_count_matrix_shape matrix_t matrix_x tmax t_bin nt stacked
      fpt_number width :
  MarcandStats.fpt_count_matrix matrix_t matrix_x tmax t_bin nt
  = Py.Ok (stacked, fpt_number, width) ->
  Z.of_nat (length matrix_t) <> 0
  /\ exists m, rows_have width m /\ stacked = stack_absent nt width m.
Proof.
  unfold MarcandStats.fpt_count_matrix. intros H.
  rbind_inv H x_max H1. rbind_inv H n_bins H2. rbind_inv H rows H3.
  rbind_inv H w H4. rbind_inv H couples H6. rbind_inv H m H7.
  injection H as <- _ <-.
  split.
  - apply concatenate_couples_some in H6.
    destruct matrix_t; [|simpl; lia].
    rewrite combine_nil in H6. now contradiction H6.
  - exists m. split; [|reflexivity].
    eapply fill_fpt_rows; [exact H7|apply zeros_rows].
Qed.

(** C4. In the count matrix of [calculate_fpt_matrix], after the row of
    absent trajectories is stacked, every column sums to exactly [nt], and
    every column of the returned [fpt_results] sums to one.  In [nucleo.py]
    [nt] is [len(matrix_t)], which is positive whenever the function
    returns; in [marcand.py] [nt] is an argument, and the normalised columns
    sum to one when it is the number of trajectories (or any value other
    than zero). *)
Theorem fpt_columns_sum_to_nt (matrix_t : list (list fl))
        (matrix_x : list (list Z)) (tmax t_bin : Z) :
  (forall stacked fpt_number width,
      NucleoStats.fpt_count_matrix matrix_t matrix_x tmax t_bin
      = Py.Ok (stacked, fpt_number, width) ->
      column_sums width stacked = repeat (Z.of_nat (length matrix_t)) width
      /\ exists fpt_results,
          NucleoStats.calculate_fpt_matrix matrix_t matrix_x tmax t_bin
          = Py.Ok (fpt_results, fpt_number)
          /\ columns_sum_to_one width fpt_results)
  /\ (forall nt stacked fpt_number width,
         MarcandStats.fpt_count_matrix matrix_t matrix_x tmax t_bin nt
         = Py.Ok (stacked, fpt_number, width) ->
         column_sums width stacked = repeat nt width
         /\ (nt = Z.of_nat (length matrix_t) \/ nt <> 0 ->
             exists fpt_results,
               MarcandStats.calculate_fpt_matrix matrix_t matrix_x tmax t_bin nt
               = Py.Ok (fpt_results, fpt_number)
               /\ columns_sum_to_one width fpt_results)).
Proof.
  split.
  - intros stacked fpt_number width H.
    destruct (nucleo_count_matrix_shape _ _ _ _ _ _ _ H) as (Hnt & m & Hm & ->).
    split; [now apply stack_absent_column_sums|].
    unfold NucleoStats.calculate_fpt_matrix. rewrite H. cbn [Py.rbind fst snd].
    eexists. split; [reflexivity|]. now apply normalized_columns.
  - intros nt stacked fpt_number width H.
    destruct (marcand_count_matrix_shape _ _ _ _ _ _ _ _ H)
      as (Hlen & m & Hm & ->).
    split; [now apply stack_absent_column_sums|]. intros Hnt.
    assert (Hnt' : nt <> 0) by (destruct Hnt as [->|Hnt]; assumption).
    unfold MarcandStats.calculate_fpt_matrix. rewrite H. cbn [Py.rbind fst snd].
    eexists. split; [reflexivity|]. now apply normalized_columns.
Qed.

Lemma fpt_columns_sum_to_nt_witness :
  let matrix_t := [[Fin 0; Fin (3#4); Fin 1; Fin (15#8)]] in
  let matrix_x := [[0; 1; 1; 2]] in
  (exists stacked fpt_number width,
      NucleoStats.fpt_count_matrix matrix_t matrix_x 3 1
      = Py.Ok (stacked, fpt_number, width)
      /\ column_sums width stacked = repeat 1 width)
  /\ 1 = Z.of_nat (length matrix_t)
  /\ (exists stacked fpt_number width fpt_results,
         MarcandStats.fpt_count_matrix matrix_t matrix_x 3 1 1
         = Py.Ok (stacked, fpt_number, width)
         /\ column_sums width stacked = repeat 1 width
         /\ MarcandStats.calculate_fpt_matrix matrix_t matrix_x 3 1 1
            = Py.Ok (fpt_results, fpt_number)
         /\ columns_sum_to_one width fpt_results).
Proof.
  cbv zeta.
  pose proof (fpt_columns_sum_to_nt [[Fin 0; Fin (3#4); Fin 1; Fin (15#8)]]
                [[0; 1; 1; 2]] 3 1) as [Hn Hm].
  split; [|split; [reflexivity|]].
  - destruct (NucleoStats.fpt_count_matrix
                [[Fin 0; Fin (3#4); Fin 1; Fin (15#8)]] [[0; 1; 1; 2]] 3 1)
      as [[[stacked fpt_number] width]| |] eqn:E.
    + exists stacked, fpt_number, width. split; [reflexivity|].
      exact (proj1 (Hn stacked fpt_number width eq_refl)).
    + vm_compute in E. discriminate.
    + vm_compute in E. discriminate.
  - destruct (MarcandStats.fpt_count_matrix
                [[Fin 0; Fin (3#4); Fin 1; Fin (15#8)]] [[0; 1; 1; 2]] 3 1 1)
      as [[[stacked fpt_number] width]| |] eqn:E.
    + destruct (Hm 1 stacked fpt_number width E) as [Hc Hr].
      destruct (Hr (or_introl eq_refl)) as (fpt_results & Hres & Hone).
      exists stacked, fpt_number, width, fpt_results.
      split; [reflexivity|]. split; [exact Hc|]. split; [exact Hres|exact Hone].
    + vm_compute in E. discriminate.
    + vm_compute in E. discriminate.
Defined.

End FptFacts.

(** ** Jump kernel *)

Module KernelFacts.
Import NpFloat Kernel SumFacts Spec.

Lemma fadd_Fin_inv a b q : fadd a b = Fin q -> exists x y, a = Fin x /\ b = Fin y.
Proof. destruct a, b; simpl; try discriminate. eauto. Qed.

(** A sum that is finite has finite terms only. *)
Lemma fold_fadd_finite l :
  forall a S, fold_left fadd l a = Fin S ->
              exists q0 qs, a = Fin q0 /\ l = map Fin qs.
Proof.
  induction l as [|x l IH]; intros a S H; simpl in H.
  - exists S, []. now split.
  - destruct (IH _ _ H) as (q' & qs & Hq & ->).
    apply fadd_Fin_inv in Hq. destruct Hq as (xa & xb & -> & ->).
    exists xa, (xb :: qs). now split.
Qed.

Lemma sum_finite l S :
  sum l = Fin S -> exists qs, l = map Fin qs /\ S = Qsum qs.
Proof.
  intros H. destruct (fold_fadd_finite l _ _ H) as (q0 & qs & _ & ->).
  exists qs. split; [reflexivity|].
  rewrite sum_Fin in H. now injection H as <-.
Qed.

Lemma fdiv_Fin x S :
  ~ (S == 0)%Q -> fdiv (Fin x) (Fin S) = Fin (x / S).
Proof.
  intros H. unfold fdiv. destruct (Qeq_bool S 0) eqn:E; [|reflexivity].
  now apply Qeq_bool_eq in E.
Qed.

Lemma Qsum_nonneg_zero qs :
  Forall (fun q => 0 <= q)%Q qs -> (Qsum qs == 0)%Q ->
  Forall (fun q => q == 0)%Q qs.
Proof.
  induction 1 as [|q qs Hq Hqs IH]; intros Hs; [constructor|].
  rewrite Qsum_cons in Hs.
  assert (Hge : (0 <= Qsum qs)%Q).
  { clear -Hqs. induction Hqs as [|x l Hx _ IHl].
    - unfold Qsum. simpl. apply Qle_refl.
    - rewrite Qsum_cons. lra. }
  constructor; [lra|]. apply IH. lra.
Qed.

Lemma tiny_positive : (0 < tiny)%Q.
Proof. reflexivity. Qed.

Lemma max_double_positive : (0 < max_double)%Q.
Proof. reflexivity. Qed.

Lemma underflow_representable q : representable q -> underflow q = q.
Proof.
  intros [Hlo _]. unfold underflow.
  destruct (Qle_bool (Qabs q) tiny) eqn:E; [|reflexivity].
  apply Qle_bool_iff in E. pose proof tiny_positive.
  rewrite Qabs_pos in E by lra. lra.
Qed.

Lemma overflow_representable q : representable q -> overflow (Fin q) = Fin q.
Proof.
  intros [Hlo Hhi]. unfold overflow, Qltb.
  pose proof tiny_positive. pose proof max_double_positive.
  assert (Qle_bool q max_double = true) as -> by now apply Qle_bool_iff.
  assert (Qle_bool (- max_double) q = true) as ->
    by (apply Qle_bool_iff; lra).
  reflexivity.
Qed.

Lemma float_pow2_representable x :
  representable (x ^ 2) -> float_pow2 x = Py.Ok (x ^ 2)%Q.
Proof.
  intros H. unfold float_pow2, Qltb.
  assert (Qle_bool (x ^ 2) max_double = true) as ->
    by (apply Qle_bool_iff; apply H).
  cbn [negb]. now rewrite underflow_representable.
Qed.

Lemma float_div_representable a b :
  ~ (b == 0)%Q -> representable (a / b) ->
  float_div a b = Py.Ok (Fin (a / b)).
Proof.
  intros Hb H. unfold float_div.
  assert (Qeq_bool b 0 = false) as ->
    by (apply not_true_is_false; intros E; now apply Qeq_bool_iff in E).
  now rewrite underflow_representable, overflow_representable.
Qed.

Lemma float_pow2_overflows x :
  (max_double < x ^ 2)%Q -> float_pow2 x = Py.Raise Py.OverflowError.
Proof.
  intros H. unfold float_pow2, Qltb.
  assert (Qle_bool (x ^ 2) max_double = false) as ->; [|reflexivity].
  apply not_true_is_false. intros E. apply Qle_bool_iff in E. lra.
Qed.

Lemma float_pow2_in_range x :
  (x ^ 2 <= max_double)%Q -> float_pow2 x = Py.Ok (underflow (x ^ 2)).
Proof.
  intros H. unfold float_pow2, Qltb.
  assert (Qle_bool (x ^ 2) max_double = true) as ->
    by now apply Qle_bool_iff.
  reflexivity.
Qed.

Lemma underflow_vanishes q : (0 <= q)%Q -> (q <= tiny)%Q -> underflow q = 0%Q.
Proof.
  intros H0 H. unfold underflow.
  assert (Qle_bool (Qabs q) tiny = true) as ->; [|reflexivity].
  apply Qle_bool_iff. now rewrite Qabs_pos.
Qed.

Lemma square_nonneg (x : Q) : (0 <= x ^ 2)%Q.
Proof. change (x ^ 2)%Q with (x * x)%Q. nra. Qed.

Section Gamma.
Variable gamma_density : Q -> Q -> Q -> Q.
Variable gamma_at_infinite : Q -> fl -> fl -> fl.

Notation proba_gamma := (proba_gamma gamma_density gamma_at_infinite).
Notation total_mass := (total_mass gamma_density).
Notation densities := (densities gamma_density).
Notation gamma_pdf := (gamma_pdf gamma_density).

(** Inside the range of a double [proba_gamma] returns the densities
    divided by their sum. *)
Lemma proba_gamma_returns mu theta L :
  (0 < mu)%Q -> (0 < theta)%Q ->
  representable (mu ^ 2) -> representable (theta ^ 2) ->
  representable (mu ^ 2 / theta ^ 2) -> representable (theta ^ 2 / mu) ->
  proba_gamma mu theta L
  = Py.Ok (map (fun v => fdiv v (total_mass mu theta L)) (densities mu theta L)).
Proof.
  intros Hmu Hth Rmu Rth Rshape Rscale. unfold Kernel.proba_gamma.
  rewrite (float_pow2_representable mu Rmu),
          (float_pow2_representable theta Rth).
  cbn [Py.rbind].
  assert (Hth2 : ~ (theta ^ 2 == 0)%Q).
  { change (theta ^ 2)%Q with (theta * theta)%Q. nra. }
  rewrite (float_div_representable (mu ^ 2) (theta ^ 2) Hth2 Rshape).
  cbn [Py.rbind].
  assert (Hmu0 : ~ (mu == 0)%Q) by lra.
  rewrite (float_div_representable (theta ^ 2) mu Hmu0 Rscale).
  reflexivity.
Qed.

(** Outside the range the call raises: OverflowError from [mu**2] or
    [theta**2], ZeroDivisionError when [theta**2] underflows to zero. *)
Lemma proba_gamma_raises mu theta L :
  ((max_double < mu ^ 2)%Q ->
   proba_gamma mu theta L = Py.Raise Py.OverflowError)
  /\ ((mu ^ 2 <= max_double)%Q -> (max_double < theta ^ 2)%Q ->
      proba_gamma mu theta L = Py.Raise Py.OverflowError)
  /\ ((mu ^ 2 <= max_double)%Q -> (theta ^ 2 <= tiny)%Q ->
      proba_gamma mu theta L = Py.Raise Py.ZeroDivisionError).
Proof.
  unfold Kernel.proba_gamma. split; [|split].
  - intros H. now rewrite float_pow2_overflows.
  - intros Hmu H. rewrite (float_pow2_in_range mu Hmu). cbn [Py.rbind].
    now rewrite float_pow2_overflows.
  - intros Hmu H. rewrite (float_pow2_in_range mu Hmu). cbn [Py.rbind].
    pose proof tiny_positive. pose proof max_double_positive.
    assert (tiny <= max_double)%Q by (vm_compute; discriminate).
    rewrite (float_pow2_in_range theta) by lra. cbn [Py.rbind].
    rewrite (underflow_vanishes (theta ^ 2) (square_nonneg theta) H).
    reflexivity.
Qed.

Lemma shape_above_one mu theta :
  (0 < theta)%Q -> (theta < mu)%Q -> (1 < mu ^ 2 / theta ^ 2)%Q.
Proof.
  intros Hth Hlt. change (mu ^ 2)%Q with (mu * mu)%Q.
  change (theta ^ 2)%Q with (theta * theta)%Q.
  apply Qlt_shift_div_l; nra.
Qed.

Lemma scale_positive mu theta :
  (0 < mu)%Q -> (0 < theta)%Q -> (0 < theta ^ 2 / mu)%Q.
Proof.
  intros Hmu Hth. change (theta ^ 2)%Q with (theta * theta)%Q.
  apply Qlt_shift_div_l; [exact Hmu|]. nra.
Qed.

Lemma Qltb_true x y : (x < y)%Q -> Qltb x y = true.
Proof.
  intros H. unfold Qltb. apply negb_true_iff.
  destruct (Qle_bool y x) eqn:E; [|reflexivity].
  apply Qle_bool_iff in E. lra.
Qed.

Lemma Qle_bool_false x y : (y < x)%Q -> Qle_bool x y = false.
Proof.
  intros H. destruct (Qle_bool x y) eqn:E; [|reflexivity].
  apply Qle_bool_iff in E. lra.
Qed.

(** At the point 0 of the support the density is 0 when [theta < mu]. *)
Lemma gamma_pdf_at_zero mu theta x0 :
  (0 < theta)%Q -> (theta < mu)%Q -> (x0 == 0)%Q ->
  gamma_pdf x0 (mu ^ 2 / theta ^ 2) (theta ^ 2 / mu) = Fin 0.
Proof.
  intros Hth Hlt Hx. unfold Kernel.gamma_pdf.
  pose proof (shape_above_one mu theta Hth Hlt) as Ha.
  assert (Hmu : (0 < mu)%Q) by lra.
  pose proof (scale_positive mu theta Hmu Hth) as Hs.
  rewrite (Qle_bool_false (mu ^ 2 / theta ^ 2) 0) by lra.
  rewrite (Qle_bool_false (theta ^ 2 / mu) 0) by lra.
  cbn [orb].
  assert (E1 : Qltb x0 0 = false).
  { unfold Qltb. apply negb_false_iff, Qle_bool_iff. lra. }
  rewrite E1, (Qeq_eq_bool _ _ Hx), (Qltb_true _ _ Ha). reflexivity.
Qed.

(** Every density of the model that is finite is non-negative, when the
    density of SciPy is. *)
Lemma gamma_pdf_nonneg x shape scale q :
  (forall y a s, 0 <= gamma_density y a s)%Q ->
  gamma_pdf x shape scale = Fin q -> (0 <= q)%Q.
Proof.
  intros Hd. unfold Kernel.gamma_pdf.
  destruct (Qle_bool shape 0) eqn:Ea; [discriminate|].
  destruct (Qle_bool scale 0) eqn:Es; [discriminate|]. cbn [orb].
  destruct (Qltb x 0); [intros H; injection H as <-; lra|].
  destruct (Qeq_bool x 0).
  - destruct (Qltb 1 shape); [intros H; injection H as <-; lra|].
    destruct (Qeq_bool shape 1); [|discriminate].
    intros H. injection H as <-.
    assert (0 < scale)%Q.
    { apply Qnot_le_lt. intros Hc. apply Qle_bool_iff in Hc. congruence. }
    apply Qle_shift_div_l; lra.
  - intros H. injection H as <-. apply Hd.
Qed.

End Gamma.

(** C6, as the code has it.  For [mu > 0] and [theta > 0] (Python
    floats) there is no guard on the total mass.  When [mu**2], [theta**2]
    and the two quotients are within the range of a double, [proba_gamma]
    returns the Gamma densities over the support divided by their sum, an
    array of the length of the support: when the total mass is finite and
    not zero the entries sum to one, and the entry at a support point 0 is
    zero provided [theta < mu] (a shape above one); when the total mass is
    zero every entry is NaN.  Outside the range the call raises:
    OverflowError when [mu**2] or [theta**2] is beyond the largest double,
    ZeroDivisionError when [theta**2] underflows to zero. *)
Theorem proba_gamma_normalised (gamma_density : Q -> Q -> Q -> Q)
        (gamma_at_infinite : Q -> fl -> fl -> fl)
        (mu theta : Q) (L : list Q) :
  (0 < mu)%Q -> (0 < theta)%Q ->
  (representable (mu ^ 2) -> representable (theta ^ 2) ->
   representable (mu ^ 2 / theta ^ 2) -> representable (theta ^ 2 / mu) ->
   exists p,
     proba_gamma gamma_density gamma_at_infinite mu theta L = Py.Ok p
     /\ p = map (fun v => fdiv v (total_mass gamma_density mu theta L))
                (densities gamma_density mu theta L)
     /\ length p = length L
     /\ (forall S, total_mass gamma_density mu theta L = Fin S ->
                   ~ (S == 0)%Q ->
           (exists s, sum p = Fin s /\ (s == 1)%Q)
           /\ (forall x0 L', L = x0 :: L' -> (x0 == 0)%Q -> (theta < mu)%Q ->
                 exists q, hd NaN p = Fin q /\ (q == 0)%Q))
     /\ (forall S, total_mass gamma_density mu theta L = Fin S -> (S == 0)%Q ->
           (forall y a s, 0 <= gamma_density y a s)%Q ->
           Forall (fun a => a = NaN) p))
  /\ ((max_double < mu ^ 2)%Q ->
      proba_gamma gamma_density gamma_at_infinite mu theta L
      = Py.Raise Py.OverflowError)
  /\ ((mu ^ 2 <= max_double)%Q -> (max_double < theta ^ 2)%Q ->
      proba_gamma gamma_density gamma_at_infinite mu theta L
      = Py.Raise Py.OverflowError)
  /\ ((mu ^ 2 <= max_double)%Q -> (theta ^ 2 <= tiny)%Q ->
      proba_gamma gamma_density gamma_at_infinite mu theta L
      = Py.Raise Py.ZeroDivisionError).
Proof.
  intros Hmu Hth. split; [|apply proba_gamma_raises].
  intros Rmu Rth Rshape Rscale.
  eexists. split; [now apply proba_gamma_returns|].
  split; [reflexivity|].
  split; [unfold densities; now rewrite !length_map|]. split.
  - intros S HS Hne. unfold total_mass, densities in HS.
    destruct (sum_finite _ _ HS) as (qs & Hqs & HSq).
    unfold total_mass, densities. rewrite HS. split.
    + rewrite Hqs, map_map.
      rewrite (map_ext (fun x => fdiv (Fin x) (Fin S)) (fun x => Fin (x / S)))
        by (intros x; now apply fdiv_Fin).
      rewrite <- (map_map (fun x => (x / S)%Q) Fin), sum_Fin.
      eexists. split; [reflexivity|].
      rewrite Qsum_div, <- HSq. now apply Qmult_inv_r.
    + intros x0 L' -> Hx0 Hlt. cbn [map hd].
      rewrite gamma_pdf_at_zero by assumption.
      rewrite fdiv_Fin by assumption.
      eexists. split; [reflexivity|]. unfold Qdiv. ring.
  - intros S HS Hz Hd. unfold total_mass, densities in *. rewrite HS.
    destruct (sum_finite _ _ HS) as (qs & Hqs & HSq).
    assert (Hnn : Forall (fun q => 0 <= q)%Q qs).
    { apply Forall_forall. intros q Hq.
      assert (Hin : In (Fin q) (map Fin qs)) by now apply in_map.
      rewrite <- Hqs in Hin. apply in_map_iff in Hin.
      destruct Hin as (x & Hx & _). eapply gamma_pdf_nonneg; eauto. }
    assert (Hall : Forall (fun q => q == 0)%Q qs).
    { apply Qsum_nonneg_zero; [exact Hnn|]. now rewrite <- HSq. }
    rewrite Hqs. apply Forall_forall. intros a Ha.
    apply in_map_iff in Ha. destruct Ha as (v & <- & Hv).
    apply in_map_iff in Hv. destruct Hv as (q & <- & Hq).
    rewrite Forall_forall in Hall. specialize (Hall q Hq).
    unfold fdiv. now rewrite (Qeq_eq_bool _ _ Hz), (Qeq_eq_bool _ _ Hall).
Qed.

(** Two inputs with [mu > 0] and [theta > 0], whatever SciPy computes.  On
    the support [{0}] with [mu = 2], [theta = 1] the total mass is zero, and
    [proba_gamma] returns [[NaN]] instead of failing.  On the support
    [{0, 1}] with [mu = theta = 1] the entry at index 0 is not zero. *)
Lemma proba_gamma_unguarded :
  (forall dens inf,
      total_mass dens 2 1 [0%Q] = Fin 0
      /\ proba_gamma dens inf 2 1 [0%Q] = Py.Ok [NaN])
  /\ (forall dens inf,
         (forall y a s, 0 <= dens y a s)%Q ->
         exists p0 p1 q,
           proba_gamma dens inf 1 1 [0%Q; 1%Q] = Py.Ok [p0; p1]
           /\ p0 = Fin q /\ ~ (q == 0)%Q).
Proof.
  split.
  - intros dens inf. split; reflexivity.
  - intros dens inf Hd. vm_compute proba_gamma.
    specialize (Hd (1#1) (1#1) (1#1)).
    destruct (dens (1#1) (1#1) (1#1)) as [n d].
    unfold Qle in Hd. simpl in Hd.
    destruct n as [|n|n]; try lia;
      do 3 eexists; (split; [reflexivity|]); (split; [reflexivity|]);
      discriminate.
Qed.

Lemma proba_gamma_normalised_witness :
  let dens := fun _ _ _ : Q => (1 # 3)%Q in
  let inf := fun (_ : Q) (_ _ : fl) => NaN in
  (0 < 2)%Q /\ (0 < 1)%Q
  /\ representable (2 ^ 2) /\ representable (1 ^ 2)
  /\ representable (2 ^ 2 / 1 ^ 2) /\ representable (1 ^ 2 / 2)
  /\ exists p,
      proba_gamma dens inf 2 1 [0%Q; 1%Q; 2%Q] = Py.Ok p
      /\ p = map (fun v => fdiv v (total_mass dens 2 1 [0%Q; 1%Q; 2%Q]))
                 (densities dens 2 1 [0%Q; 1%Q; 2%Q])
      /\ (exists s, sum p = Fin s /\ (s == 1)%Q)
      /\ (exists q, hd NaN p = Fin q /\ (q == 0)%Q).
Proof.
  intros dens inf.
  assert (H2 : (0 < 2)%Q) by reflexivity.
  assert (H1 : (0 < 1)%Q) by reflexivity.
  assert (R1 : representable (2 ^ 2)) by (split; vm_compute; congruence).
  assert (R2 : representable (1 ^ 2)) by (split; vm_compute; congruence).
  assert (R3 : representable (2 ^ 2 / 1 ^ 2))
    by (split; vm_compute; congruence).
  assert (R4 : representable (1 ^ 2 / 2)) by (split; vm_compute; congruence).
  split; [exact H2|]. split; [exact H1|].
  split; [exact R1|]. split; [exact R2|]. split; [exact R3|].
  split; [exact R4|].
  destruct (proba_gamma_normalised dens inf 2 1 [0%Q; 1%Q; 2%Q] H2 H1)
    as (Hin & _).
  destruct (Hin R1 R2 R3 R4) as (p & Hp & Hform & Hlen & Hsum & _).
  assert (Hmass : total_mass dens 2 1 [0%Q; 1%Q; 2%Q]
                  = Fin (0 + 0 + (1 # 3) + (1 # 3))) by reflexivity.
  destruct (Hsum _ Hmass ltac:(discriminate)) as (Hone & Hzero).
  exists p. split; [exact Hp|]. split; [exact Hform|].
  split; [exact Hone|].
  apply (Hzero 0%Q [1%Q; 2%Q] eq_refl); reflexivity.
Defined.

(** The two failures of Python floats outside the range, on inputs with
    [mu > 0] and [theta > 0]: [mu = 1e200] and [theta = 1e-200]. *)
Example proba_gamma_out_of_range (dens : Q -> Q -> Q -> Q)
        (inf : Q -> fl -> fl -> fl) :
  proba_gamma dens inf (inject_Z (10 ^ 200)) 1 [0%Q; 1%Q; 2%Q]
  = Py.Raise Py.OverflowError
  /\ proba_gamma dens inf 1 (1 # 10 ^ 200) [0%Q; 1%Q; 2%Q]
     = Py.Raise Py.ZeroDivisionError.
Proof. split; reflexivity. Qed.

End KernelFacts.

(* ===================================================================== *)
(** * Blocks of a landscape: properties *)
(* ===================================================================== *)

Module BlocksFacts.
Import NpFloat Landscape Blocks.

Lemma leading_nil k : leading [] k <-> k = O.
Proof.
  unfold leading. split.
  - intros [H _]. destruct k as [|k]; [reflexivity|].
    specialize (H O ltac:(lia)). discriminate.
  - intros ->. split; [intros i Hi; lia|reflexivity].
Qed.

Lemma leading_false m k : leading (false :: m) k <-> k = O.
Proof.
  unfold leading. split.
  - intros [H _]. destruct k as [|k]; [reflexivity|].
    specialize (H O ltac:(lia)). discriminate.
  - intros ->. split; [intros i Hi; lia|reflexivity].
Qed.

Lemma leading_true m k :
  leading (true :: m) k <-> exists k', k = S k' /\ leading m k'.
Proof.
  unfold leading. split.
  - intros [H Hk]. destruct k as [|k]; [discriminate|].
    exists k. split; [reflexivity|]. split; [|exact Hk].
    intros i Hi. apply (H (S i)). lia.
  - intros (k' & -> & H & Hk). split; [|exact Hk].
    intros [|i] Hi; [reflexivity|]. apply H. lia.
Qed.

Lemma block_nil s e : ~ block [] s e.
Proof.
  intros (Hlt & Hin & _). specialize (Hin s ltac:(lia)).
  destruct s; discriminate.
Qed.

Lemma block_zero_false m e : ~ block (false :: m) O e.
Proof. intros (Hlt & Hin & _). specialize (Hin O ltac:(lia)). discriminate. Qed.

Lemma block_zero_true m e :
  block (true :: m) O e <-> exists k, e = S k /\ leading m k.
Proof.
  unfold block, leading. split.
  - intros (Hlt & Hin & _ & He). destruct e as [|k]; [lia|].
    exists k. split; [reflexivity|]. split; [|exact He].
    intros i Hi. apply (Hin (S i)). lia.
  - intros (k & -> & H & Hk).
    split; [lia|]. split; [|split; [now left|exact Hk]].
    intros [|i] Hi; [reflexivity|]. apply H. lia.
Qed.

Lemma block_succ b m s e :
  block (b :: m) (S s) e
  <-> exists e', e = S e' /\ block m s e' /\ (s = O -> b = false).
Proof.
  unfold block. split.
  - intros (Hlt & Hin & Hleft & He). destruct e as [|e']; [lia|].
    exists e'. split; [reflexivity|]. split; [repeat split|].
    + lia.
    + intros i Hi. apply (Hin (S i)). lia.
    + destruct Hleft as [Hleft|Hleft]; [discriminate|].
      destruct s as [|s]; [now left|right].
      replace (S (S s) - 1)%nat with (S s) in Hleft by lia.
      replace (S s - 1)%nat with s by lia. exact Hleft.
    + exact He.
    + intros ->. destruct Hleft as [Hleft|Hleft]; [discriminate|exact Hleft].
  - intros (e' & -> & (Hlt & Hin & Hleft & He) & Hb). repeat split.
    + lia.
    + intros [|i] Hi; [lia|]. apply Hin. lia.
    + right. destruct s as [|s]; [now apply Hb|].
      destruct Hleft as [Hleft|Hleft]; [discriminate|].
      replace (S s - 1)%nat with s in Hleft by lia.
      replace (S (S s) - 1)%nat with (S s) by lia. exact Hleft.
    + exact He.
Qed.

Ltac at_offset := split; [lia|split; [lia|]].

(** The couples of the sign-change scan are the blocks of the mask. *)
Lemma runs_aux_blocks m :
  (forall off s e,
      In (s, e) (runs_aux None off m)
      <-> exists s' e', s = (off + s')%nat /\ e = (off + e')%nat /\ block m s' e')
  /\ (forall c off s e,
         In (s, e) (runs_aux (Some c) off m)
         <-> (s = c /\ exists k, e = (off + k)%nat /\ leading m k)
             \/ (exists s' e', s = (off + S s')%nat /\ e = (off + e')%nat
                               /\ block m (S s') e')).
Proof.
  induction m as [|b m [IH1 IH2]].
  - split.
    + intros off s e. simpl. split; [contradiction|].
      intros (s' & e' & _ & _ & H). now apply block_nil in H.
    + intros c off s e. simpl. split.
      * intros [H|[]]. injection H as <- <-. left. split; [reflexivity|].
        exists O. split; [lia|]. now apply leading_nil.
      * intros [(-> & k & -> & Hk)|(s' & e' & _ & _ & H)].
        -- apply leading_nil in Hk. subst k. left. f_equal. lia.
        -- now apply block_nil in H.
  - split.
    + intros off s e. destruct b; simpl runs_aux.
      * rewrite IH2. split.
        -- intros [(-> & k & -> & Hk)|(s' & e' & -> & -> & H)].
           ++ exists O, (S k). at_offset.
              apply block_zero_true. now exists k.
           ++ exists (S (S s')), (S e'). at_offset.
              apply block_succ. exists e'.
              split; [reflexivity|]. split; [exact H|discriminate].
        -- intros (s' & e' & -> & -> & H). destruct s' as [|s'].
           ++ apply block_zero_true in H. destruct H as (k & -> & Hk).
              left. split; [lia|]. exists k. split; [lia|exact Hk].
           ++ apply block_succ in H. destruct H as (e'' & -> & H & Hb).
              destruct s' as [|s']; [now specialize (Hb eq_refl)|].
              right. exists s', e''. at_offset. exact H.
      * rewrite IH1. split.
        -- intros (s' & e' & -> & -> & H). exists (S s'), (S e').
           at_offset. apply block_succ. exists e'.
           split; [reflexivity|]. split; [exact H|reflexivity].
        -- intros (s' & e' & -> & -> & H). destruct s' as [|s'].
           ++ now apply block_zero_false in H.
           ++ apply block_succ in H. destruct H as (e'' & -> & H & _).
              exists s', e''. at_offset. exact H.
    + intros c off s e. destruct b; simpl runs_aux.
      * rewrite IH2. split.
        -- intros [(-> & k & -> & Hk)|(s' & e' & -> & -> & H)].
           ++ left. split; [reflexivity|]. exists (S k). split; [lia|].
              apply leading_true. now exists k.
           ++ right. exists (S s'), (S e'). at_offset.
              apply block_succ. exists e'.
              split; [reflexivity|]. split; [exact H|discriminate].
        -- intros [(-> & k & -> & Hk)|(s' & e' & -> & -> & H)].
           ++ apply leading_true in Hk. destruct Hk as (k' & -> & Hk').
              left. split; [reflexivity|]. exists k'. split; [lia|exact Hk'].
           ++ apply block_succ in H. destruct H as (e'' & -> & H & Hb).
              destruct s' as [|s']; [now specialize (Hb eq_refl)|].
              right. exists s', e''. at_offset. exact H.
      * simpl In. rewrite IH1. split.
        -- intros [H|(s' & e' & -> & -> & H)].
           ++ injection H as <- <-. left. split; [reflexivity|].
              exists O. split; [lia|]. now apply leading_false.
           ++ right. exists s', (S e'). at_offset.
              apply block_succ. exists e'.
              split; [reflexivity|]. split; [exact H|reflexivity].
        -- intros [(-> & k & -> & Hk)|(s' & e' & -> & -> & H)].
           ++ apply leading_false in Hk. subst k. left. f_equal. lia.
           ++ apply block_succ in H. destruct H as (e'' & -> & H & _).
              right. exists s', e''. at_offset. exact H.
Qed.

(** ** The scan of [find_blocks] *)

Lemma where_from_succ off v l :
  Np.where_from (S off) v l = map S (Np.where_from off v l).
Proof.
  revert off. induction l as [|x l IH]; intros off; [reflexivity|].
  simpl. destruct (x =? v); simpl; now rewrite IH.
Qed.

Lemma where_from_app off v l1 l2 :
  Np.where_from off v (l1 ++ l2)
  = Np.where_from off v l1 ++ Np.where_from (off + length l1) v l2.
Proof.
  revert off. induction l1 as [|x l1 IH]; intros off; simpl.
  - now rewrite Nat.add_0_r.
  - rewrite IH. replace (S off + length l1)%nat with (off + S (length l1))%nat by lia.
    now destruct (x =? v).
Qed.

Lemma diff_snoc x t z :
  Np.diff ((x :: t) ++ [z]) = Np.diff (x :: t) ++ [z - last (x :: t) x].
Proof.
  revert x. induction t as [|y t IH]; intros x; [reflexivity|].
  change ((x :: y :: t) ++ [z]) with (x :: (y :: t) ++ [z]).
  simpl app. rewrite !LandscapeFacts.diff_cons2.
  change (y :: t ++ [z]) with ((y :: t) ++ [z]). rewrite IH.
  change (last (x :: y :: t) x) with (last (y :: t) x).
  now rewrite (DistributionFacts.last_default y t y x).
Qed.

Lemma diff_length x t : length (Np.diff (x :: t)) = length t.
Proof.
  revert x. induction t as [|y t IH]; intros x; [reflexivity|].
  rewrite LandscapeFacts.diff_cons2. cbn [length]. now rewrite IH.
Qed.

Lemma last_map {A B} (f : A -> B) (l : list A) (d : A) :
  last (map f l) (f d) = f (last l d).
Proof.
  induction l as [|x l IH]; [reflexivity|].
  destruct l as [|y l]; [reflexivity|]. exact IH.
Qed.

Lemma combine_map {A B} (f : A -> B) (l1 l2 : list A) :
  combine (map f l1) (map f l2)
  = map (fun se => (f (fst se), f (snd se))) (combine l1 l2).
Proof.
  revert l2. induction l1 as [|x l1 IH]; intros [|y l2]; simpl; try reflexivity.
  now rewrite IH.
Qed.

Lemma getitem_last {A} (x : A) (t : list A) :
  Py.getitem (x :: t) (-1) = Py.Ok (last (x :: t) x).
Proof.
  unfold Py.getitem, Py.norm_index.
  replace (0 <=? -1) with false by reflexivity. cbn [andb].
  replace (-1 <? 0) with true by reflexivity.
  assert ((- Z.of_nat (length (x :: t)) <=? -1) = true) as ->
    by (apply Z.leb_le; simpl length; lia).
  cbn [andb].
  replace (Z.to_nat (Z.of_nat (length (x :: t)) + -1)) with (length t)
    by (simpl length; lia).
  revert x. induction t as [|y t IH]; intros x; [reflexivity|].
  simpl length. change (nth_error (x :: y :: t) (S (length t)))
    with (nth_error (y :: t) (length t)).
  rewrite IH. change (last (x :: y :: t) x) with (last (y :: t) x).
  f_equal. apply DistributionFacts.last_default.
Qed.

Lemma diffs_of_false_cons b m' :
  diffs_of false (b :: m')
  = (Z.b2z b - 0) :: Np.diff (map Z.b2z (b :: m'))
                  ++ [0 - Z.b2z (last (b :: m') b)].
Proof.
  rewrite LandscapeFacts.diffs_of_cons. unfold diffs_of.
  change (Z.b2z false) with 0. f_equal.
  change (Z.b2z b :: map Z.b2z m' ++ [0]) with ((Z.b2z b :: map Z.b2z m') ++ [0]).
  rewrite diff_snoc.
  change (Z.b2z b :: map Z.b2z m') with (map Z.b2z (b :: m')).
  now rewrite (last_map Z.b2z (b :: m') b).
Qed.

(** On an array with at least one site [find_blocks] returns the couples of
    the scan that [binding_length] runs over the padded mask. *)
Lemma find_blocks_runs a rest v :
  find_blocks (a :: rest) v
  = Py.Ok (map (fun se => (Z.of_nat (fst se), Z.of_nat (snd se)))
               (runs_aux None 0 (map (fun a => isclose a v) (a :: rest)))).
Proof.
  unfold find_blocks.
  set (m := map (fun a => isclose a v) (a :: rest)).
  assert (Hm : m = isclose a v :: map (fun a => isclose a v) rest) by reflexivity.
  set (b := isclose a v) in *. set (m' := map (fun a => isclose a v) rest) in *.
  replace (Py.getitem m 0) with (Py.Ok b) by (now rewrite Hm).
  replace (Py.getitem m (-1)) with (Py.Ok (last (b :: m') b))
    by (rewrite Hm; symmetry; apply getitem_last).
  cbn [Py.rbind].
  f_equal.
  rewrite <- (proj1 (LandscapeFacts.zip_starts_ends m 0%nat)).
  rewrite <- combine_map. unfold Np.where_eq.
  set (d := Np.diff (map Z.b2z m)).
  assert (Hd : diffs_of false m
               = (Z.b2z b - 0) :: d ++ [0 - Z.b2z (last (b :: m') b)])
    by (unfold d; rewrite Hm; apply diffs_of_false_cons).
  assert (Hlen : S (length d) = length (a :: rest)).
  { unfold d. rewrite Hm. simpl map. rewrite diff_length.
    unfold m'. rewrite !length_map. reflexivity. }
  rewrite Hd. f_equal.
  - cbn [Np.where_from]. rewrite where_from_app, where_from_succ.
    assert (Np.where_from (1 + length d) 1 [0 - Z.b2z (last (b :: m') b)] = [])
      as -> by (now destruct (last (b :: m') b)).
    rewrite app_nil_r.
    assert (Hs : map (fun i => Z.of_nat i + 1) (Np.where_from 0 1 d)
                 = map Z.of_nat (map S (Np.where_from 0 1 d)))
      by (rewrite map_map; apply map_ext; intros; lia).
    rewrite Hs. now destruct b.
  - cbn [Np.where_from].
    assert ((Z.b2z b - 0 =? -1) = false) as -> by now destruct b.
    rewrite where_from_app, where_from_succ, map_app.
    assert (Hs : map (fun i => Z.of_nat i + 1) (Np.where_from 0 (-1) d)
                 = map Z.of_nat (map S (Np.where_from 0 (-1) d)))
      by (rewrite map_map; apply map_ext; intros; lia).
    rewrite Hs. destruct (last (b :: m') b).
    + cbn [Np.where_from Z.b2z]. replace (0 - 1 =? -1) with true by reflexivity.
      now rewrite <- Hlen.
    + cbn [Np.where_from Z.b2z]. replace (0 - 0 =? -1) with false by reflexivity.
      now rewrite app_nil_r.
Qed.

(** ** Every set site lies in a block *)

Lemma leading_exists m : exists k, leading m k.
Proof.
  induction m as [|b m [k Hk]].
  - exists O. now apply leading_nil.
  - destruct b.
    + exists (S k). apply leading_true. now exists k.
    + exists O. now apply leading_false.
Qed.

Lemma run_right m :
  forall i, nth i m false = true ->
    exists e, (i < e)%nat
              /\ (forall j, (i <= j < e)%nat -> nth j m false = true)
              /\ nth e m false = false.
Proof.
  induction m as [|b m IH]; intros i Hi.
  - destruct i; discriminate.
  - destruct i as [|i].
    + simpl in Hi. subst b. destruct (leading_exists m) as [k [Hk1 Hk2]].
      exists (S k). split; [lia|]. split; [|exact Hk2].
      intros [|j] Hj; [reflexivity|]. apply Hk1. lia.
    + destruct (IH i Hi) as (e & He & Hall & Hend).
      exists (S e). split; [lia|]. split; [|exact Hend].
      intros [|j] Hj; [lia|]. apply Hall. lia.
Qed.

Lemma run_left (m : list bool) :
  forall i, nth i m false = true ->
    exists s, (s <= i)%nat
              /\ (forall j, (s <= j <= i)%nat -> nth j m false = true)
              /\ (s = O \/ nth (s - 1) m false = false).
Proof.
  induction i as [|i IH]; intros Hi.
  - exists O. split; [lia|]. split; [|now left].
    intros j Hj. now replace j with O by lia.
  - destruct (nth i m false) eqn:Ei.
    + destruct (IH eq_refl) as (s & Hs & Hall & Hleft).
      exists s. split; [lia|]. split; [|exact Hleft].
      intros j Hj. destruct (Nat.eq_dec j (S i)) as [->|Hne]; [exact Hi|].
      apply Hall. lia.
    + exists (S i). split; [lia|]. split.
      * intros j Hj. now replace j with (S i) by lia.
      * right. now replace (S i - 1)%nat with i by lia.
Qed.

Lemma block_around m i :
  nth i m false = true -> exists s e, block m s e /\ (s <= i < e)%nat.
Proof.
  intros Hi.
  destruct (run_left m i Hi) as (s & Hs & Hl & Hleft).
  destruct (run_right m i Hi) as (e & He & Hr & Hend).
  exists s, e. split; [|lia].
  split; [lia|]. split; [|split; assumption].
  intros j Hj. destruct (Nat.le_gt_cases j i); [apply Hl|apply Hr]; lia.
Qed.

(** ** The lookup *)

Lemma existsb_mask {A} (f : A -> bool) (l : list A) :
  existsb (fun b => b) (map f l) = existsb f l.
Proof. induction l as [|y t IH]; [reflexivity|]. simpl. now rewrite IH. Qed.

Lemma select_mask {A} (f : A -> bool) (l : list A) :
  map fst (filter snd (combine l (map f l))) = filter f l.
Proof.
  induction l as [|y t IH]; [reflexivity|]. simpl.
  destruct (f y); simpl; now rewrite IH.
Qed.

Lemma first_selected {A} (f : A -> bool) (l : list A) :
  (if existsb f l
   then Py.rbind (Py.getitem (filter f l) 0) (fun found => Py.Ok (Some found))
   else Py.Ok None)
  = Py.Ok (find f l).
Proof.
  induction l as [|y t IH]; [reflexivity|].
  simpl. destruct (f y); [reflexivity|]. exact IH.
Qed.

Lemma find_interval_find x l value :
  find_interval_containing_value (x :: l) value
  = Py.Ok (find (fun se => (fst se <=? value) && (value <? snd se)) (x :: l)).
Proof.
  unfold find_interval_containing_value.
  rewrite existsb_mask, select_mask. apply first_selected.
Qed.

(** X1. [find_blocks] raises [IndexError] on the empty array; on any other
    array the couples it returns are exactly the blocks of the sites close
    to [alpha_value]: maximal runs, each site of a run close to the value,
    the site before and the site after (when they exist) not. *)
Theorem find_blocks_maximal_runs (array : list fl) (alpha_value : fl) :
  (array = [] -> find_blocks array alpha_value = Py.Raise Py.IndexError)
  /\ (array <> [] ->
      exists rs,
        find_blocks array alpha_value = Py.Ok rs
        /\ forall s e,
            In (s, e) rs
            <-> exists s' e',
                s = Z.of_nat s' /\ e = Z.of_nat e'
                /\ block (map (fun a => isclose a alpha_value) array) s' e').
Proof.
  split.
  - intros ->. reflexivity.
  - intros Hne. destruct array as [|a rest]; [congruence|].
    eexists. split; [apply find_blocks_runs|].
    intros s e. rewrite in_map_iff. split.
    + intros ([s' e'] & H & Hin). injection H as <- <-.
      apply (proj1 (runs_aux_blocks _)) in Hin.
      destruct Hin as (s1 & e1 & Hs & He & Hb). simpl in Hs, He. subst.
      now exists s1, e1.
    + intros (s' & e' & -> & -> & Hb). exists (s', e').
      split; [reflexivity|].
      apply (proj1 (runs_aux_blocks _)). now exists s', e'.
Qed.

Lemma find_blocks_maximal_runs_witness :
  let array := [Fin 1; Fin 1; Fin 0; Fin 1] in
  array <> []
  /\ exists rs,
      find_blocks array (Fin 1) = Py.Ok rs
      /\ forall s e,
          In (s, e) rs
          <-> exists s' e',
              s = Z.of_nat s' /\ e = Z.of_nat e'
              /\ block (map (fun a => isclose a (Fin 1)) array) s' e'.
Proof.
  cbv zeta.
  assert (Hne : [Fin 1; Fin 1; Fin 0; Fin 1] <> []) by discriminate.
  split; [exact Hne|].
  exact (proj2 (find_blocks_maximal_runs [Fin 1; Fin 1; Fin 0; Fin 1] (Fin 1))
               Hne).
Defined.

(** X2. Looking a site up in the blocks of its own array:
    [find_interval_containing_value(find_blocks(array, v), i)] returns a
    block that contains [i] when the site [i] is close to [v]; it returns
    [None] when the site is not close to [v] and the array has a block
    elsewhere; it raises [IndexError] when the array has no block at all. *)
Theorem find_interval_in_own_blocks (array : list fl) (alpha_value : fl)
        (rs : list (Z * Z)) (i : nat) :
  find_blocks array alpha_value = Py.Ok rs ->
  let m := map (fun a => isclose a alpha_value) array in
  (nth i m false = true ->
   exists s e,
     find_interval_containing_value rs (Z.of_nat i)
     = Py.Ok (Some (Z.of_nat s, Z.of_nat e))
     /\ block m s e /\ (s <= i < e)%nat)
  /\ (nth i m false = false ->
      (exists j, nth j m false = true) ->
      find_interval_containing_value rs (Z.of_nat i) = Py.Ok None)
  /\ ((forall j, nth j m false = false) ->
      find_interval_containing_value rs (Z.of_nat i) = Py.Raise Py.IndexError).
Proof.
  intros Hrs m.
  destruct (find_blocks_maximal_runs array alpha_value) as [Hempty Hspec].
  destruct array as [|a rest]; [rewrite Hempty in Hrs by reflexivity; discriminate|].
  destruct Hspec as (rs' & Hrs' & Hspec); [discriminate|].
  rewrite Hrs in Hrs'. injection Hrs' as <-. fold m in Hspec.
  assert (Hany : forall j, nth j m false = true -> exists x l, rs = x :: l).
  { intros j Hj. destruct (block_around m j Hj) as (s & e & Hb & _).
    assert (Hin : In (Z.of_nat s, Z.of_nat e) rs) by (apply Hspec; now exists s, e).
    destruct rs as [|x l]; [contradiction|now exists x, l]. }
  split; [|split].
  - intros Hi. destruct (Hany i Hi) as (x & l & ->).
    rewrite find_interval_find.
    destruct (block_around m i Hi) as (s & e & Hb & Hse).
    assert (Hin : In (Z.of_nat s, Z.of_nat e) (x :: l))
      by (apply Hspec; now exists s, e).
    destruct (find (fun se => (fst se <=? Z.of_nat i) && (Z.of_nat i <? snd se))
                   (x :: l)) as [[s1 e1]|] eqn:Ef.
    + apply find_some in Ef. destruct Ef as [Hin1 Hin2]. simpl in Hin2.
      apply andb_true_iff in Hin2. destruct Hin2 as [H1 H2].
      apply Z.leb_le in H1. apply Z.ltb_lt in H2.
      apply Hspec in Hin1. destruct Hin1 as (s' & e' & -> & -> & Hb').
      exists s', e'. split; [reflexivity|]. split; [exact Hb'|lia].
    + exfalso. apply (find_none _ _ Ef) in Hin. simpl in Hin.
      apply andb_false_iff in Hin.
      destruct Hin as [H|H]; [apply Z.leb_gt in H|apply Z.ltb_ge in H]; lia.
  - intros Hi [j Hj]. destruct (Hany j Hj) as (x & l & ->).
    rewrite find_interval_find.
    destruct (find (fun se => (fst se <=? Z.of_nat i) && (Z.of_nat i <? snd se))
                   (x :: l)) as [[s1 e1]|] eqn:Ef; [|reflexivity].
    exfalso. apply find_some in Ef. destruct Ef as [Hin1 Hin2]. simpl in Hin2.
    apply andb_true_iff in Hin2. destruct Hin2 as [H1 H2].
    apply Z.leb_le in H1. apply Z.ltb_lt in H2.
    apply Hspec in Hin1. destruct Hin1 as (s' & e' & -> & -> & (_ & Hall & _)).
    rewrite Hall in Hi by lia. discriminate.
  - intros Hnone. destruct rs as [|[s e] l]; [reflexivity|].
    exfalso. assert (Hin : In (s, e) ((s, e) :: l)) by now left.
    apply Hspec in Hin. destruct Hin as (s' & e' & _ & _ & (Hlt & Hall & _)).
    specialize (Hall s' ltac:(lia)). rewrite Hnone in Hall. discriminate.
Qed.

Lemma find_interval_in_own_blocks_witness :
  let array := [Fin 1; Fin 1; Fin 0; Fin 1] in
  let m := map (fun a => isclose a (Fin 1)) array in
  find_blocks array (Fin 1) = Py.Ok [(0, 2); (3, 4)]
  /\ nth 1 m false = true
  /\ exists s e,
      find_interval_containing_value [(0, 2); (3, 4)] (Z.of_nat 1)
      = Py.Ok (Some (Z.of_nat s, Z.of_nat e))
      /\ block m s e /\ (s <= 1 < e)%nat.
Proof.
  cbv zeta.
  assert (H : find_blocks [Fin 1; Fin 1; Fin 0; Fin 1] (Fin 1)
              = Py.Ok [(0, 2); (3, 4)]) by reflexivity.
  split; [exact H|]. split; [reflexivity|].
  exact (proj1 (find_interval_in_own_blocks _ _ _ 1%nat H) eq_refl).
Defined.

End BlocksFacts.

(* ===================================================================== *)
(** * The correction pass: what it changes and what it leaves *)
(* ===================================================================== *)

Module BindingLengthFacts.
Import Landscape.

Section Pass.
Context {A : Type}.
Variable eqb : A -> A -> bool.
Variables (alphao alphaf : A) (bpmin : Z).

Notation is_f := (is_f eqb alphaf).
Notation span := (span eqb alphaf).
Notation fix_runs := (fix_runs eqb alphao alphaf bpmin).
Notation run_lengths_aux := (run_lengths_aux eqb alphaf).

Lemma fix_runs_length in_run kill a :
  length (fix_runs in_run kill a) = length a.
Proof.
  revert in_run kill. induction a as [|x t IH]; intros in_run kill; [reflexivity|].
  simpl. destruct (Landscape.is_f eqb alphaf x); simpl; now rewrite IH.
Qed.

Lemma fix_runs_sites in_run kill a :
  forall i x,
    nth_error a i = Some x ->
    nth_error (fix_runs in_run kill a) i = Some x
    \/ (is_f x = true /\ nth_error (fix_runs in_run kill a) i = Some alphao).
Proof.
  revert in_run kill. induction a as [|y t IH]; intros in_run kill i x Hx.
  - destruct i; discriminate.
  - destruct (is_f y) eqn:Ey.
    + rewrite (LandscapeFacts.fix_runs_cons_f _ _ _ _ _ _ y t Ey). cbn zeta.
      destruct i as [|i].
      * simpl in Hx. injection Hx as <-. cbn [nth_error].
        destruct (if in_run then kill else Z.of_nat (S (span t)) <? bpmin);
          [right; now split|now left].
      * simpl in Hx. cbn [nth_error]. now apply IH.
    + rewrite (LandscapeFacts.fix_runs_cons_nf _ _ _ _ _ _ y t Ey).
      destruct i as [|i]; [now left|]. simpl in Hx. simpl. now apply IH.
Qed.

(** Arrays whose runs are all long enough are left as they are. *)
Lemma fix_runs_fixed a :
  (Forall (fun k => bpmin <= Z.of_nat k) (run_lengths_aux 0 a) ->
   fix_runs false false a = a)
  /\ (forall c,
         Forall (fun k => bpmin <= Z.of_nat k) (run_lengths_aux (S c) a) ->
         fix_runs true false a = a /\ bpmin <= Z.of_nat (S c + span a)).
Proof.
  induction a as [|x t [IH1 IH2]].
  - split; [reflexivity|]. intros c H. simpl in H.
    split; [reflexivity|]. apply Forall_inv in H. simpl. lia.
  - destruct (is_f x) eqn:Ex.
    + split.
      * intros H. simpl Landscape.run_lengths_aux in H. rewrite Ex in H.
        destruct (IH2 O H) as [Hfix Hlen].
        rewrite (LandscapeFacts.fix_runs_cons_f _ _ _ _ _ _ x t Ex). cbn zeta iota.
        assert ((Z.of_nat (S (span t)) <? bpmin) = false) as ->
          by (apply Z.ltb_ge; simpl in Hlen; lia).
        now rewrite Hfix.
      * intros c H. simpl Landscape.run_lengths_aux in H. rewrite Ex in H.
        destruct (IH2 (S c) H) as [Hfix Hlen].
        rewrite (LandscapeFacts.fix_runs_cons_f _ _ _ _ _ _ x t Ex). cbn zeta iota.
        rewrite Hfix. split; [reflexivity|].
        rewrite (LandscapeFacts.span_cons_f _ _ x t Ex). lia.
    + split.
      * intros H. simpl Landscape.run_lengths_aux in H. rewrite Ex in H.
        rewrite (LandscapeFacts.fix_runs_cons_nf _ _ _ _ _ _ x t Ex).
        now rewrite IH1.
      * intros c H. simpl Landscape.run_lengths_aux in H. rewrite Ex in H.
        rewrite (LandscapeFacts.fix_runs_cons_nf _ _ _ _ _ _ x t Ex).
        rewrite (LandscapeFacts.span_cons_nf _ _ x t Ex).
        split; [|apply Forall_inv in H; lia].
        apply Forall_inv_tail in H. now rewrite IH1.
Qed.

Lemma run_lengths_aux_positive c a :
  Forall (fun k => (1 <= k)%nat) (run_lengths_aux c a).
Proof.
  revert c. induction a as [|x t IH]; intros c; simpl.
  - destruct c; constructor; [lia|constructor].
  - destruct (Landscape.is_f eqb alphaf x); [apply IH|].
    destruct c; [apply IH|]. constructor; [lia|apply IH].
Qed.

End Pass.

(** X3. [binding_length] returns an array of the same length, in which every
    site either keeps its value or held [alphaf] and now holds [alphao]: a
    site that is not equal to [alphaf] is never touched. *)
Theorem binding_length_touches_free_sites_only {A : Type}
        (eqb : A -> A -> bool) (a : list A) (alphao alphaf : A) (bpmin : Z) :
  length (binding_length eqb a alphao alphaf bpmin) = length a
  /\ forall i x,
      nth_error a i = Some x ->
      nth_error (binding_length eqb a alphao alphaf bpmin) i = Some x
      \/ (eqb x alphaf = true
          /\ nth_error (binding_length eqb a alphao alphaf bpmin) i
             = Some alphao).
Proof.
  rewrite LandscapeFacts.binding_length_fix_runs. split.
  - apply fix_runs_length.
  - apply fix_runs_sites.
Qed.

Lemma binding_length_touches_free_sites_only_witness :
  nth_error [1; 1; 0; 1; 1; 1] 1%nat = Some 1
  /\ (nth_error (binding_length Z.eqb [1; 1; 0; 1; 1; 1] 0 1 3) 1%nat = Some 1
      \/ (Z.eqb 1 1 = true
          /\ nth_error (binding_length Z.eqb [1; 1; 0; 1; 1; 1] 0 1 3) 1%nat
             = Some 0)).
Proof.
  assert (H : nth_error [1; 1; 0; 1; 1; 1] 1%nat = Some 1) by reflexivity.
  split; [exact H|].
  exact (proj2 (binding_length_touches_free_sites_only
                  Z.eqb [1; 1; 0; 1; 1; 1] 0 1 3) 1%nat 1 H).
Defined.

(** X4. The arrays that [binding_length] returns unchanged are those in
    which every maximal run of [alphaf] already has at least [bpmin] sites
    (for [alphao != alphaf]); in particular the pass does nothing when
    [bpmin <= 1]. *)
Theorem binding_length_fixed_points {A : Type} (eqb : A -> A -> bool)
        (a : list A) (alphao alphaf : A) (bpmin : Z) :
  eqb alphao alphaf = false ->
  (binding_length eqb a alphao alphaf bpmin = a
   <-> Forall (fun k => bpmin <= Z.of_nat k) (run_lengths eqb alphaf a))
  /\ (bpmin <= 1 -> binding_length eqb a alphao alphaf bpmin = a).
Proof.
  intros Hd.
  assert (Hfix : Forall (fun k => bpmin <= Z.of_nat k) (run_lengths eqb alphaf a)
                 -> binding_length eqb a alphao alphaf bpmin = a).
  { intros H. rewrite LandscapeFacts.binding_length_fix_runs.
    now apply (proj1 (fix_runs_fixed eqb alphao alphaf bpmin a)). }
  split; [split; [|exact Hfix]|].
  - intros H. rewrite <- H at 1.
    rewrite LandscapeFacts.binding_length_fix_runs.
    exact (proj1 (LandscapeFacts.run_lengths_fix_runs eqb alphao alphaf bpmin Hd a)).
  - intros Hb. apply Hfix.
    eapply Forall_impl; [|apply run_lengths_aux_positive].
    intros k Hk. simpl in Hk. lia.
Qed.

Lemma binding_length_fixed_points_witness :
  Z.eqb 0 1 = false
  /\ (binding_length Z.eqb [1; 1; 0; 1; 1; 1] 0 1 2 = [1; 1; 0; 1; 1; 1]
      <-> Forall (fun k => 2 <= Z.of_nat k) (run_lengths Z.eqb 1 [1; 1; 0; 1; 1; 1]))
  /\ (1 <= 1 -> binding_length Z.eqb [1; 0; 1] 0 1 1 = [1; 0; 1]).
Proof.
  assert (H : Z.eqb 0 1 = false) by reflexivity.
  split; [exact H|]. split.
  - exact (proj1 (binding_length_fixed_points Z.eqb [1; 1; 0; 1; 1; 1] 0 1 2 H)).
  - exact (proj2 (binding_length_fixed_points Z.eqb [1; 0; 1] 0 1 1 H)).
Defined.

End BindingLengthFacts.

(* ===================================================================== *)
(** * The landscape generators of [nucleo.py] *)
(* ===================================================================== *)

Module GeneratorFacts.
Import Landscape Spec Notions.

Local Open Scope rand_scope.

Section Entropy.
Variable RS : Rand.RandomState.

Notation same_entropy := (same_entropy RS).
Notation entropy_determined := (entropy_determined RS).
Notation keeps_entropy := (keeps_entropy RS).
Notation seed_determined := (seed_determined RS).

Lemma ke_ret {A} (a : A) : keeps_entropy (Rand.ret a).
Proof. intros w. now split. Qed.

Lemma ke_lift {A} (r : Py.result A) : keeps_entropy (Rand.lift r).
Proof. intros w. now split. Qed.

Lemma ke_bind {A B} (c : Rand.M RS A) (k : A -> Rand.M RS B) :
  keeps_entropy c -> (forall a, keeps_entropy (k a)) ->
  keeps_entropy (Rand.bind c k).
Proof.
  intros Hc Hk w. unfold Rand.bind. specialize (Hc w).
  destruct (c w) as [[a|e|] w1]; simpl in Hc; [|exact Hc|exact Hc].
  destruct (Hk a w1) as [H1 H2]. destruct Hc as [H3 H4].
  split; congruence.
Qed.

Lemma ke_randint low high : keeps_entropy (Rand.np_random_randint RS low high).
Proof.
  intros w. unfold Rand.np_random_randint.
  destruct (high <=? low); [now split|].
  destruct (Rand.randint RS low high (Rand.rng w)). now split.
Qed.

Lemma ke_randint_many low high n :
  keeps_entropy (Rand.randint_many RS low high n).
Proof.
  induction n as [|n IH]; [apply ke_ret|].
  simpl. apply ke_bind; [apply ke_randint|]. intros z.
  apply ke_bind; [exact IH|]. intros zs. apply ke_ret.
Qed.

Lemma ke_randint_size low high size :
  keeps_entropy (Rand.np_random_randint_size RS low high size).
Proof.
  unfold Rand.np_random_randint_size. destruct (high <=? low); [apply ke_lift|].
  apply ke_bind; [apply ke_lift|]. intros n. apply ke_randint_many.
Qed.

Lemma sd_randint_many low high n :
  seed_determined (Rand.randint_many RS low high n).
Proof.
  induction n as [|n IH]; [apply RandFacts.sd_ret|].
  simpl. apply RandFacts.sd_bind; [apply RandFacts.sd_randint|]. intros z.
  apply RandFacts.sd_bind; [exact IH|]. intros zs. apply RandFacts.sd_ret.
Qed.

Lemma sd_randint_size low high size :
  seed_determined (Rand.np_random_randint_size RS low high size).
Proof.
  unfold Rand.np_random_randint_size.
  destruct (high <=? low); [apply RandFacts.sd_raise|].
  apply RandFacts.sd_bind; [apply RandFacts.sd_lift|].
  intros n. apply sd_randint_many.
Qed.

(** A computation that starts with [np.random.seed()] and then only draws
    is determined by the values of the operating system. *)
Lemma reseeded_entropy_determined {A} (c : Rand.M RS A) :
  seed_determined c -> keeps_entropy c ->
  entropy_determined (Rand.bind (Rand.np_random_seed_fresh RS) (fun _ => c)).
Proof.
  intros Hsd Hke w1 w2 [Hr He]. unfold Rand.bind, Rand.np_random_seed_fresh.
  set (w1' := {| Rand.rng := Rand.seed RS (Rand.entropy w1 (Rand.reads w1));
                 Rand.entropy := Rand.entropy w1;
                 Rand.reads := S (Rand.reads w1) |}).
  set (w2' := {| Rand.rng := Rand.seed RS (Rand.entropy w2 (Rand.reads w2));
                 Rand.entropy := Rand.entropy w2;
                 Rand.reads := S (Rand.reads w2) |}).
  assert (Hag : agree RS w1' w2').
  { unfold agree. simpl. now rewrite He, Hr. }
  destruct (Hsd w1' w2' Hag) as [Hv _].
  destruct (Hke w1') as [Hr1 He1]. destruct (Hke w2') as [Hr2 He2].
  split; [exact Hv|]. split.
  - rewrite Hr1, Hr2. simpl. now rewrite Hr.
  - intros n. rewrite He1, He2. simpl. apply He.
Qed.

Lemma ed_ret {A} (a : A) : entropy_determined (Rand.ret a).
Proof. intros w1 w2 H. now split. Qed.

Lemma ed_lift {A} (r : Py.result A) : entropy_determined (Rand.lift r).
Proof. intros w1 w2 H. now split. Qed.

Lemma ed_bind {A B} (c : Rand.M RS A) (k : A -> Rand.M RS B) :
  entropy_determined c -> (forall a, entropy_determined (k a)) ->
  entropy_determined (Rand.bind c k).
Proof.
  intros Hc Hk w1 w2 H. unfold Rand.bind.
  destruct (Hc w1 w2 H) as [Hv Hw].
  destruct (c w1) as [r1 w1'], (c w2) as [r2 w2']. simpl in Hv, Hw. subst r2.
  destruct r1 as [a|e|]; [now apply Hk|now split|now split].
Qed.

Lemma alpha_random_entropy_determined s l alphao alphaf L_min Lmax bps :
  entropy_determined (alpha_random RS s l alphao alphaf L_min Lmax bps).
Proof.
  unfold alpha_random. apply reseeded_entropy_determined.
  - apply RandFacts.sd_bind; [apply RandFacts.sd_lift|]. intros size.
    apply RandFacts.sd_bind; [apply RandFacts.sd_lift|]. intros T.
    apply RandFacts.sd_bind; [apply sd_randint_size|]. intros rs.
    apply RandFacts.sd_ret.
  - apply ke_bind; [apply ke_lift|]. intros size.
    apply ke_bind; [apply ke_lift|]. intros T.
    apply ke_bind; [apply ke_randint_size|]. intros rs. apply ke_ret.
Qed.

Lemma random_rows_entropy_determined nt s l alphao alphaf Lmin Lmax bps :
  entropy_determined (random_rows RS nt s l alphao alphaf Lmin Lmax bps).
Proof.
  induction nt as [|nt IH]; [apply ed_ret|].
  simpl. apply ed_bind; [apply alpha_random_entropy_determined|]. intros row.
  apply ed_bind; [exact IH|]. intros rows. apply ed_ret.
Qed.

Lemma alpha_matrix_calculation_entropy_determined
      alpha_choice s l bpmin alphao alphaf Lmin Lmax bps nt :
  entropy_determined
    (alpha_matrix_calculation RS alpha_choice s l bpmin alphao alphaf
                              Lmin Lmax bps nt).
Proof.
  unfold alpha_matrix_calculation. apply ed_bind; [|intros m; apply ed_ret].
  destruct (String.eqb alpha_choice "periodic").
  { apply ed_bind; [apply ed_lift|]. intros a.
    apply ed_bind; [apply ed_lift|]. intros n. apply ed_ret. }
  destruct (String.eqb alpha_choice "one_random").
  { apply ed_bind; [apply alpha_random_entropy_determined|]. intros a.
    apply ed_bind; [apply ed_lift|]. intros n. apply ed_ret. }
  destruct (String.eqb alpha_choice "constantmean").
  { apply ed_bind; [apply ed_lift|]. intros a.
    apply ed_bind; [apply ed_lift|]. intros n. apply ed_ret. }
  destruct (String.eqb alpha_choice "ntrandom"); [|apply ed_lift].
  apply ed_bind; [apply ed_lift|]. intros q.
  apply ed_bind; [apply ed_lift|]. intros n.
  apply ed_bind; [apply ed_lift|]. intros k.
  apply ed_bind; [apply random_rows_entropy_determined|]. intros rows.
  apply ed_ret.
Qed.

(** X5. The landscape does not depend on the seed: [alpha_random] starts
    with [np.random.seed()], so whatever seed was given to
    [np.random.seed(k)] before the call, [alpha_random] and
    [alpha_matrix_calculation] (in every mode) return what the values
    handed over by the operating system determine. *)
Theorem landscape_ignores_seed
        (alpha_choice : string) (s l bpmin : Z) (alphao alphaf : number)
        (Lmin Lmax bps nt : Z) (k1 k2 : Z) (w : Rand.world RS) :
  fst ((Rand.np_random_seed RS k1 ;;;
        alpha_random RS s l alphao alphaf Lmin Lmax bps) w)
  = fst ((Rand.np_random_seed RS k2 ;;;
          alpha_random RS s l alphao alphaf Lmin Lmax bps) w)
  /\ fst ((Rand.np_random_seed RS k1 ;;;
           alpha_matrix_calculation RS alpha_choice s l bpmin alphao alphaf
                                    Lmin Lmax bps nt) w)
     = fst ((Rand.np_random_seed RS k2 ;;;
             alpha_matrix_calculation RS alpha_choice s l bpmin alphao alphaf
                                      Lmin Lmax bps nt) w).
Proof.
  unfold Rand.bind, Rand.np_random_seed.
  split.
  - apply alpha_random_entropy_determined. now split.
  - apply alpha_matrix_calculation_entropy_determined. now split.
Qed.

End Entropy.

(** ** Sizes *)

Lemma tile_length {A} (pattern : list A) n :
  length (Np.tile pattern n) = (n * length pattern)%nat.
Proof.
  induction n as [|n IH]; [reflexivity|].
  simpl. now rewrite length_app, IH.
Qed.

Lemma fill_length {A} (s e : nat) (v : A) (l : list A) :
  length (Np.fill s e v l) = length l.
Proof.
  revert s e. induction l as [|x l IH]; intros s e; [reflexivity|].
  simpl. destruct e as [|e]; [reflexivity|].
  destruct s as [|s]; simpl; now rewrite IH.
Qed.

Lemma setslice_length {A} (l : list A) (start stop : Z) (v : A) :
  length (Py.setslice l start stop v) = length l.
Proof. apply fill_length. Qed.

Lemma fold_setslice_length {A} (v : A) (s : Z) (ps : list Z) (l : list A) :
  length (fold_left (fun arr pos => Py.setslice arr pos (pos + s) v) ps l)
  = length l.
Proof.
  revert l. induction ps as [|p ps IH]; intros l; [reflexivity|].
  simpl. now rewrite IH, setslice_length.
Qed.

Lemma size_arg_ok n k : Py.size_arg n = Py.Ok k -> 0 <= n /\ k = Z.to_nat n.
Proof.
  unfold Py.size_arg. destruct (n <? 0) eqn:E; [discriminate|].
  intros H. injection H as <-. apply Z.ltb_ge in E. now split.
Qed.

Ltac rbind_step H x Hx :=
  match type of H with
  | Py.rbind ?c _ = Py.Ok _ =>
      destruct c as [x| |] eqn:Hx; [cbn [Py.rbind] in H|discriminate|discriminate]
  end.

(** X6. The three generators do not agree on the size of a landscape:
    [alpha_periodic] returns [Lmax] sites whatever [Lmin] and [bps] are,
    [alpha_constant] and [alpha_random] return [int((Lmax-Lmin)/bps)]
    sites. *)
Theorem generator_sizes (RS : Rand.RandomState) (s l : Z)
        (alphao alphaf : number) (Lmin Lmax bps : Z) :
  (forall a,
      alpha_periodic s l (value alphao) (value alphaf) Lmin Lmax bps
      = Py.Ok a ->
      Z.of_nat (length a) = Lmax)
  /\ (forall a,
         alpha_constant s l (value alphao) (value alphaf) Lmin Lmax bps
         = Py.Ok a ->
         Z.of_nat (length a) = Z.quot (Lmax - Lmin) bps)
  /\ (forall a (w w' : Rand.world RS),
         alpha_random RS s l alphao alphaf Lmin Lmax bps w = (Py.Ok a, w') ->
         Z.of_nat (length a) = Z.quot (Lmax - Lmin) bps).
Proof.
  split; [|split].
  - intros a H. unfold alpha_periodic in H.
    rbind_step H q Hq. rbind_step H nb HN. rbind_step H nl Hl.
    rbind_step H ns Hs. rbind_step H nN HnN. rbind_step H nres Hres.
    injection H as <-.
    apply size_arg_ok in Hl, Hs, HnN, Hres.
    destruct Hl as [Hl ->], Hs as [Hs ->], HnN as [HnN ->], Hres as [Hres ->].
    rewrite length_app, tile_length, length_app, !repeat_length. nia.
  - intros a H. unfold alpha_constant in H.
    destruct (l + s =? 0); [discriminate|].
    rbind_step H q Hq. rbind_step H size Hsize. injection H as <-.
    apply size_arg_ok in Hsize. destruct Hsize as [Hsize ->].
    unfold Py.int_div in Hq. destruct (bps =? 0); [discriminate|].
    injection Hq as <-. rewrite repeat_length. lia.
  - intros a w w' H. unfold alpha_random in H.
    apply RandFacts.bind_ok in H. destruct H as (u & w1 & _ & H).
    apply RandFacts.bind_ok in H. destruct H as (size & w2 & Hsize & H).
    apply RandFacts.bind_ok in H. destruct H as (T & w3 & _ & H).
    apply RandFacts.bind_ok in H. destruct H as (rs & w4 & _ & H).
    apply RandFacts.ret_ok in H. destruct H as [-> _].
    apply RandFacts.lift_ok in Hsize. destruct Hsize as [Hsize _].
    rbind_step Hsize q Hq. apply size_arg_ok in Hsize. destruct Hsize as [Hsize ->].
    unfold Py.int_div in Hq. destruct (bps =? 0); [discriminate|].
    injection Hq as <-. rewrite fold_setslice_length, repeat_length. lia.
Qed.

Lemma generator_sizes_witness :
  alpha_periodic 3 2 0 1 2 20 2 = Py.Ok [1; 1; 0; 0; 0; 1; 1; 1; 1; 1; 1; 1; 1; 1; 1; 1; 1; 1; 1; 1]%Q
  /\ Z.of_nat (length [1; 1; 0; 0; 0; 1; 1; 1; 1; 1; 1; 1; 1; 1; 1; 1; 1; 1; 1; 1]%Q) = 20
  /\ alpha_constant 3 2 0 1 2 20 2 = Py.Ok (repeat (2 # 5) 9)
  /\ Z.of_nat (length (repeat (2 # 5) 9)) = Z.quot (20 - 2) 2.
Proof.
  destruct (generator_sizes (Scripted.generator []) 3 2 (PyInt 0) (PyInt 1)
                            2 20 2) as (Hp & Hc & _).
  assert (H1 : alpha_periodic 3 2 0 1 2 20 2
               = Py.Ok [1; 1; 0; 0; 0; 1; 1; 1; 1; 1; 1; 1; 1; 1; 1; 1; 1; 1; 1; 1]%Q)
    by reflexivity.
  assert (H2 : alpha_constant 3 2 0 1 2 20 2 = Py.Ok (repeat (2 # 5) 9))
    by reflexivity.
  split; [exact H1|]. split; [exact (Hp _ H1)|].
  split; [exact H2|]. exact (Hc _ H2).
Defined.

(** ** The obstacles of [alpha_random] *)

Lemma insert_sorted_length z l : length (insert_sorted z l) = S (length l).
Proof.
  induction l as [|y t IH]; [reflexivity|].
  simpl. destruct (z <=? y); simpl; [reflexivity|now rewrite IH].
Qed.

Lemma np_sort_length l : length (np_sort l) = length l.
Proof.
  induction l as [|x l IH]; [reflexivity|].
  simpl. now rewrite insert_sorted_length, IH.
Qed.

Lemma insert_sorted_ascending z hi t :
  forall lo, ascending lo hi t -> lo <= z <= hi ->
             ascending lo hi (insert_sorted z t).
Proof.
  induction t as [|y t IH]; intros lo Ht Hz.
  - simpl. lia.
  - simpl in Ht. destruct Ht as [Hy Ht]. simpl.
    destruct (z <=? y) eqn:E.
    + apply Z.leb_le in E. simpl. repeat split; try lia. exact Ht.
    + apply Z.leb_gt in E. simpl. split; [exact Hy|]. apply IH; [exact Ht|lia].
Qed.

Lemma np_sort_ascending lo hi l :
  lo <= hi -> Forall (fun x => lo <= x <= hi) l ->
  ascending lo hi (np_sort l).
Proof.
  intros Hlh H. induction H as [|x l Hx _ IH]; [exact Hlh|].
  simpl. now apply insert_sorted_ascending.
Qed.

Lemma add_arange_length i s l : length (add_arange i s l) = length l.
Proof.
  revert i. induction l as [|x l IH]; intros i; [reflexivity|].
  simpl. now rewrite IH.
Qed.

Lemma add_arange_separated s hi l :
  0 <= s ->
  forall i lo,
    ascending lo hi l ->
    separated s (lo + i * s) (hi + (i + Z.of_nat (length l)) * s)
              (add_arange i s l).
Proof.
  intros Hs. induction l as [|x l IH]; intros i lo H.
  - simpl in *. nia.
  - simpl in H. destruct H as [Hx H]. cbn [add_arange separated length].
    split; [nia|].
    replace (x + i * s + s) with (x + (i + 1) * s) by lia.
    replace (hi + (i + Z.of_nat (S (length l))) * s)
      with (hi + (i + 1 + Z.of_nat (length l)) * s) by lia.
    now apply IH.
Qed.

Lemma sites_equal_app v a b :
  sites_equal v (a ++ b) = (sites_equal v a + sites_equal v b)%nat.
Proof. unfold sites_equal. now rewrite filter_app, length_app. Qed.

Lemma sites_equal_repeat_other v x n :
  Qeq_bool x v = false -> sites_equal v (repeat x n) = O.
Proof.
  intros H. unfold sites_equal. induction n as [|n IH]; [reflexivity|].
  simpl. now rewrite H.
Qed.

Lemma sites_equal_repeat_same v n : sites_equal v (repeat v n) = n.
Proof.
  unfold sites_equal. induction n as [|n IH]; [reflexivity|].
  simpl. assert (Qeq_bool v v = true) as -> by (apply Qeq_bool_iff; reflexivity).
  simpl. now rewrite IH.
Qed.

Lemma clamp_inside n i : 0 <= i <= Z.of_nat n -> Py.clamp n i = Z.to_nat i.
Proof.
  intros H. unfold Py.clamp.
  assert ((i <? 0) = false) as -> by (apply Z.ltb_ge; lia). lia.
Qed.

(** Filling non-overlapping blocks, from left to right, in the part of the
    array that still holds [alphaf]. *)
Lemma fill_separated (alphao alphaf : Q) (s : Z) :
  0 <= s -> Qeq_bool alphaf alphao = false ->
  forall qs (pre : list Q) (k : nat),
    separated s (Z.of_nat (length pre)) (Z.of_nat (length pre + k)) qs ->
    exists filled,
      fold_left (fun arr pos => Py.setslice arr pos (pos + s) alphao) qs
                (pre ++ repeat alphaf k)
      = pre ++ filled
      /\ sites_equal alphao filled = (length qs * Z.to_nat s)%nat.
Proof.
  intros Hs Hd. induction qs as [|q rest IH]; intros pre k H.
  - exists (repeat alphaf k). split; [reflexivity|].
    now apply sites_equal_repeat_other.
  - cbn [separated] in H. destruct H as [Hq H].
    assert (Hend : q + s <= Z.of_nat (length pre + k)).
    { clear IH. revert H. generalize (q + s). revert Hs. clear.
      induction rest as [|r rest IH]; intros Hs f H; simpl in H; [exact H|].
      destruct H as [Hr H]. apply IH in H; lia. }
    set (d := Z.to_nat (q - Z.of_nat (length pre))).
    set (n := Z.to_nat s).
    set (k' := (k - d - n)%nat).
    assert (Hk : k = (d + (n + k'))%nat) by (unfold d, n, k'; lia).
    cbn [fold_left].
    assert (Hfill : Py.setslice (pre ++ repeat alphaf k) q (q + s) alphao
                    = (pre ++ repeat alphaf d ++ repeat alphao n)
                        ++ repeat alphaf k').
    { unfold Py.setslice. rewrite length_app, repeat_length.
      rewrite !clamp_inside by lia.
      rewrite Hk, !repeat_app.
      replace (pre ++ repeat alphaf d ++ repeat alphaf n ++ repeat alphaf k')
        with ((pre ++ repeat alphaf d) ++ repeat alphaf n ++ repeat alphaf k')
        by (now rewrite <- app_assoc).
      replace (Z.to_nat q) with (length (pre ++ repeat alphaf d))
        by (rewrite length_app, repeat_length; unfold d; lia).
      replace (Z.to_nat (q + s))
        with (length (pre ++ repeat alphaf d) + length (repeat alphaf n))%nat
        by (rewrite length_app, !repeat_length; unfold d, n; lia).
      rewrite LandscapeFacts.fill_block, repeat_length.
      now rewrite <- !app_assoc. }
    rewrite Hfill.
    destruct (IH (pre ++ repeat alphaf d ++ repeat alphao n) k')
      as (filled & Hfold & Hcount).
    { rewrite !length_app, !repeat_length.
      replace (Z.of_nat (length pre + (d + n))) with (q + s)
        by (unfold d, n; lia).
      replace (Z.of_nat (length pre + (d + n) + k'))
        with (Z.of_nat (length pre + k)) by lia.
      exact H. }
    rewrite Hfold. exists (repeat alphaf d ++ repeat alphao n ++ filled).
    split; [now rewrite <- !app_assoc|].
    rewrite !sites_equal_app, sites_equal_repeat_other by assumption.
    rewrite sites_equal_repeat_same, Hcount. simpl length. lia.
Qed.

Section Draws.
Variable RS : Rand.RandomState.
Hypothesis in_range : randint_in_range RS.

Lemma randint_many_range low high n :
  forall (w w' : Rand.world RS) zs,
    Rand.randint_many RS low high n w = (Py.Ok zs, w') ->
    length zs = n /\ Forall (fun z => low <= z <= high - 1) zs.
Proof.
  induction n as [|n IH]; intros w w' zs H.
  - apply RandFacts.ret_ok in H. destruct H as [-> _]. split; constructor.
  - simpl in H.
    apply RandFacts.bind_ok in H. destruct H as (z & w1 & Hz & H).
    apply RandFacts.bind_ok in H. destruct H as (more & w2 & Hmore & H).
    apply RandFacts.ret_ok in H. destruct H as [-> _].
    apply IH in Hmore. destruct Hmore as [Hlen Hall].
    split; [simpl; now rewrite Hlen|]. constructor; [|exact Hall].
    unfold Rand.np_random_randint in Hz.
    destruct (high <=? low) eqn:E; [discriminate|]. apply Z.leb_gt in E.
    pose proof (in_range low high (Rand.rng w) E) as Hr.
    destruct (Rand.randint RS low high (Rand.rng w)) as [z' g].
    injection Hz as <- _. simpl in Hr. lia.
Qed.

(** X7. [alpha_random] places [T = int(Lmax / (l + s))] obstacles of [s]
    sites that do not overlap and do not leave the array: when the array has
    room for [Lmax] sites, exactly [T * s] sites of the landscape hold the
    value that the array stores for [alphao], provided this value is not
    [alphaf].  The value stored is [alphao], or its truncation toward zero
    when [alphaf] is a Python int (the array is then an array of integers)
    and [alphao] a float. *)
Theorem alpha_random_obstacle_sites (s l : Z) (alphao alphaf : number)
        (L_min Lmax bps : Z) (w w' : Rand.world RS) (a : list Q) :
  0 <= s ->
  Qeq_bool (value alphaf) (stored (dtype_of alphaf) alphao) = false ->
  Lmax <= Z.quot (Lmax - L_min) bps ->
  alpha_random RS s l alphao alphaf L_min Lmax bps w = (Py.Ok a, w') ->
  Z.of_nat (sites_equal (stored (dtype_of alphaf) alphao) a)
  = Z.quot Lmax (l + s) * s.
Proof.
  intros Hs Hd Hroom H. unfold alpha_random in H.
  apply RandFacts.bind_ok in H. destruct H as (u & w1 & _ & H).
  apply RandFacts.bind_ok in H. destruct H as (size & w2 & Hsize & H).
  apply RandFacts.bind_ok in H. destruct H as (T & w3 & HT & H).
  apply RandFacts.bind_ok in H. destruct H as (rs & w4 & Hrs & H).
  apply RandFacts.ret_ok in H. destruct H as [-> _].
  apply RandFacts.lift_ok in Hsize. destruct Hsize as [Hsize _].
  rbind_step Hsize q Hq. apply size_arg_ok in Hsize. destruct Hsize as [Hsize ->].
  unfold Py.int_div in Hq. destruct (bps =? 0); [discriminate|].
  injection Hq as <-.
  apply RandFacts.lift_ok in HT. destruct HT as [HT _].
  unfold Py.int_div in HT. destruct (l + s =? 0); [discriminate|].
  injection HT as <-. set (T := Z.quot Lmax (l + s)) in *.
  unfold Rand.np_random_randint_size in Hrs.
  destruct (Lmax - T * s + 1 <=? 0) eqn:Eh; [discriminate|].
  apply Z.leb_gt in Eh.
  apply RandFacts.bind_ok in Hrs. destruct Hrs as (n & w5 & Hn & Hrs).
  apply RandFacts.lift_ok in Hn. destruct Hn as [Hn _].
  apply size_arg_ok in Hn. destruct Hn as [HT0 ->].
  apply randint_many_range in Hrs. destruct Hrs as [Hlen Hall].
  assert (Hasc : ascending 0 (Lmax - T * s) (np_sort rs)).
  { apply np_sort_ascending; [lia|].
    eapply Forall_impl; [|exact Hall]. intros z Hz. simpl in Hz. lia. }
  pose proof (add_arange_separated s _ _ Hs 0 0 Hasc) as Hsep.
  rewrite np_sort_length, Hlen in Hsep.
  replace (0 + 0 * s) with (Z.of_nat (length (@nil Q))) in Hsep by reflexivity.
  replace (Lmax - T * s + (0 + Z.of_nat (Z.to_nat T)) * s) with Lmax in Hsep
    by nia.
  assert (Hsep' : separated s (Z.of_nat (length (@nil Q)))
                    (Z.of_nat (length (@nil Q)
                               + Z.to_nat (Z.quot (Lmax - L_min) bps)))
                    (add_arange 0 s (np_sort rs))).
  { revert Hsep. generalize (Z.of_nat (length (@nil Q))).
    generalize (add_arange 0 s (np_sort rs)).
    induction l0 as [|x l0 IH]; intros f Hf; simpl in *; [lia|].
    destruct Hf as [Hx Hf]. split; [exact Hx|]. now apply IH. }
  destruct (fill_separated (stored (dtype_of alphaf) alphao) (value alphaf)
              s Hs Hd _ [] _ Hsep')
    as (filled & Hfold & Hcount).
  cbn [app] in Hfold. rewrite Hfold, Hcount.
  rewrite add_arange_length, np_sort_length, Hlen. nia.
Qed.

End Draws.

Lemma lowest_in_range : randint_in_range lowest.
Proof. intros low high st H. simpl. lia. Qed.

Lemma alpha_random_obstacle_sites_witness :
  let w := Rand.Build_world lowest tt (fun _ => 0) O in
  let a := [0; 0; 0; 0; 1; 1; 1; 1; 1; 1]%Q in
  let alphao := PyFloat (1 # 2) in
  let alphaf := PyInt 1 in
  0 <= 2
  /\ Qeq_bool (value alphaf) (stored (dtype_of alphaf) alphao) = false
  /\ 10 <= Z.quot (10 - 0) 1
  /\ fst (alpha_random lowest 2 3 alphao alphaf 0 10 1 w) = Py.Ok a
  /\ stored (dtype_of alphaf) alphao = 0%Q
  /\ Z.of_nat (sites_equal (stored (dtype_of alphaf) alphao) a)
     = Z.quot 10 (3 + 2) * 2.
Proof.
  cbv zeta.
  assert (H1 : 0 <= 2) by lia.
  assert (H2 : Qeq_bool (value (PyInt 1))
                        (stored (dtype_of (PyInt 1)) (PyFloat (1 # 2))) = false)
    by reflexivity.
  assert (H3 : 10 <= Z.quot (10 - 0) 1) by (vm_compute; discriminate).
  split; [exact H1|]. split; [exact H2|]. split; [exact H3|].
  split; [reflexivity|]. split; [reflexivity|].
  apply (alpha_random_obstacle_sites lowest lowest_in_range 2 3
           (PyFloat (1 # 2)) (PyInt 1) 0 10 1
           (Rand.Build_world lowest tt (fun _ => 0) O)
           (Rand.Build_world lowest tt (fun _ => 0) 1%nat) _ H1 H2 H3).
  reflexivity.
Defined.

End GeneratorFacts.

(* ===================================================================== *)
(** * The first position: [folding] on an obstacle *)
(* ===================================================================== *)

Module FoldingMoreFacts.
Import NpFloat Folding Notions.

Section Facts.
Variable RS : Rand.RandomState.

(** What the loop [while landscape[base - k] != target: k += 1] has read
    when it ends at [k']. *)
Lemma scan_back_found fuel landscape base target :
  forall k k' (w w' : Rand.world RS),
    scan_back RS fuel landscape base k target w = (Py.Ok k', w') ->
    w' = w
    /\ k <= k'
    /\ (exists v, Py.getitem landscape (base - k') = Py.Ok v
                  /\ fne v target = false)
    /\ (forall j, k <= j < k' ->
          exists v, Py.getitem landscape (base - j) = Py.Ok v
                    /\ fne v target = true).
Proof.
  induction fuel as [|fuel IH]; intros k k' w w' H; [discriminate|].
  simpl in H. unfold Rand.bind, Rand.lift in H.
  destruct (Py.getitem landscape (base - k)) as [v|e|] eqn:Ev; try discriminate.
  destruct (fne v target) eqn:Ef.
  - apply IH in H. destruct H as (-> & Hle & Hfound & Hbefore).
    split; [reflexivity|]. split; [lia|]. split; [exact Hfound|].
    intros j Hj. destruct (Z.eq_dec j k) as [->|Hne].
    + now exists v.
    + apply Hbefore. lia.
  - unfold Rand.ret in H. injection H as <- <-.
    split; [reflexivity|]. split; [lia|]. split; [now exists v|].
    intros j Hj. lia.
Qed.

Lemma scan_back_raises fuel landscape base target :
  forall k e (w w' : Rand.world RS),
    scan_back RS fuel landscape base k target w = (Py.Raise e, w') ->
    e = Py.IndexError.
Proof.
  induction fuel as [|fuel IH]; intros k e w w' H; [discriminate|].
  simpl in H. unfold Rand.bind, Rand.lift in H.
  destruct (Py.getitem landscape (base - k)) as [v|e'|] eqn:Ev.
  - destruct (fne v target); [now apply IH in H|discriminate].
  - injection H as <- _. unfold Py.getitem in Ev.
    destruct (Py.norm_index (length landscape) (base - k)) as [n|].
    + destruct (nth_error landscape n); [discriminate|now injection Ev as <-].
    + now injection Ev as <-.
  - discriminate.
Qed.

Lemma getitem_in {A} (l : list A) (i : Z) (v : A) :
  Py.getitem l i = Py.Ok v -> In v l.
Proof.
  unfold Py.getitem. destruct (Py.norm_index (length l) i) as [n|]; [|discriminate].
  destruct (nth_error l n) as [x|] eqn:E; [|discriminate].
  intros H. injection H as <-. now apply nth_error_In in E.
Qed.

Lemma one_is_not_zero v : feq v (of_Z 1) = true -> fne v (of_Z 0) = true.
Proof.
  destruct v as [q| | |]; try discriminate. unfold fne, feq, of_Z.
  intros H. apply Qeq_bool_iff in H. apply negb_true_iff.
  apply not_true_is_false. intros H0. apply Qeq_bool_iff in H0.
  rewrite H in H0. discriminate.
Qed.

(** X8. Started on an obstacle (a site that holds 0, at a non-zero
    origin), [folding] returns a position to the left of the origin whose
    site does not hold 0: it walks back to the first site that holds 1, then
    to the end of that stretch of sites, and draws the position among
    them.  The positions are Python indices: the walk goes on from the
    start of the array to its end. *)
Theorem folding_leaves_the_obstacle (landscape : list fl) (first_origin : Z)
        (v : fl) (x : Z) (w w' : Rand.world RS) :
  randint_in_range RS ->
  first_origin <> 0 ->
  Py.getitem landscape first_origin = Py.Ok v ->
  feq v (of_Z 0) = true ->
  folding RS landscape first_origin w = (Py.Ok x, w') ->
  x < first_origin
  /\ exists vx, Py.getitem landscape x = Py.Ok vx /\ fne vx (of_Z 0) = true.
Proof.
  intros Hrange Hfo Hv H0 H. unfold folding in H.
  apply Z.eqb_neq in Hfo. rewrite Hfo in H.
  apply RandFacts.bind_ok in H. destruct H as (v1 & w1 & Hv1 & H).
  apply RandFacts.lift_ok in Hv1. destruct Hv1 as [Hv1 ->].
  rewrite Hv in Hv1. injection Hv1 as <-. rewrite H0 in H.
  apply RandFacts.bind_ok in H. destruct H as (o & w2 & Ho & H).
  apply RandFacts.bind_ok in Ho. destruct Ho as (bo & w3 & Hbo & Ho).
  apply RandFacts.bind_ok in Ho. destruct Ho as (bl & w4 & Hbl & Ho).
  apply RandFacts.bind_ok in Ho. destruct Ho as (r & w5 & Hr & Ho).
  apply RandFacts.ret_ok in Ho. destruct Ho as [-> ->].
  apply RandFacts.ret_ok in H. destruct H as [-> _].
  apply scan_back_found in Hbo.
  destruct Hbo as (-> & Hbo1 & (vo & Hvo & Hfo1) & _).
  apply scan_back_found in Hbl.
  destruct Hbl as (-> & Hbl1 & _ & Hbefore).
  unfold Rand.np_random_randint in Hr.
  destruct (first_origin - bo <=? first_origin - (bo + bl)) eqn:E;
    [discriminate|]. apply Z.leb_gt in E.
  pose proof (Hrange _ _ (Rand.rng w) E) as Hin.
  destruct (Rand.randint RS (first_origin - (bo + bl)) (first_origin - bo)
                         (Rand.rng w)) as [z g].
  injection Hr as <- _. simpl in Hin.
  split; [lia|].
  destruct (Z.eq_dec (z + 1) (first_origin - bo)) as [Heq|Hne].
  - rewrite Heq. exists vo. split; [exact Hvo|].
    apply one_is_not_zero. unfold fne in Hfo1. now apply negb_false_iff in Hfo1.
  - destruct (Hbefore (first_origin - bo - (z + 1))) as (vx & Hvx & Hne0);
      [lia|].
    replace (first_origin - bo - (first_origin - bo - (z + 1))) with (z + 1)
      in Hvx by lia.
    now exists vx.
Qed.

(** X9. When no site of the landscape holds 1, [folding] started on a site
    that holds 0 raises [IndexError]: the first loop walks back over the
    whole array and reads past it. *)
Theorem folding_without_free_site (landscape : list fl) (first_origin : Z)
        (v : fl) (w : Rand.world RS) :
  first_origin <> 0 ->
  Py.getitem landscape first_origin = Py.Ok v ->
  feq v (of_Z 0) = true ->
  (forall a, In a landscape -> feq a (of_Z 1) = false) ->
  fst (folding RS landscape first_origin w) = Py.Raise Py.IndexError.
Proof.
  intros Hfo Hv H0 Hnone. unfold folding.
  apply Z.eqb_neq in Hfo. rewrite Hfo.
  unfold Rand.bind at 1. unfold Rand.lift at 1. rewrite Hv.
  rewrite H0. unfold Rand.bind at 1. unfold Rand.bind at 1.
  pose proof (FoldingFacts.scan_back_no_timeout RS (scan_budget landscape)
                landscape first_origin (of_Z 1) 1 w) as Hnt.
  apply PyFacts.getitem_ok_range in Hv.
  destruct (scan_back RS (scan_budget landscape) landscape first_origin 1
                      (of_Z 1) w) as [[bo|e|] w1] eqn:Es.
  - exfalso. apply scan_back_found in Es.
    destruct Es as (_ & _ & (vo & Hvo & Hf) & _).
    apply getitem_in in Hvo. apply Hnone in Hvo.
    unfold fne in Hf. rewrite Hvo in Hf. discriminate.
  - apply scan_back_raises in Es. now subst e.
  - exfalso. apply Hnt; unfold scan_budget; [lia|lia|reflexivity].
Qed.

End Facts.

Lemma folding_leaves_the_obstacle_witness :
  let w := Rand.Build_world lowest tt (fun _ => 0) O in
  let landscape := [Fin 0; Fin 1; Fin 1; Fin 0; Fin 0] in
  randint_in_range lowest
  /\ 4 <> 0
  /\ Py.getitem landscape 4 = Py.Ok (Fin 0)
  /\ feq (Fin 0) (of_Z 0) = true
  /\ folding lowest landscape 4 w = (Py.Ok 1, w)
  /\ 1 < 4
  /\ exists vx, Py.getitem landscape 1 = Py.Ok vx /\ fne vx (of_Z 0) = true.
Proof.
  cbv zeta.
  assert (H1 : 4 <> 0) by discriminate.
  assert (H2 : Py.getitem [Fin 0; Fin 1; Fin 1; Fin 0; Fin 0] 4 = Py.Ok (Fin 0))
    by reflexivity.
  assert (H3 : feq (Fin 0) (of_Z 0) = true) by reflexivity.
  assert (H4 : folding lowest [Fin 0; Fin 1; Fin 1; Fin 0; Fin 0] 4
                 (Rand.Build_world lowest tt (fun _ => 0) O)
               = (Py.Ok 1, Rand.Build_world lowest tt (fun _ => 0) O))
    by reflexivity.
  split; [exact GeneratorFacts.lowest_in_range|]. split; [exact H1|].
  split; [exact H2|]. split; [exact H3|]. split; [exact H4|].
  exact (folding_leaves_the_obstacle lowest _ _ _ _ _ _
           GeneratorFacts.lowest_in_range H1 H2 H3 H4).
Defined.

Lemma folding_without_free_site_witness :
  let w := Rand.Build_world lowest tt (fun _ => 0) O in
  let landscape := [Fin 0; Fin (1 # 2); Fin 0] in
  2 <> 0
  /\ Py.getitem landscape 2 = Py.Ok (Fin 0)
  /\ feq (Fin 0) (of_Z 0) = true
  /\ fst (folding lowest landscape 2 w) = Py.Raise Py.IndexError.
Proof.
  cbv zeta.
  assert (H1 : 2 <> 0) by discriminate.
  assert (H2 : Py.getitem [Fin 0; Fin (1 # 2); Fin 0] 2 = Py.Ok (Fin 0))
    by reflexivity.
  assert (H3 : feq (Fin 0) (of_Z 0) = true) by reflexivity.
  split; [exact H1|]. split; [exact H2|]. split; [exact H3|].
  apply (folding_without_free_site lowest _ 2 (Fin 0) _ H1 H2 H3).
  intros a [<-|[<-|[<-|[]]]]; reflexivity.
Defined.

End FoldingMoreFacts.

(* ===================================================================== *)
(** * The kinetic engines: what every run keeps *)
(* ===================================================================== *)

Module EngineMoreFacts.
Import NpFloat Engine Spec Notions.

Ltac binv H a w Ha :=
  apply RandFacts.bind_ok in H; destruct H as (a & w & Ha & H).

Ltac rinv H :=
  apply RandFacts.ret_ok in H; destruct H as [H _].

Lemma chain_snoc a l b :
  chain a l -> last l a < b -> chain a (l ++ [b]).
Proof.
  revert a. induction l as [|y l IH]; intros a Hc Hl.
  - simpl in *. now split.
  - simpl in Hc. destruct Hc as [Hay Hc]. cbn [app chain]. split; [exact Hay|].
    apply IH; [exact Hc|]. destruct l as [|z l]; [exact Hl|].
    change (last (y :: z :: l) a) with (last (z :: l) a) in Hl.
    now rewrite (DistributionFacts.last_default z l y a).
Qed.

Lemma increasing_snoc l b d :
  l <> [] -> increasing l -> last l d < b -> increasing (l ++ [b]).
Proof.
  destruct l as [|a l]; [congruence|]. intros _ Hi Hl. simpl.
  apply chain_snoc; [exact Hi|].
  destruct l as [|y l]; [exact Hl|].
  change (last (a :: y :: l) d) with (last (y :: l) d) in Hl.
  change (last (y :: l) a < b).
  now rewrite (DistributionFacts.last_default y l a d).
Qed.

Lemma last_snoc {A} (l : list A) (a d : A) : last (l ++ [a]) d = a.
Proof.
  induction l as [|y l IH]; [reflexivity|].
  cbn [app]. destruct (l ++ [a]) eqn:E; [now destruct l|]. exact IH.
Qed.

Lemma hd_error_snoc {A} (l : list A) (a h : A) :
  hd_error l = Some h -> hd_error (l ++ [a]) = Some h.
Proof. destruct l; [discriminate|]. now intros H. Qed.

Lemma map_combine_aligned (trajs : list (list fl * list fl * list Z)) :
  Forall (fun r : list fl * list fl * list Z =>
            length (snd (fst r)) = length (snd r)) trajs ->
  aligned (map (fun r => snd (fst r)) trajs) (map snd trajs).
Proof.
  intros H. split; [now rewrite !length_map|].
  induction H as [|r l Hr _ IH]; [constructor|].
  simpl. constructor; [exact Hr|exact IH].
Qed.

Section Runs.
Variable RS : Rand.RandomState.
Variable ln : Q -> Q.

Lemma for_each_length {A} (body : nat -> Rand.M RS A) idxs :
  forall l w w', for_each RS body idxs w = (Py.Ok l, w') ->
                 length l = length idxs.
Proof.
  induction idxs as [|i rest IH]; intros l w w' H; simpl in H.
  - rinv H. now subst l.
  - binv H a w1 H1. binv H more w2 H2. rinv H. subst l.
    simpl. f_equal. now apply IH in H2.
Qed.

(** ** The single-step variant of [nucleo.py] *)

Lemma fill_row_length row i0 t tmax dt value row' i :
  fill_row row i0 t tmax dt value = Py.Ok (row', i) ->
  length row' = length row.
Proof.
  unfold fill_row. destruct (Py.int_of_float _) as [k| |]; try discriminate.
  cbn [Py.rbind]. intros H. injection H as <- _.
  apply GeneratorFacts.setslice_length.
Qed.

Lemma one_step_iteration_inv tmax dt alpha_row beta_row p Lmax origin ox
      first width st st' b w w' :
  one_step_iteration RS ln tmax dt alpha_row beta_row p Lmax origin ox st w
  = (Py.Ok (st', b), w') ->
  one_step_inv ox first width st -> one_step_inv ox first width st'.
Proof.
  unfold one_step_iteration. intros H (Hlen & Hhd & Hlast & Hinc & Hrow).
  binv H r_tot w1 H1. binv H u w2 H2. binv H r0 w3 H3.
  binv H beta_x w4 H4. binv H r w5 H5.
  apply RandFacts.lift_ok in H5. destruct H5 as [H5 _].
  destruct r as [| |di]; binv H ri w6 H6;
    apply RandFacts.lift_ok in H6; destruct H6 as [H6 _];
    destruct ri as [row' i]; apply fill_row_length in H6;
    rinv H; injection H as Hst _; subst st'; unfold one_step_inv;
    cbn [t_list x_list x row fst].
  - repeat split; try assumption. congruence.
  - repeat split; try assumption. congruence.
  - apply EngineFacts.jump_walked in H5. destruct H5 as (rp & (Hdi & _) & _).
    assert (Hne : x_list st <> []) by (destruct (x_list st); discriminate).
    repeat split.
    + rewrite !length_app. simpl. lia.
    + now apply hd_error_snoc.
    + apply last_snoc.
    + apply (increasing_snoc _ _ 0 Hne Hinc). lia.
    + congruence.
Qed.

Lemma one_step_loop_inv fuel tmax dt alpha_row beta_row p Lmax origin ox
      first width :
  forall st st' w w',
    one_step_loop RS ln fuel tmax dt alpha_row beta_row p Lmax origin ox st w
    = (Py.Ok st', w') ->
    one_step_inv ox first width st -> one_step_inv ox first width st'.
Proof.
  induction fuel as [|fuel IH]; intros st st' w w' H Hi; simpl in H.
  - destruct (flt (t st) (Fin tmax)); [discriminate|]. rinv H. now subst st'.
  - destruct (flt (t st) (Fin tmax)).
    + binv H sb w1 H1. destruct sb as [st1 b].
      apply (one_step_iteration_inv _ _ _ _ _ _ _ _ first width) in H1;
        [|exact Hi].
      simpl in H. destruct b; [now apply IH in H|]. rinv H. now subst st'.
    + rinv H. now subst st'.
Qed.

Lemma set_nth_length {A} k (v : A) l : length (Py.set_nth k v l) = length l.
Proof.
  revert k. induction l as [|y l IH]; intros k; [reflexivity|].
  destruct k; simpl; [reflexivity|now rewrite IH].
Qed.

Lemma setitem_length {A} (l l' : list A) i v :
  Py.setitem l i v = Py.Ok l' -> length l' = length l.
Proof.
  unfold Py.setitem. destruct (Py.norm_index (length l) i); [|discriminate].
  intros H. injection H as <-. apply set_nth_length.
Qed.

(** X10. In every run of [gillespie_algorithm_one_step] that returns, the
    three results have one entry per trajectory; every row of [results] has
    [int(tmax/dt)] entries; the time series and the position series of a
    trajectory have the same length; and every position series starts at 0
    and goes strictly up. *)
Theorem one_step_trajectories (fuel : nat) (nt : Z) (tmax dt : Q)
        (alpha_matrix : list (list fl)) (beta : fl) (Lmax lenght origin : Z)
        (p : list fl) (w w' : Rand.world RS)
        (results t_matrix : list (list fl)) (x_matrix : list (list Z)) :
  gillespie_algorithm_one_step RS ln fuel nt tmax dt alpha_matrix beta Lmax
                               lenght origin p w
  = (Py.Ok (results, t_matrix, x_matrix), w') ->
  length results = Z.to_nat nt
  /\ length t_matrix = Z.to_nat nt
  /\ Forall (fun row => length row = Z.to_nat (Py.Qtrunc (tmax / dt))) results
  /\ aligned t_matrix x_matrix
  /\ Forall (fun xs => hd_error xs = Some 0 /\ increasing xs) x_matrix.
Proof.
  unfold gillespie_algorithm_one_step. intros H.
  binv H n_lenght w1 H1. binv H n w2 H2. binv H width w3 H3.
  binv H trajs w4 H4. rinv H. injection H as Hr Ht Hx.
  subst results t_matrix x_matrix.
  apply RandFacts.lift_ok in H2. destruct H2 as [H2 _].
  apply GeneratorFacts.size_arg_ok in H2. destruct H2 as [_ ->].
  apply RandFacts.lift_ok in H3. destruct H3 as [H3 _].
  destruct (Qeq_bool dt 0); [discriminate|].
  apply GeneratorFacts.size_arg_ok in H3. destruct H3 as [_ ->].
  pose proof (for_each_length _ _ _ _ _ H4) as Hlen. rewrite length_seq in Hlen.
  assert (Hall : Forall (fun r : list fl * list fl * list Z =>
                           length (fst (fst r)) = Z.to_nat (Py.Qtrunc (tmax / dt))
                           /\ length (snd (fst r)) = length (snd r)
                           /\ hd_error (snd r) = Some 0
                           /\ increasing (snd r)) trajs).
  { eapply EngineFacts.for_each_all; [|exact H4].
    intros i a wa wb Ha. unfold one_step_trajectory in Ha.
    binv Ha alpha_row wc Hc. binv Ha x0 wd Hd. binv Ha row0 we He.
    binv Ha st wf Hf. rinv Ha. subst a. cbn [fst snd].
    apply RandFacts.lift_ok in He. destruct He as [He _].
    apply setitem_length in He. rewrite repeat_length in He.
    apply (one_step_loop_inv _ _ _ _ _ _ _ _ _ 0
             (Z.to_nat (Py.Qtrunc (tmax / dt)))) in Hf.
    - destruct Hf as (Ha & Hb & _ & Hd' & He'). now repeat split.
    - unfold one_step_inv. cbn [t_list x_list x row].
      repeat split; try reflexivity; try assumption.
      cbn [hd_error]. now rewrite Z.sub_diag. }
  split; [now rewrite length_map|]. split; [now rewrite length_map|].
  split; [|split].
  - apply Forall_map. eapply Forall_impl; [|exact Hall]. now intros a (? & _).
  - apply map_combine_aligned. eapply Forall_impl; [|exact Hall].
    now intros a (_ & ? & _).
  - apply Forall_map. eapply Forall_impl; [|exact Hall].
    now intros a (_ & _ & ? & ?).
Qed.

(** ** The engine of [marcand.py] *)

Lemma in_position_iteration_inv alpha_row beta_row p l_max x_max origin
      width st st' b w w' :
  in_position_iteration RS ln alpha_row beta_row p l_max x_max origin st w
  = (Py.Ok (st', b), w') ->
  in_position_inv origin width st -> in_position_inv origin width st'.
Proof.
  unfold in_position_iteration. intros H (Hlen & Hne & Hlast & Hinc & Hrow).
  binv H r_tot w1 H1. binv H u w2 H2. binv H r0 w3 H3.
  binv H beta_x w4 H4. binv H r w5 H5.
  apply RandFacts.lift_ok in H5. destruct H5 as [H5 _].
  destruct r as [| |di]; rinv H; injection H as Hst _; subst st';
    unfold in_position_inv, fill_positions; cbn [t_list x_list x row fst];
    rewrite ?GeneratorFacts.setslice_length.
  - now repeat split.
  - now repeat split.
  - apply EngineFacts.jump_in_position_walked in H5.
    destruct H5 as (rp & (Hdi & _) & _).
    repeat split.
    + rewrite !length_app. simpl. lia.
    + now destruct (x_list st).
    + apply last_snoc.
    + apply (increasing_snoc _ _ 0 Hne Hinc). lia.
    + exact Hrow.
Qed.

Lemma in_position_loop_inv fuel alpha_row beta_row p l_max x_max origin width :
  forall st st' w w',
    in_position_loop RS ln fuel alpha_row beta_row p l_max x_max origin st w
    = (Py.Ok st', w') ->
    in_position_inv origin width st -> in_position_inv origin width st'.
Proof.
  induction fuel as [|fuel IH]; intros st st' w w' H Hi; simpl in H.
  - destruct (x st <? x_max); [discriminate|]. rinv H. now subst st'.
  - destruct (x st <? x_max).
    + binv H sb w1 H1. destruct sb as [st1 b].
      apply (in_position_iteration_inv _ _ _ _ _ _ width) in H1; [|exact Hi].
      simpl in H. destruct b; [now apply IH in H|]. rinv H. now subst st'.
    + rinv H. now subst st'.
Qed.

(** X11. In every run of [gillespie_algorithm_in_position] that returns,
    [results] has one row of [x_max + 1] entries per trajectory, the time
    series and the position series of a trajectory have the same length, and
    every position series goes strictly up: a trajectory never steps back
    and never stays. *)
Theorem in_position_trajectories (fuel : nat) (lenght l_max x_max origin : Z)
        (alpha_matrix : list (list fl)) (p : list fl) (beta : fl) (nt : Z)
        (w w' : Rand.world RS)
        (results t_matrix : list (list fl)) (x_matrix : list (list Z))
        (t_max : fl) :
  gillespie_algorithm_in_position RS ln fuel lenght l_max x_max origin
                                  alpha_matrix p beta nt w
  = (Py.Ok (results, t_matrix, x_matrix, t_max), w') ->
  length results = Z.to_nat nt
  /\ Forall (fun row => length row = Z.to_nat (x_max + 1)) results
  /\ aligned t_matrix x_matrix
  /\ Forall increasing x_matrix.
Proof.
  unfold gillespie_algorithm_in_position. intros H.
  binv H n_lenght w1 H1. binv H n w2 H2. binv H width w3 H3.
  binv H trajs w4 H4. binv H maxima w5 H5. binv H tm w6 H6. rinv H.
  injection H as Hr Ht Hx _. subst results t_matrix x_matrix.
  apply RandFacts.lift_ok in H2. destruct H2 as [H2 _].
  apply GeneratorFacts.size_arg_ok in H2. destruct H2 as [_ ->].
  apply RandFacts.lift_ok in H3. destruct H3 as [H3 _].
  apply GeneratorFacts.size_arg_ok in H3. destruct H3 as [_ ->].
  pose proof (for_each_length _ _ _ _ _ H4) as Hlen. rewrite length_seq in Hlen.
  assert (Hall : Forall (fun r : list fl * list fl * list Z =>
                           length (fst (fst r)) = Z.to_nat (x_max + 1)
                           /\ length (snd (fst r)) = length (snd r)
                           /\ increasing (snd r)) trajs).
  { eapply EngineFacts.for_each_all; [|exact H4].
    intros i a wa wb Ha. unfold in_position_trajectory in Ha.
    binv Ha row0 wc Hc. binv Ha alpha_row wd Hd. binv Ha x0 we He.
    binv Ha st wf Hf. rinv Ha. subst a. cbn [fst snd].
    apply RandFacts.lift_ok in Hc. destruct Hc as [Hc _].
    apply setitem_length in Hc. rewrite repeat_length in Hc.
    apply (in_position_loop_inv _ _ _ _ _ _ _ (Z.to_nat (x_max + 1))) in Hf.
    - destruct Hf as (Ha & _ & _ & Hd' & He'). now repeat split.
    - unfold in_position_inv. cbn [t_list x_list x row].
      repeat split; try reflexivity; try assumption. discriminate. }
  split; [now rewrite length_map|]. split; [|split].
  - apply Forall_map. eapply Forall_impl; [|exact Hall]. now intros a (? & _).
  - apply map_combine_aligned. eapply Forall_impl; [|exact Hall].
    now intros a (_ & ? & _).
  - apply Forall_map. eapply Forall_impl; [|exact Hall].
    now intros a (_ & _ & ?).
Qed.

(** X12. The reaction loop of [gillespie_algorithm_in_position] ends: a
    turn either breaks or moves [x] forward by at least one site, so
    [x_max - x] turns are enough, and a larger budget of turns gives the
    same outcome. *)
Theorem in_position_loop_ends (fuel fuel' : nat)
        (alpha_row beta_row p : list fl) (l_max x_max origin : Z)
        (st : traj) (w : Rand.world RS) :
  x_max - x st <= Z.of_nat fuel ->
  (fuel <= fuel')%nat ->
  fst (in_position_loop RS ln fuel alpha_row beta_row p l_max x_max origin st w)
  <> Py.Timeout
  /\ in_position_loop RS ln fuel' alpha_row beta_row p l_max x_max origin st w
     = in_position_loop RS ln fuel alpha_row beta_row p l_max x_max origin st w.
Proof.
  intros Hfuel Hle.
  pose proof (EngineFacts.in_position_loop_terminates RS ln fuel alpha_row
                beta_row p l_max x_max origin st w Hfuel) as Hnt.
  split; [exact Hnt|].
  exact (EngineFacts.in_position_loop_settled RS ln fuel alpha_row beta_row p
           l_max x_max origin fuel' st Hle w Hnt).
Qed.

(** ** The two-step variant of [nucleo.py] *)

Lemma two_steps_iteration_inv tmax dt alpha_row p lmbda rtot_bind rtot_rest
      L origin ox width st st' b w w' :
  two_steps_iteration RS ln tmax dt alpha_row p lmbda rtot_bind rtot_rest L
                      origin ox st w
  = (Py.Ok (st', b), w') ->
  two_steps_inv width st -> two_steps_inv width st'.
Proof.
  unfold two_steps_iteration. intros H (Hlen & Hodd & Hrow).
  binv H sb w1 Hb. destruct sb as [st1 [rr|]]; cbn [fst snd] in H.
  - binv H st2 w2 Hr. rinv H. injection H as Hst _. subst st'.
    unfold two_steps_bind in Hb.
    binv Hb x_jump wa Ha. binv Hb max_L wb Hm.
    destruct (max_L - origin <=? x st + x_jump).
    { binv Hb ri wc Hc. rinv Hb. discriminate. }
    binv Hb r_bind wc Hc. binv Hb u wd Hd. binv Hb r0 we He. rinv Hb.
    injection Hb as Hst _. subst st1.
    unfold two_steps_rest in Hr. cbn [t_list x_list x row prev_x i0 t] in Hr.
    binv Hr tx wf Hf. binv Hr ri wg Hg. rinv Hr. subst st2.
    apply RandFacts.lift_ok in Hg. destruct Hg as [Hg _].
    destruct ri as [row' i]. apply fill_row_length in Hg.
    unfold two_steps_inv. cbn [t_list x_list row fst].
    rewrite !length_app. cbn [length].
    split; [lia|]. split; [|congruence].
    replace (length (t_list st) + 1 + 1)%nat with (S (S (length (t_list st))))
      by lia.
    exact Hodd.
  - rinv H. injection H as Hst _. subst st'.
    unfold two_steps_bind in Hb.
    binv Hb x_jump wa Ha. binv Hb max_L wb Hm.
    destruct (max_L - origin <=? x st + x_jump).
    + binv Hb ri wc Hc. rinv Hb. injection Hb as Hst. subst st1.
      apply RandFacts.lift_ok in Hc. destruct Hc as [Hc _].
      destruct ri as [row' i]. apply fill_row_length in Hc.
      unfold two_steps_inv. cbn [t_list x_list row fst].
      split; [exact Hlen|]. split; [exact Hodd|congruence].
    + binv Hb r_bind wc Hc. binv Hb u wd Hd. binv Hb r0 we He. rinv Hb.
      discriminate.
Qed.

Lemma two_steps_loop_inv fuel tmax dt alpha_row p lmbda rtot_bind rtot_rest
      L origin ox width :
  forall st st' w w',
    two_steps_loop RS ln fuel tmax dt alpha_row p lmbda rtot_bind rtot_rest L
                   origin ox st w
    = (Py.Ok st', w') ->
    two_steps_inv width st -> two_steps_inv width st'.
Proof.
  induction fuel as [|fuel IH]; intros st st' w w' H Hi; simpl in H.
  - destruct (flt (t st) (Fin tmax)); [discriminate|]. rinv H. now subst st'.
  - destruct (flt (t st) (Fin tmax)).
    + binv H sb w1 H1. destruct sb as [st1 b].
      apply (two_steps_iteration_inv _ _ _ _ _ _ _ _ _ _ width) in H1;
        [|exact Hi].
      simpl in H. destruct b; [now apply IH in H|]. rinv H. now subst st'.
    + rinv H. now subst st'.
Qed.

(** X13. In every run of [gillespie_algorithm_two_steps] that returns, the
    time series and the position series of a trajectory have the same, odd,
    length: the initial point, then two entries for every turn (after the
    binding attempt and after the rest or the abortion); every row of
    [results] has [int(tmax/dt)] entries. *)
Theorem two_steps_trajectories (fuel : nat) (alpha_matrix : list (list fl))
        (p : list fl) (beta : fl) (lmbda rtot_bind rtot_rest : Q) (nt : Z)
        (tmax dt : Q) (L : list Z) (origin : Z) (w w' : Rand.world RS)
        (results t_matrix : list (list fl)) (x_matrix : list (list Z)) :
  gillespie_algorithm_two_steps RS ln fuel alpha_matrix p beta lmbda rtot_bind
                                rtot_rest nt tmax dt L origin w
  = (Py.Ok (results, t_matrix, x_matrix), w') ->
  length results = Z.to_nat nt
  /\ Forall (fun row => length row = Z.to_nat (Py.Qtrunc (tmax / dt))) results
  /\ aligned t_matrix x_matrix
  /\ Forall (fun ts => Nat.odd (length ts) = true) t_matrix.
Proof.
  unfold gillespie_algorithm_two_steps. intros H.
  binv H width w1 H1. binv H n w2 H2. binv H trajs w3 H3. rinv H.
  injection H as Hr Ht Hx. subst results t_matrix x_matrix.
  apply RandFacts.lift_ok in H2. destruct H2 as [H2 _].
  apply GeneratorFacts.size_arg_ok in H2. destruct H2 as [_ ->].
  apply RandFacts.lift_ok in H1. destruct H1 as [H1 _].
  destruct (Qeq_bool dt 0); [discriminate|].
  apply GeneratorFacts.size_arg_ok in H1. destruct H1 as [_ ->].
  pose proof (for_each_length _ _ _ _ _ H3) as Hlen. rewrite length_seq in Hlen.
  assert (Hall : Forall (fun r : list fl * list fl * list Z =>
                           length (fst (fst r)) = Z.to_nat (Py.Qtrunc (tmax / dt))
                           /\ length (snd (fst r)) = length (snd r)
                           /\ Nat.odd (length (snd (fst r))) = true) trajs).
  { eapply EngineFacts.for_each_all; [|exact H3].
    intros i a wa wb Ha. unfold two_steps_trajectory in Ha.
    binv Ha alpha_row wc Hc. binv Ha x0 wd Hd. binv Ha row0 we He.
    binv Ha st wf Hf. rinv Ha. subst a. cbn [fst snd].
    apply RandFacts.lift_ok in He. destruct He as [He _].
    apply setitem_length in He. rewrite repeat_length in He.
    apply (two_steps_loop_inv _ _ _ _ _ _ _ _ _ _ _
             (Z.to_nat (Py.Qtrunc (tmax / dt)))) in Hf.
    - destruct Hf as (Ha & Hb & He'). now repeat split.
    - unfold two_steps_inv. cbn [t_list x_list row].
      repeat split; try reflexivity; try assumption. }
  split; [now rewrite length_map|]. split; [|split].
  - apply Forall_map. eapply Forall_impl; [|exact Hall]. now intros a (? & _).
  - apply map_combine_aligned. eapply Forall_impl; [|exact Hall].
    now intros a (_ & ? & _).
  - apply Forall_map. eapply Forall_impl; [|exact Hall].
    now intros a (_ & _ & ?).
Qed.

(** ** Seeds and clamped times *)

(** X14. The two-step variant is reproducible as well: after
    [np.random.seed(k)] with the same [k], two runs of
    [gillespie_algorithm_two_steps] on the same arguments return the same
    outcome, whatever state the generator was in before. *)
Theorem two_steps_reproducible (k : Z) (wa wb : Rand.world RS) (fuel : nat)
        (alpha_matrix : list (list fl)) (p : list fl) (beta : fl)
        (lmbda rtot_bind rtot_rest : Q) (nt : Z) (tmax dt : Q) (L : list Z)
        (origin : Z) :
  fst (Rand.bind (Rand.np_random_seed RS k)
         (fun _ => gillespie_algorithm_two_steps RS ln fuel alpha_matrix p beta
                     lmbda rtot_bind rtot_rest nt tmax dt L origin) wa)
  = fst (Rand.bind (Rand.np_random_seed RS k)
           (fun _ => gillespie_algorithm_two_steps RS ln fuel alpha_matrix p
                       beta lmbda rtot_bind rtot_rest nt tmax dt L origin) wb).
Proof.
  apply RandFacts.seeded_run_unique,
    EngineFacts.sd_gillespie_algorithm_two_steps.
Qed.

(** X15. Where the guard on an infinite time is written on the time that
    is stored, after the addition, it works: no time recorded by
    [gillespie_algorithm_one_step] is infinite, and no time recorded by
    [gillespie_algorithm_in_position] and no entry of its [results] is
    infinite, also when the waiting time or the sum overflows. *)
Theorem guarded_times_not_infinite :
  (forall fuel nt tmax dt alpha_matrix beta Lmax lenght origin p
          (w w' : Rand.world RS) results t_matrix x_matrix,
      gillespie_algorithm_one_step RS ln fuel nt tmax dt alpha_matrix beta
                                   Lmax lenght origin p w
      = (Py.Ok (results, t_matrix, x_matrix), w') ->
      Forall not_infinite t_matrix)
  /\ (forall fuel lenght l_max x_max origin alpha_matrix p beta nt
             (w w' : Rand.world RS) results t_matrix x_matrix t_max,
         gillespie_algorithm_in_position RS ln fuel lenght l_max x_max origin
                                         alpha_matrix p beta nt w
         = (Py.Ok (results, t_matrix, x_matrix, t_max), w') ->
         Forall not_infinite t_matrix /\ Forall not_infinite results).
Proof.
  split.
  - intros. eapply EngineFacts.one_step_times_not_infinite; eassumption.
  - intros. eapply EngineFacts.in_position_times_not_infinite; eassumption.
Qed.

End Runs.

(** ** Runs on a scripted generator *)

Lemma guarded_times_not_infinite_witness :
  let table := repeat (1 # 2)%Q 20 in
  let RS := Scripted.generator table in
  exists results x_matrix w',
    gillespie_algorithm_one_step RS Scripted.ln_stand_in 10 1 2 1
      [[Fin 0; Fin 0; Fin 0; Fin 0; Fin 0]] (Fin 0) 5 5 0
      [Fin 0; Fin 1; Fin 0; Fin 0; Fin 0] (Scripted.world table)
    = (Py.Ok (results, [[Fin 0; sentinel]], x_matrix), w')
    /\ Forall not_infinite [[Fin 0; sentinel]].
Proof.
  cbv zeta.
  destruct (gillespie_algorithm_one_step (Scripted.generator (repeat (1 # 2)%Q 20))
              Scripted.ln_stand_in 10 1 2 1
              [[Fin 0; Fin 0; Fin 0; Fin 0; Fin 0]] (Fin 0) 5 5 0
              [Fin 0; Fin 1; Fin 0; Fin 0; Fin 0]
              (Scripted.world (repeat (1 # 2)%Q 20)))
    as [[[[results t_matrix] x_matrix]|e|] w'] eqn:E;
    pose proof (f_equal fst E) as Ef; vm_compute in Ef; try discriminate.
  assert (t_matrix = [[Fin 0; sentinel]]) as Ht by now injection Ef as _ <- _.
  exists results, x_matrix, w'. rewrite <- Ht. split; [reflexivity|].
  exact (proj1 (guarded_times_not_infinite _ _) _ _ _ _ _ _ _ _ _ _ _ _ _ _ _ E).
Defined.

Lemma one_step_trajectories_witness :
  let table := repeat (1 # 2)%Q 20 in
  let RS := Scripted.generator table in
  exists results t_matrix x_matrix w',
    gillespie_algorithm_one_step RS Scripted.ln_stand_in 10 1 2 1
      [[Fin 1; Fin 1; Fin 1; Fin 1; Fin 1]] (Fin 0) 5 5 0
      [Fin 0; Fin 1; Fin 0; Fin 0; Fin 0] (Scripted.world table)
    = (Py.Ok (results, t_matrix, x_matrix), w')
    /\ x_matrix = [[0; 1; 2; 3; 4]]
    /\ length results = Z.to_nat 1
    /\ length t_matrix = Z.to_nat 1
    /\ Forall (fun row => length row = Z.to_nat (Py.Qtrunc (2 / 1))) results
    /\ aligned t_matrix x_matrix
    /\ Forall (fun xs => hd_error xs = Some 0 /\ increasing xs) x_matrix.
Proof.
  cbv zeta.
  destruct (gillespie_algorithm_one_step (Scripted.generator (repeat (1 # 2)%Q 20))
              Scripted.ln_stand_in 10 1 2 1
              [[Fin 1; Fin 1; Fin 1; Fin 1; Fin 1]] (Fin 0) 5 5 0
              [Fin 0; Fin 1; Fin 0; Fin 0; Fin 0]
              (Scripted.world (repeat (1 # 2)%Q 20)))
    as [[[[results t_matrix] x_matrix]|e|] w'] eqn:E;
    pose proof (f_equal fst E) as Ef; vm_compute in Ef; try discriminate.
  exists results, t_matrix, x_matrix, w'. split; [reflexivity|].
  split; [now injection Ef as _ _ <-|].
  exact (one_step_trajectories _ _ _ _ _ _ _ _ _ _ _ _ _ _ _ _ _ E).
Defined.

Lemma in_position_trajectories_witness :
  let table := repeat (1 # 2)%Q 20 in
  let RS := Scripted.generator table in
  exists results t_matrix x_matrix t_max w',
    gillespie_algorithm_in_position RS Scripted.ln_stand_in 10 5 5 3 0
      [[Fin 1; Fin 1; Fin 1; Fin 1; Fin 1]]
      [Fin 0; Fin 1; Fin 0; Fin 0; Fin 0] (Fin 0) 1 (Scripted.world table)
    = (Py.Ok (results, t_matrix, x_matrix, t_max), w')
    /\ x_matrix = [[0; 1; 2; 3]]
    /\ length results = Z.to_nat 1
    /\ Forall (fun row => length row = Z.to_nat (3 + 1)) results
    /\ aligned t_matrix x_matrix
    /\ Forall increasing x_matrix.
Proof.
  cbv zeta.
  destruct (gillespie_algorithm_in_position
              (Scripted.generator (repeat (1 # 2)%Q 20))
              Scripted.ln_stand_in 10 5 5 3 0
              [[Fin 1; Fin 1; Fin 1; Fin 1; Fin 1]]
              [Fin 0; Fin 1; Fin 0; Fin 0; Fin 0] (Fin 0) 1
              (Scripted.world (repeat (1 # 2)%Q 20)))
    as [[[[[results t_matrix] x_matrix] t_max]|e|] w'] eqn:E;
    pose proof (f_equal fst E) as Ef; vm_compute in Ef; try discriminate.
  exists results, t_matrix, x_matrix, t_max, w'. split; [reflexivity|].
  split; [now injection Ef as _ _ <- _|].
  exact (in_position_trajectories _ _ _ _ _ _ _ _ _ _ _ _ _ _ _ _ _ E).
Defined.

Lemma in_position_loop_ends_witness :
  let table := repeat (1 # 2)%Q 20 in
  let RS := Scripted.generator table in
  let alpha_row := [Fin 1; Fin 1; Fin 1; Fin 1; Fin 1] in
  let p := [Fin 0; Fin 1; Fin 0; Fin 0; Fin 0] in
  let st := {| t := of_Z 0; x := 0; prev_x := 0; i0 := 0;
               row := of_Z 0 :: repeat NaN 3;
               t_list := [of_Z 0]; x_list := [0] |} in
  3 - x st <= Z.of_nat 3
  /\ (3 <= 7)%nat
  /\ fst (in_position_loop RS Scripted.ln_stand_in 3 alpha_row (repeat (Fin 0) 5)
            p 5 3 0 st (Scripted.world table))
     <> Py.Timeout
  /\ in_position_loop RS Scripted.ln_stand_in 7 alpha_row (repeat (Fin 0) 5)
       p 5 3 0 st (Scripted.world table)
     = in_position_loop RS Scripted.ln_stand_in 3 alpha_row (repeat (Fin 0) 5)
         p 5 3 0 st (Scripted.world table).
Proof.
  cbv zeta.
  assert (H1 : 3 - 0 <= Z.of_nat 3) by (simpl; lia).
  assert (H2 : (3 <= 7)%nat) by lia.
  split; [exact H1|]. split; [exact H2|].
  exact (in_position_loop_ends (Scripted.generator (repeat (1 # 2)%Q 20))
           Scripted.ln_stand_in 3 7 [Fin 1; Fin 1; Fin 1; Fin 1; Fin 1]
           (repeat (Fin 0) 5) [Fin 0; Fin 1; Fin 0; Fin 0; Fin 0] 5 3 0
           {| t := of_Z 0; x := 0; prev_x := 0; i0 := 0;
              row := of_Z 0 :: repeat NaN 3;
              t_list := [of_Z 0]; x_list := [0] |}
           (Scripted.world (repeat (1 # 2)%Q 20)) H1 H2).
Defined.

Lemma two_steps_trajectories_witness :
  let table := repeat (1 # 2)%Q 20 in
  let RS := Scripted.generator table in
  exists results t_matrix x_matrix w',
    gillespie_algorithm_two_steps RS Scripted.ln_stand_in 10
      [[Fin 1; Fin 1; Fin 1; Fin 1; Fin 1; Fin 1; Fin 1; Fin 1]]
      [Fin 0; Fin 1; Fin 0; Fin 0; Fin 0; Fin 0; Fin 0; Fin 0] (Fin 0)
      0 1 1 1 2 1 [0; 1; 2; 3; 4; 5; 6; 7] 0 (Scripted.world table)
    = (Py.Ok (results, t_matrix, x_matrix), w')
    /\ x_matrix = [[0; 1; 1; 2; 2]]
    /\ length results = Z.to_nat 1
    /\ Forall (fun row => length row = Z.to_nat (Py.Qtrunc (2 / 1))) results
    /\ aligned t_matrix x_matrix
    /\ Forall (fun ts => Nat.odd (length ts) = true) t_matrix.
Proof.
  cbv zeta.
  destruct (gillespie_algorithm_two_steps
              (Scripted.generator (repeat (1 # 2)%Q 20))
              Scripted.ln_stand_in 10
              [[Fin 1; Fin 1; Fin 1; Fin 1; Fin 1; Fin 1; Fin 1; Fin 1]]
              [Fin 0; Fin 1; Fin 0; Fin 0; Fin 0; Fin 0; Fin 0; Fin 0] (Fin 0)
              0 1 1 1 2 1 [0; 1; 2; 3; 4; 5; 6; 7] 0
              (Scripted.world (repeat (1 # 2)%Q 20)))
    as [[[[results t_matrix] x_matrix]|e|] w'] eqn:E;
    pose proof (f_equal fst E) as Ef; vm_compute in Ef; try discriminate.
  exists results, t_matrix, x_matrix, w'. split; [reflexivity|].
  split; [now injection Ef as _ _ <-|].
  exact (two_steps_trajectories _ _ _ _ _ _ _ _ _ _ _ _ _ _ _ _ _ _ _ E).
Defined.

End EngineMoreFacts.

(* ===================================================================== *)
(** * Histograms over the columns of a matrix: properties *)
(* ===================================================================== *)

Module HistogramsFacts.
Import NpFloat Stats Spec Histograms.

Lemma all_ok_nth {A B} (f : A -> Py.result B) (l : list A) (out : list B) :
  Py.all_ok (map f l) = Py.Ok out ->
  length out = length l
  /\ forall j b, nth_error out j = Some b ->
                 exists a, nth_error l j = Some a /\ f a = Py.Ok b.
Proof.
  revert out. induction l as [|x l IH]; intros out H.
  - injection H as <-. split; [reflexivity|]. intros [|j] b Hb; discriminate.
  - simpl in H. destruct (f x) as [y| |] eqn:Ey; try discriminate.
    cbn [Py.rbind] in H.
    destruct (Py.all_ok (map f l)) as [more| |]; try discriminate.
    cbn [Py.rbind] in H. injection H as <-.
    destruct (IH more eq_refl) as [Hlen Hnth].
    split; [simpl; now rewrite Hlen|].
    intros [|j] b Hb.
    + injection Hb as <-. now exists x.
    + now apply Hnth.
Qed.

Lemma nth_error_seq_inv start n j a :
  nth_error (seq start n) j = Some a -> a = (start + j)%nat.
Proof.
  revert start j. induction n as [|n IH]; intros start j H.
  - destruct j; discriminate.
  - destruct j as [|j]; simpl in H.
    + injection H as <-. lia.
    + apply IH in H. lia.
Qed.

(** Counts of a histogram over increasing edges are not negative. *)
Lemma count_le_count {A} (f g : A -> bool) data :
  (forall d, f d = true -> g d = true) -> count f data <= count g data.
Proof.
  intros H. induction data as [|d data IH]; [unfold count; simpl; lia|].
  rewrite !DistributionFacts.count_cons.
  destruct (f d) eqn:Ef; [rewrite (H d Ef); lia|].
  destruct (g d); lia.
Qed.

Lemma Qltb_lt_iff x y : Qltb x y = true <-> (x < y)%Q.
Proof.
  unfold Qltb. rewrite negb_true_iff. split.
  - intros H. apply Qnot_le_lt. intros Hle. apply Qle_bool_iff in Hle. congruence.
  - intros H. apply not_true_is_false. intros Hle. apply Qle_bool_iff in Hle.
    now apply Qlt_not_le in H.
Qed.

Lemma flt_fle_trans d e0 e1 :
  (e0 <= e1)%Q -> flt d (Fin e0) = true -> fle d (Fin e1) = true.
Proof.
  intros H01. destruct d as [q| | |]; cbn [flt fle]; try easy.
  intros Hd. apply Qltb_lt_iff in Hd. apply Qle_bool_iff. lra.
Qed.

Lemma flt_flt_trans d e0 e1 :
  (e0 <= e1)%Q -> flt d (Fin e0) = true -> flt d (Fin e1) = true.
Proof.
  intros H01. destruct d as [q| | |]; cbn [flt]; try easy.
  intros Hd. apply Qltb_lt_iff in Hd. apply Qltb_lt_iff. lra.
Qed.

Lemma bin_counts_nonneg data edges :
  monotonic edges = true ->
  Forall (fun c => 0 <= c) (Np.diff (cumulative_counts data edges)).
Proof.
  induction edges as [|e0 rest IH]; intros Hm; [constructor|].
  destruct rest as [|e1 rest]; [constructor|].
  simpl in Hm. apply andb_true_iff in Hm. destruct Hm as [H01 Hm].
  apply Qle_bool_iff in H01.
  rewrite DistributionFacts.cumulative_counts_cons2.
  destruct rest as [|e2 rest].
  - simpl. constructor; [|constructor].
    assert (count (fun d => flt d (Fin e0)) data
            <= count (fun d => fle d (Fin e1)) data); [|lia].
    apply count_le_count. intros d Hd. now apply (flt_fle_trans d e0 e1).
  - rewrite DistributionFacts.cumulative_counts_cons2.
    rewrite LandscapeFacts.diff_cons2. constructor.
    + assert (count (fun d => flt d (Fin e0)) data
              <= count (fun d => flt d (Fin e1)) data); [|lia].
      apply count_le_count. intros d Hd. now apply (flt_flt_trans d e0 e1).
    + rewrite <- DistributionFacts.cumulative_counts_cons2. now apply IH.
Qed.

Lemma nonneg_sum_zero (l : list Z) :
  Forall (fun c => 0 <= c) l -> np_sum_Z l = 0 -> Forall (fun c => c = 0) l.
Proof.
  unfold np_sum_Z.
  assert (H : forall a, 0 <= a -> Forall (fun c => 0 <= c) l ->
                        fold_left Z.add l a = 0 ->
                        a = 0 /\ Forall (fun c => c = 0) l).
  { induction l as [|x l IH]; intros a Ha Hl Hs; simpl in Hs.
    - now split.
    - inversion Hl as [|? ? Hx Hl']; subst.
      destruct (IH (a + x) ltac:(lia) Hl' Hs) as [Hax Hall].
      split; [lia|]. constructor; [lia|exact Hall]. }
  intros Hl Hs. now apply (H 0).
Qed.

(** X16. [hist_on_columns] divides the counts of every column by their sum
    without a guard.  The row of a column has one entry per bin.  It has no
    NaN and sums to 1 when the grid has a bin (two edges at least) and one
    value of the column at least is a finite number between the first and
    the last bin edge; in every other case all its entries are NaN (a column
    of NaN, for instance), and it is empty when the grid has fewer than two
    edges. *)
Theorem hist_on_columns_rows (array_2d : array2) (bin_width bin_max : Q)
        (out : list (list fl)) :
  hist_on_columns array_2d bin_width bin_max = Py.Ok out ->
  length out = width array_2d
  /\ exists bin_edges,
      arange 0 (bin_max + 2) bin_width = Py.Ok bin_edges
      /\ forall j row,
          nth_error out j = Some row ->
          let samples := column j array_2d in
          length row = (length bin_edges - 1)%nat
          /\ (existsb (in_grid bin_edges) samples = true ->
              (2 <= length bin_edges)%nat
              /\ Forall (fun a => isnan a = false) row
              /\ exists s, sum row = Fin s /\ (s == 1)%Q)
          /\ (existsb (in_grid bin_edges) samples = false ->
              Forall (fun a => a = NaN) row).
Proof.
  unfold hist_on_columns. intros H.
  destruct (arange 0 (bin_max + 2) bin_width) as [bin_edges| |] eqn:Ea;
    try discriminate.
  cbn [Py.rbind] in H.
  match type of H with
  | Py.rbind ?c _ = _ => destruct c as [hs| |] eqn:Eh; try discriminate
  end.
  cbn [Py.rbind] in H. destruct hs as [|h0 hs']; [discriminate|].
  injection H as <-.
  apply all_ok_nth in Eh. destruct Eh as [Hlen Hnth].
  split; [now rewrite Hlen, length_seq|].
  exists bin_edges. split; [reflexivity|].
  intros j row Hrow. cbv zeta.
  set (samples := column j array_2d).
  destruct (Hnth j row Hrow) as (col_index & Hcol & Hbody).
  apply nth_error_seq_inv in Hcol. simpl in Hcol. subst col_index.
  fold samples in Hbody. unfold histogram in Hbody.
  destruct (monotonic bin_edges) eqn:Hm; [|discriminate].
  cbn [Py.rbind fst] in Hbody. injection Hbody as <-.
  pose proof (DistributionFacts.histogram_total_in_grid samples bin_edges Hm)
    as Htot.
  pose proof (bin_counts_nonneg samples bin_edges Hm) as Hnn.
  assert (Hlenc : length (Np.diff (cumulative_counts samples bin_edges))
                  = (length bin_edges - 1)%nat)
    by now rewrite DistributionFacts.length_diff,
                   DistributionFacts.length_cumulative_counts.
  set (counts := Np.diff (cumulative_counts samples bin_edges)) in *.
  unfold share. split; [now rewrite length_map|]. split.
  - intros Hex. split.
    { destruct bin_edges as [|e0 [|e1 rest]]; cbn [length]; try lia;
        exfalso; clear -Hex; induction samples as [|d l IH];
        try discriminate; cbn [existsb] in Hex;
        apply orb_true_iff in Hex; destruct Hex as [Hd|Hl];
        try (now apply IH); now destruct d. }
    apply DistributionFacts.count_pos_iff in Hex.
    assert (Hne : np_sum_Z counts <> 0) by lia. split.
    + apply Forall_forall. intros a Ha. apply in_map_iff in Ha.
      destruct Ha as (c & <- & _). now rewrite SumFacts.fdiv_counts.
    + now apply SumFacts.normalised_counts_sum.
  - intros Hex.
    assert (Hz : np_sum_Z counts = 0).
    { pose proof (DistributionFacts.count_nonneg (in_grid bin_edges) samples).
      destruct (Z.eq_dec (count (in_grid bin_edges) samples) 0) as [E|E];
        [lia|].
      assert (Hpos : 0 < count (in_grid bin_edges) samples) by lia.
      apply DistributionFacts.count_pos_iff in Hpos. congruence. }
    rewrite Hz. apply nonneg_sum_zero in Hnn; [|exact Hz].
    apply Forall_forall. intros a Ha. apply in_map_iff in Ha.
    destruct Ha as (c & <- & Hc).
    rewrite Forall_forall in Hnn. now rewrite (Hnn c Hc).
Qed.

Lemma hist_on_columns_rows_witness :
  let array_2d := {| rows := [[Fin 1; NaN]; [Fin 12; NInf]; [PInf; NaN]];
                     width := 2 |} in
  exists out,
    hist_on_columns array_2d 10 28 = Py.Ok out
    /\ out = [[Fin (1 # 2); Fin (1 # 2)]; [NaN; NaN]]
    /\ length out = width array_2d.
Proof.
  cbv zeta.
  destruct (hist_on_columns
              {| rows := [[Fin 1; NaN]; [Fin 12; NInf]; [PInf; NaN]];
                 width := 2 |} 10 28) as [out| |] eqn:E;
    pose proof E as Ef; vm_compute in Ef; try discriminate.
  exists out. split; [reflexivity|].
  split; [now injection Ef as <-|].
  exact (proj1 (hist_on_columns_rows _ _ _ _ E)).
Defined.

End HistogramsFacts.

(* ===================================================================== *)
(** * General functions *)
(* ===================================================================== *)

Module UtilitiesFacts.
Import NpFloat Utilities.

(** ** [add_dicts] *)
Section Dicts.
Context {K V : Type}.
Variable key_eqb : K -> K -> bool.
Variable add : V -> V -> V.
Variable zero : V.
Hypothesis key_eqb_eq : forall a b, key_eqb a b = true <-> a = b.

Notation lookup := (lookup key_eqb).
Notation add_item := (add_item key_eqb add zero).
Notation add_items := (add_items key_eqb add zero).
Notation add_dicts := (add_dicts key_eqb add zero).

Lemma key_eqb_refl k : key_eqb k k = true.
Proof. now apply key_eqb_eq. Qed.

Lemma key_eqb_neq a b : a <> b -> key_eqb a b = false.
Proof.
  intros Hne. destruct (key_eqb a b) eqn:E; [|reflexivity].
  now apply key_eqb_eq in E.
Qed.

Lemma lookup_none k (d : list (K * V)) :
  ~ In k (map fst d) -> lookup k d = None.
Proof.
  induction d as [|[k' v] d IH]; intros Hin; [reflexivity|].
  cbn [Utilities.lookup]. rewrite key_eqb_neq.
  - apply IH. intros H. apply Hin. now right.
  - intros ->. apply Hin. now left.
Qed.

Lemma lookup_add_item_same k v m :
  lookup k (add_item k v m)
  = Some (add (match lookup k m with Some a => a | None => zero end) v).
Proof.
  induction m as [|[k' a] m IH]; cbn [Utilities.add_item Utilities.lookup].
  - now rewrite key_eqb_refl.
  - destruct (key_eqb k k') eqn:E; cbn [Utilities.lookup]; rewrite E;
      [reflexivity|exact IH].
Qed.

Lemma lookup_add_item_other k k' v m :
  k <> k' -> lookup k (add_item k' v m) = lookup k m.
Proof.
  intros Hne.
  induction m as [|[k2 a] m IH]; cbn [Utilities.add_item Utilities.lookup].
  - now rewrite key_eqb_neq.
  - destruct (key_eqb k' k2) eqn:E; cbn [Utilities.lookup];
      [|now rewrite IH].
    apply key_eqb_eq in E. subst k2. now rewrite (key_eqb_neq _ _ Hne).
Qed.

Lemma keys_add_item k v m :
  (In k (map fst m) /\ map fst (add_item k v m) = map fst m)
  \/ (~ In k (map fst m) /\ map fst (add_item k v m) = map fst m ++ [k]).
Proof.
  induction m as [|[k' a] m IH]; cbn [Utilities.add_item].
  - right. split; [intros []|reflexivity].
  - destruct (key_eqb k k') eqn:E.
    + left. apply key_eqb_eq in E. subst k'. split; [now left|reflexivity].
    + assert (k' <> k) as Hne
        by (intros ->; now rewrite key_eqb_refl in E).
      destruct IH as [[Hin Hk]|[Hin Hk]].
      * left. split; [now right|]. cbn [map fst]. now rewrite Hk.
      * right. split.
        -- intros [H|H]; [now apply Hne|now apply Hin].
        -- cbn [map fst]. now rewrite Hk.
Qed.

Lemma nodup_add_item k v m :
  NoDup (map fst m) -> NoDup (map fst (add_item k v m)).
Proof.
  intros Hnd. destruct (keys_add_item k v m) as [[_ ->]|[Hin ->]]; [exact Hnd|].
  apply NoDup_app; [exact Hnd|constructor; [intros []|constructor]|].
  intros x Hx [<-|[]]. now apply Hin.
Qed.

Lemma nodup_add_items d m :
  NoDup (map fst m) -> NoDup (map fst (add_items d m)).
Proof.
  revert m. induction d as [|[k v] d IH]; intros m Hnd; [exact Hnd|].
  unfold Utilities.add_items. cbn [fold_left fst snd].
  apply IH. now apply nodup_add_item.
Qed.

Lemma lookup_add_items k d m :
  NoDup (map fst d) ->
  lookup k (add_items d m)
  = match lookup k d with
    | Some v =>
        Some (add (match lookup k m with Some a => a | None => zero end) v)
    | None => lookup k m
    end.
Proof.
  revert m. induction d as [|[k1 v1] d IH]; intros m Hnd; [reflexivity|].
  unfold Utilities.add_items. cbn [fold_left fst snd].
  fold (add_items d (add_item k1 v1 m)).
  cbn [map fst] in Hnd. apply NoDup_cons_iff in Hnd. destruct Hnd as [Hk1 Hnd].
  rewrite (IH _ Hnd). cbn [Utilities.lookup].
  destruct (key_eqb k k1) eqn:E.
  - apply key_eqb_eq in E. subst k1.
    rewrite (lookup_none _ _ Hk1). apply lookup_add_item_same.
  - assert (k <> k1) as Hne
      by (intros ->; now rewrite key_eqb_refl in E).
    now rewrite (lookup_add_item_other _ _ _ _ Hne).
Qed.


End Dicts.


(** ** [listoflist_into_matrix] *)

Lemma fold_max_le (l : list nat) (a : nat) :
  (a <= fold_left Nat.max l a)%nat
  /\ (forall n, In n l -> n <= fold_left Nat.max l a)%nat
  /\ (fold_left Nat.max l a = a \/ In (fold_left Nat.max l a) l).
Proof.
  revert a. induction l as [|x l IH]; intros a; cbn [fold_left].
  - split; [lia|]. split; [intros n []|now left].
  - destruct (IH (Nat.max a x)) as (Ha & Hall & Hat).
    split; [lia|]. split.
    + intros n [<-|Hn]; [lia|now apply Hall].
    + destruct Hat as [Hat|Hat]; [|right; now right].
      rewrite Hat. destruct (Nat.max_spec a x) as [[_ ->]|[_ ->]];
        [right; now left|now left].
Qed.

Lemma assign_prefix_pads (row : list fl) (n : nat) :
  (length row <= n)%nat ->
  assign_prefix row (repeat NaN n) = row ++ repeat NaN (n - length row).
Proof.
  revert n. induction row as [|v row IH]; intros n Hn; cbn [assign_prefix].
  - cbn [length app]. now rewrite Nat.sub_0_r.
  - cbn [length] in Hn. destruct n as [|n]; [lia|].
    cbn [repeat length app Nat.sub]. rewrite IH by lia. reflexivity.
Qed.

Lemma nth_error_combine_repeat {A B} (l : list A) (b : B) i a :
  nth_error l i = Some a ->
  nth_error (combine l (repeat b (length l))) i = Some (a, b).
Proof.
  revert i. induction l as [|x l IH]; intros [|i] H; try discriminate.
  - injection H as ->. reflexivity.
  - cbn [length repeat combine nth_error]. now apply IH.
Qed.


(** ** [filtering_before_fit] *)

Lemma select_length {A B} (mask : list bool) (l : list A) (l' : list B) :
  length l = length l' ->
  length (select mask l) = length (select mask l').
Proof.
  unfold select. rewrite !length_map. revert l l'.
  induction mask as [|b mask IH]; intros [|x l] [|y l'] H;
    try discriminate; try reflexivity.
  cbn [combine filter fst]. injection H as H.
  destruct b; cbn [length]; now rewrite (IH l l').
Qed.

Lemma select_all {A} (mask : list bool) (l : list A) :
  length mask = length l -> forallb (fun b => b) mask = true ->
  select mask l = l.
Proof.
  unfold select. revert l.
  induction mask as [|b mask IH]; intros [|x l] Hlen Hall;
    try discriminate; [reflexivity|].
  cbn [forallb] in Hall. apply andb_true_iff in Hall. destruct Hall as [-> Hall].
  cbn [combine filter fst map snd]. injection Hlen as Hlen.
  now rewrite IH.
Qed.

(** What [valid_idx] keeps of two arrays of one length. *)
Lemma select_valid (data std : list fl) :
  length data = length std ->
  let valid_idx :=
    map (fun ds => negb (isnan (fst ds)) && negb (isnan (snd ds))
                   && negb (isinf (fst ds)) && negb (isinf (snd ds)))
        (combine data std) in
  Forall finite (select valid_idx data)
  /\ Forall finite (select valid_idx std).
Proof.
  revert std. induction data as [|d data IH]; intros [|s std] Hlen;
    try discriminate; cbv zeta.
  - split; constructor.
  - injection Hlen as Hlen. destruct (IH std Hlen) as [Hd Hs].
    unfold select in *. cbn [combine map fst snd filter].
    destruct (negb (isnan d) && negb (isnan s) && negb (isinf d)
              && negb (isinf s)) eqn:E; cbn [map snd fst]; [|now split].
    apply andb_true_iff in E. destruct E as [E E4].
    apply andb_true_iff in E. destruct E as [E E3].
    apply andb_true_iff in E. destruct E as [E1 E2].
    apply negb_true_iff in E1, E2, E3, E4.
    split; constructor; try assumption; now split.
Qed.

Lemma replace_zero_finite (std : list fl) :
  Forall finite std ->
  Forall (fun s => finite s /\ feq s (of_Z 0) = false)
         (map (fun s => if feq s (of_Z 0) then small_std else s) std).
Proof.
  induction 1 as [|s std Hs _ IH]; cbn [map]; constructor; [|exact IH].
  destruct (feq s (of_Z 0)) eqn:E; [|now split].
  split; [now split|reflexivity].
Qed.

Lemma valid_of_finite (data std : list fl) :
  length data = length std ->
  Forall finite data -> Forall finite std ->
  forallb (fun b => b)
    (map (fun ds => negb (isnan (fst ds)) && negb (isnan (snd ds))
                    && negb (isinf (fst ds)) && negb (isinf (snd ds)))
         (combine data std)) = true.
Proof.
  intros Hlen Hd. revert std Hlen.
  induction Hd as [|d data [Hd1 Hd2] _ IH]; intros [|s std] Hlen Hs;
    try discriminate; [reflexivity|].
  injection Hlen as Hlen. inversion Hs as [|? ? [Hs1 Hs2] Hs']; subst.
  cbn [combine map forallb fst snd].
  rewrite Hd1, Hd2, Hs1, Hs2. cbn [negb andb]. now apply IH.
Qed.

Lemma replace_zero_none (std : list fl) :
  Forall (fun s => finite s /\ feq s (of_Z 0) = false) std ->
  map (fun s => if feq s (of_Z 0) then small_std else s) std = std.
Proof.
  induction 1 as [|s std [_ Hs] _ IH]; [reflexivity|].
  cbn [map]. now rewrite Hs, IH.
Qed.

Lemma lengths_agree (a b c : list fl) :
  Nat.eqb (length a) (length b) && Nat.eqb (length b) (length c) = true
  <-> length a = length b /\ length b = length c.
Proof. now rewrite andb_true_iff, !Nat.eqb_eq. Qed.




(** ** [jump], [perform_jump] *)

Lemma jump_scan_first (r : fl) (rest : list fl) (j : Z) :
  exists n : nat,
    jump_scan r rest j = j + Z.of_nat n
    /\ (n <= length rest)%nat
    /\ (forall k, (k < n)%nat -> fge r (nth k rest NaN) = true)
    /\ ((n < length rest)%nat -> fge r (nth n rest NaN) = false).
Proof.
  revert j. induction rest as [|pj rest IH]; intros j; cbn [jump_scan].
  - exists 0%nat. split; [lia|]. split; [cbn [length]; lia|].
    split; [intros k Hk; lia|cbn [length]; lia].
  - destruct (fge r pj) eqn:E.
    + destruct (IH (j + 1)) as (n & Hj & Hn & Hbefore & Hat).
      exists (S n). split; [lia|]. split; [cbn [length]; lia|]. split.
      * intros [|k] Hk; [exact E|]. cbn [nth]. apply Hbefore. lia.
      * cbn [length nth]. intros H. apply Hat. lia.
    + exists 0%nat. split; [lia|]. split; [cbn [length]; lia|].
      split; [intros k Hk; lia|intros _; exact E].
Qed.


(** ** [prepare_value] *)

Lemma value_deep_ind (P : value -> Prop) :
  P PyNone -> (forall b, P (PyBool b)) -> (forall z, P (PyInt z)) ->
  (forall f, P (PyFloat f)) -> (forall s, P (PyStr s)) ->
  (forall l, Forall P l -> P (PyList l)) ->
  (forall z, P (NpInteger z)) -> (forall f, P (NpFloating f)) ->
  (forall l, Forall P l -> P (NpArray l)) ->
  P Other ->
  forall v, P v.
Proof.
  intros HNone HBool HInt HFloat HStr HList HNpI HNpF HArr HOther.
  fix IH 1. intros [ | b | z | f | s | l | z | f | l | ].
  - exact HNone.
  - apply HBool.
  - apply HInt.
  - apply HFloat.
  - apply HStr.
  - apply HList. induction l as [|x l IHl]; constructor; [apply IH|exact IHl].
  - apply HNpI.
  - apply HNpF.
  - apply HArr. induction l as [|x l IHl]; constructor; [apply IH|exact IHl].
  - exact HOther.
Qed.

Lemma prepared_list (l : list value) :
  Forall prepared_well l ->
  match Py.all_ok (map prepare_value l) with
  | Py.Ok l' =>
      forallb supported l = true /\ forallb plain l' = true
      /\ Py.all_ok (map prepare_value l') = Py.Ok l'
  | Py.Raise e => e = Py.ValueError /\ forallb supported l = false
  | Py.Timeout => False
  end.
Proof.
  induction 1 as [|v l Hv _ IH]; [now cbn|].
  cbn [map Py.all_ok forallb]. unfold prepared_well in Hv.
  destruct (prepare_value v) as [v'|e|]; cbn [Py.rbind]; [| |exact Hv].
  - destruct Hv as (Hs & Hp & Hfix). rewrite Hs. cbn [andb].
    destruct (Py.all_ok (map prepare_value l)) as [l'|e|]; cbn [Py.rbind];
      [| exact IH | exact IH].
    destruct IH as (Hsl & Hpl & Hfixl). split; [exact Hsl|].
    cbn [forallb map Py.all_ok]. rewrite Hp, Hpl, Hfix, Hfixl. now cbn.
  - destruct Hv as [-> Hs]. rewrite Hs. now split.
Qed.

Lemma prepare_value_well (v : value) : prepared_well v.
Proof.
  induction v as [ | b | z | f | s | l IH | z | f | l IH | ]
    using value_deep_ind; unfold prepared_well; cbn [prepare_value];
    try (now cbn).
  - destruct (isnan f) eqn:E; cbn [supported plain prepare_value];
      [now cbn|]. rewrite E. now cbn.
  - apply prepared_list in IH.
    destruct (Py.all_ok (map prepare_value l)) as [l'|e|]; cbn [Py.rbind];
      [|exact IH|exact IH].
    destruct IH as (Hs & Hp & Hfix). cbn [supported plain prepare_value].
    rewrite Hfix. now cbn.
  - destruct (isnan f) eqn:E; cbn [supported plain prepare_value];
      [now cbn|]. rewrite E. now cbn.
  - apply prepared_list in IH.
    destruct (Py.all_ok (map prepare_value l)) as [l'|e|]; cbn [Py.rbind];
      [|exact IH|exact IH].
    destruct IH as (Hs & Hp & Hfix). cbn [supported plain prepare_value].
    rewrite Hfix. now cbn.
Qed.




End UtilitiesFacts.

(* ===================================================================== *)
(** * Lengths of the obstacles and of the linkers *)
(* ===================================================================== *)

Module LengthsFacts.
Import NpFloat Stats Lengths.

Lemma run_counts_runs (mask : list bool) :
  run_counts mask
  = map (fun se => Z.of_nat (snd se) - Z.of_nat (fst se))
        (Landscape.runs_aux None 0 mask).
Proof.
  unfold run_counts, Np.where_eq.
  change (Np.diff (0 :: map Z.b2z mask ++ [0]))
    with (Landscape.diffs_of false mask).
  now rewrite (proj1 (LandscapeFacts.zip_starts_ends mask 0%nat)).
Qed.

(** The scan finds as many starts as ends. *)
Lemma starts_and_ends_pair (mask : list bool) :
  let diffs := Np.diff (0 :: map Z.b2z mask ++ [0]) in
  length (Np.where_eq diffs 1) = length (Np.where_eq diffs (-1)).
Proof.
  cbv zeta. unfold Np.where_eq.
  change (Np.diff (0 :: map Z.b2z mask ++ [0]))
    with (Landscape.diffs_of false mask).
  generalize 0%nat.
  enough (forall off,
             length (Np.where_from off 1 (Landscape.diffs_of false mask))
             = length (Np.where_from off (-1) (Landscape.diffs_of false mask))
             /\ S (length (Np.where_from off 1 (Landscape.diffs_of true mask)))
                = length (Np.where_from off (-1)
                            (Landscape.diffs_of true mask))) as H
      by (intros off; apply H).
  induction mask as [|b mask IH]; intros off; [now split|].
  destruct (IH (S off)) as [IH1 IH2].
  rewrite !LandscapeFacts.diffs_of_cons.
  destruct b; cbn [Z.b2z Z.sub Z.opp Z.add Z.pos_sub Np.where_from Z.eqb
                   Pos.eqb length]; split; try assumption.
  now rewrite IH1.
Qed.

(** Every run that the scan returns has its start before its end. *)
Lemma runs_aux_ordered (m : list bool) :
  forall off,
    Forall (fun se => (fst se < snd se)%nat) (Landscape.runs_aux None off m)
    /\ forall s, (s < off)%nat ->
         Forall (fun se => (fst se < snd se)%nat)
                (Landscape.runs_aux (Some s) off m).
Proof.
  induction m as [|b m IH]; intros off.
  - split; [constructor|]. intros s Hs. repeat constructor. exact Hs.
  - destruct (IH (S off)) as [IH1 IH2]. split.
    + destruct b; cbn [Landscape.runs_aux]; [apply IH2; lia|exact IH1].
    + intros s Hs. destruct b; cbn [Landscape.runs_aux].
      * apply IH2. lia.
      * constructor; [exact Hs|exact IH1].
Qed.

(** The scan returns no run exactly when the mask selects no site. *)
Lemma runs_aux_nil (m : list bool) :
  forall off,
    (Landscape.runs_aux None off m = [] <-> existsb (fun b => b) m = false)
    /\ forall s, Landscape.runs_aux (Some s) off m <> [].
Proof.
  induction m as [|b m IH]; intros off.
  - split; [now split|]. intros s. discriminate.
  - destruct (IH (S off)) as [IH1 IH2]. split.
    + destruct b; cbn [Landscape.runs_aux existsb orb]; [|exact IH1].
      split; [intros H; now apply IH2 in H|discriminate].
    + intros s. destruct b; cbn [Landscape.runs_aux]; [apply IH2|discriminate].
Qed.

Lemma run_counts_positive (mask : list bool) :
  Forall (fun c => 0 < c) (run_counts mask).
Proof.
  rewrite run_counts_runs. apply Forall_map.
  eapply Forall_impl; [|exact (proj1 (runs_aux_ordered mask 0%nat))].
  intros se H. cbv beta in H. lia.
Qed.

Lemma run_counts_nil (mask : list bool) :
  run_counts mask = [] <-> existsb (fun b => b) mask = false.
Proof.
  rewrite run_counts_runs. rewrite <- (proj1 (runs_aux_nil mask 0%nat)).
  split; [apply map_eq_nil|now intros ->].
Qed.

Lemma fold_max_bounds (l : list Z) (a : Z) :
  a <= fold_left Z.max l a
  /\ Forall (fun c => c <= fold_left Z.max l a) l.
Proof.
  revert a. induction l as [|x l IH]; intros a; cbn [fold_left].
  - split; [lia|constructor].
  - destruct (IH (Z.max a x)) as [H1 H2]. split; [lia|].
    constructor; [lia|exact H2].
Qed.

Lemma last_arange (step : Q) (n : nat) :
  last (map (fun i => (0 + inject_Z (Z.of_nat i) * step)%Q) (seq 0 (S n)))
       (0 + inject_Z (Z.of_nat 0) * step)%Q
  = (0 + inject_Z (Z.of_nat n) * step)%Q.
Proof.
  rewrite (BlocksFacts.last_map
             (fun i => (0 + inject_Z (Z.of_nat i) * step)%Q)).
  f_equal. f_equal. f_equal. f_equal.
  rewrite seq_S. cbn [Nat.add]. now rewrite last_last.
Qed.

(** A grid from 0 with a positive step that runs a step beyond a positive
    value contains the value. *)
Lemma arange_covers (stop step d : Q) (edges : list Q) :
  (0 < step)%Q -> (0 < d)%Q -> (d + step <= stop)%Q ->
  arange 0 stop step = Py.Ok edges ->
  in_grid edges (Fin d) = true.
Proof.
  intros Hs Hd Hstop. unfold arange.
  assert (Qeq_bool step 0 = false) as ->.
  { apply not_true_is_false. intros H. apply Qeq_bool_iff in H. lra. }
  intros H. injection H as <-.
  set (c := Qceiling ((stop - 0) / step)).
  assert ((stop - 0) / step <= inject_Z c)%Q as Hx by apply Qle_ceiling.
  assert (stop <= inject_Z c * step)%Q as Hmul.
  { assert ((stop - 0) / step * step == stop)%Q as <- by (field; lra).
    apply Qmult_le_compat_r; [exact Hx|lra]. }
  assert (2 <= c)%Z as Hc.
  { destruct (Z_le_gt_dec c 1) as [Hle|Hgt]; [|lia].
    rewrite Zle_Qle in Hle. change (inject_Z 1) with 1%Q in Hle. nra. }
  assert (Z.to_nat c = S (S (Z.to_nat (c - 2)))) as -> by lia.
  set (k := Z.to_nat (c - 2)).
  assert (in_grid
            (map (fun i => (0 + inject_Z (Z.of_nat i) * step)%Q)
                 (seq 0 (S (S k)))) (Fin d)
          = Qle_bool (0 + inject_Z (Z.of_nat 0) * step) d
            && Qle_bool d
                 (last (map (fun i => (0 + inject_Z (Z.of_nat i) * step)%Q)
                            (seq 0 (S (S k))))
                       (0 + inject_Z (Z.of_nat 0) * step)%Q)) as ->
    by reflexivity.
  rewrite last_arange. apply andb_true_iff. split; apply Qle_bool_iff.
  - change (inject_Z (Z.of_nat 0)) with 0%Q. lra.
  - assert (inject_Z (Z.of_nat (S k)) == inject_Z c - 1)%Q as ->.
    { unfold k. replace (Z.of_nat (S (Z.to_nat (c - 2)))) with (c + - 1)%Z
        by lia.
      rewrite inject_Z_plus. change (inject_Z (-1)) with (- 1)%Q. lra. }
    lra.
Qed.

Lemma Qtrunc_inject_Z (z : Z) : Py.Qtrunc (inject_Z z) = z.
Proof. unfold Py.Qtrunc, inject_Z. cbn [Qnum Qden]. apply Z.quot_1_r. Qed.

(** The grid that [calculate_obs_and_linker_distribution] asks for holds
    every count. *)
Lemma covered_distribution (counts : list Z) (top step : Z) :
  0 < step -> counts <> [] -> Forall (fun c => 0 < c) counts ->
  Engine.np_max counts = Py.Ok top ->
  exists r,
    Py.rbind (arange 0 (inject_Z (top + step) + inject_Z step)
                     (inject_Z step))
             (fun bins_array => distribution_on (map of_Z counts) bins_array)
    = Py.Ok r
    /\ Forall (fun a => isnan a = false) (snd r)
    /\ exists s, sum (snd r) = Fin s /\ (s == 1)%Q.
Proof.
  intros Hstep Hne Hpos Htop.
  assert (0 < inject_Z step)%Q as Hs.
  { change 0%Q with (inject_Z 0). now rewrite <- Zlt_Qlt. }
  destruct (DistributionFacts.arange_returns
              0 (inject_Z (top + step) + inject_Z step) (inject_Z step) Hs)
    as (edges & Ea & Hm).
  rewrite Ea. cbn [Py.rbind].
  destruct (distribution_on (map of_Z counts) edges)
    as [[points distrib]| |] eqn:Ed;
    try (unfold distribution_on, histogram in Ed; rewrite Hm in Ed;
         discriminate).
  exists (points, distrib). split; [reflexivity|].
  apply DistributionFacts.distribution_on_normalised in Ed.
  destruct Ed as (_ & Hnan & Hone & _). split; [exact Hnan|]. apply Hone.
  destruct counts as [|c0 rest]; [congruence|].
  cbn [map existsb]. apply orb_true_iff. left.
  apply (arange_covers (inject_Z (top + step) + inject_Z step)
           (inject_Z step) (inject_Z c0) edges Hs); [| |exact Ea].
  - change 0%Q with (inject_Z 0). rewrite <- Zlt_Qlt.
    now inversion Hpos.
  - cbn [Engine.np_max] in Htop. injection Htop as <-.
    rewrite <- !inject_Z_plus, <- Zle_Qle.
    pose proof (proj1 (fold_max_bounds rest c0)). lia.
Qed.

Section Instances.
Variable calculate_distribution :
  list fl -> Q -> Q -> Q -> Py.result (list Q * list fl).
(** What the two versions of [calculate_distribution] have in common on
    the arguments that they are given here. *)
Hypothesis on_integers : forall d data (top step : Z),
  calculate_distribution (d :: data) 0 (inject_Z (top + step)) (inject_Z step)
  = Py.rbind (arange 0 (inject_Z (top + step) + inject_Z step)
                     (inject_Z step))
             (fun bins_array => distribution_on (d :: data) bins_array).

Lemma distribution_of_counts_normalised (mask : list bool) (step : Z) :
  0 < step ->
  exists r,
    distribution_of_counts calculate_distribution (run_counts mask) step
    = Py.Ok r
    /\ normalised_for mask r.
Proof.
  intros Hstep. unfold distribution_of_counts.
  destruct (run_counts mask) as [|c0 rest] eqn:Ec.
  - apply run_counts_nil in Ec. exists ([], []). split; [reflexivity|].
    split; [constructor|]. split; [reflexivity|]. congruence.
  - assert (existsb (fun b => b) mask = true) as Hsome.
    { destruct (existsb (fun b => b) mask) eqn:E; [reflexivity|].
      apply run_counts_nil in E. congruence. }
    pose proof (run_counts_positive mask) as Hpos. rewrite Ec in Hpos.
    destruct (covered_distribution (c0 :: rest) (fold_left Z.max rest c0) step
                Hstep ltac:(discriminate) Hpos eq_refl)
      as (r & Hr & Hnan & Hone).
    exists r. cbn [Engine.np_max Py.rbind map]. rewrite on_integers.
    split; [exact Hr|]. split; [exact Hnan|]. split; [congruence|].
    intros _. exact Hone.
Qed.

Lemma obs_and_linker_normalised
      (alpha_array : list fl) (alphao alphaf : fl) (step : Z) :
  0 < step ->
  exists o l,
    calculate_obs_and_linker_distribution calculate_distribution
      alpha_array alphao alphaf step = Py.Ok (o, l)
    /\ normalised_for (map (fun a => feq a alphao) alpha_array) o
    /\ normalised_for (map (fun a => feq a alphaf) alpha_array) l.
Proof.
  intros Hstep. unfold calculate_obs_and_linker_distribution.
  destruct (distribution_of_counts_normalised
              (map (fun a => feq a alphao) alpha_array) step Hstep)
    as (o & -> & Ho).
  destruct (distribution_of_counts_normalised
              (map (fun a => feq a alphaf) alpha_array) step Hstep)
    as (l & -> & Hl).
  exists o, l. now split.
Qed.

End Instances.



End LengthsFacts.
